(** * gws: permessage-deflate helpers and session storage

    A shallow embedding of [compress.go] (deflater pool, deflater,
    sliding window, extension negotiation, limited reader) and of
    [session_storage.go] (sharded concurrent map), with the properties
    the specification states about them.

    Conventions.
    - Go's [int] and [uint64] are [Z]; [uint64] arithmetic is written with
      its wrap-around ([mod 2^64]).  Lengths of slices are far below the
      range of [int], so sums of lengths are not wrapped.
    - A byte slice is a [list Byte.byte]; only its contents and length are
      modelled, not its capacity.
    - A run-time panic (slice bound or index out of range) is [None]. *)

From stdpp Require Import base option list strings gmap numbers.
From Stdlib Require Import ZArith Lia Ascii.
From Stdlib Require Strings.Byte.
From Stdlib Require Import DecimalString DecimalPos.

Local Open Scope Z_scope.

Abbreviation byte := Byte.byte.

(** ** Go slices *)

Module slice.
Section Slice.
Context {A : Type}.

(** [len(s)] *)
Definition len (s : list A) : Z := Z.of_nat (length s).

(** [s[lo:]]: panics unless [0 <= lo <= len(s)]. *)
Definition from (s : list A) (lo : Z) : option (list A) :=
  if bool_decide (0 <= lo <= len s) then Some (drop (Z.to_nat lo) s) else None.

(** [s[:hi]]: panics unless [0 <= hi]; a bound between [len(s)] and
    [cap(s)] would extend the slice, which no caller below does, so it is
    a panic here as well. *)
Definition to (s : list A) (hi : Z) : option (list A) :=
  if bool_decide (0 <= hi <= len s) then Some (take (Z.to_nat hi) s) else None.

(** [copy(dst, src)]: overwrites the first [min(len(dst), len(src))]
    elements of [dst]; the result is the contents of [dst] afterwards. *)
Definition copy (dst src : list A) : list A :=
  take (length dst) src ++ drop (length src) dst.

(** The last [k] elements of [s] (all of [s] when it is shorter). *)
Definition last_n (k : Z) (s : list A) : list A :=
  drop (length s - Z.to_nat k)%nat s.
End Slice.
End slice.

(** ** Errors *)

(** The values of Go's [error] that the modelled code can see: [io.EOF],
    a close status code of the package (which implements [error]), any
    other failure of the flate library, and the two errors of [strconv]. *)
Inductive error : Type :=
  | io_EOF
  | StatusCode (code : Z)
  | flate_error (msg : string)
  | strconv_ErrSyntax
  | strconv_ErrRange.

Global Instance error_eq_dec : EqDecision error.
Proof. solve_decision. Defined.

(** ** Go's strings and strconv packages

    A Go string is a sequence of bytes, here a [string] of 8-bit
    characters.  The separators the package passes are single bytes, so
    the splitting functions take one character. *)

Module strings.

(** [strings.Split(s, sep)] for a one-byte separator: the pieces between
    the separators, ["" ] included; a string without separator is its
    only piece. *)
Fixpoint Split (s : string) (sep : ascii) : list string :=
  match s with
  | EmptyString => [EmptyString]
  | String c s' =>
      if Ascii.eqb c sep then EmptyString :: Split s' sep
      else match Split s' sep with
           | x :: xs => String c x :: xs
           | [] => [String c EmptyString]
           end
  end.

(** [strings.Cut(s, sep)]: the text before and after the first separator. *)
Fixpoint Cut (s : string) (sep : ascii) : option (string * string) :=
  match s with
  | EmptyString => None
  | String c s' =>
      if Ascii.eqb c sep then Some (EmptyString, s')
      else match Cut s' sep with
           | Some (a, b) => Some (String c a, b)
           | None => None
           end
  end.

Fixpoint SplitN_pieces (s : string) (sep : ascii) (cuts : nat) : list string :=
  match cuts with
  | O => [s]
  | S cuts' =>
      match Cut s sep with
      | Some (a, b) => a :: SplitN_pieces b sep cuts'
      | None => [s]
      end
  end.

(** [strings.SplitN(s, sep, n)]: at most [n] pieces, the last one the
    unsplit rest; no piece for [n = 0], all pieces for [n < 0]. *)
Definition SplitN (s : string) (sep : ascii) (n : Z) : list string :=
  if bool_decide (n = 0) then []
  else if bool_decide (n < 0) then Split s sep
  else SplitN_pieces s sep (Z.to_nat (n - 1)).

(** [strings.Join(elems, sep)] *)
Definition Join (elems : list string) (sep : string) : string :=
  String.concat sep elems.

Definition code (c : ascii) : N := Ascii.N_of_ascii c.

(** White space ([unicode.IsSpace]) of one byte: tab, line feed, vertical
    tab, form feed, carriage return, space. *)
Definition space1 (c : ascii) : bool :=
  ((9 <=? code c) && (code c <=? 13) || (code c =? 32))%N.

(** White space encoded in two bytes of UTF-8: U+0085 and U+00A0. *)
Definition space2 (c1 c2 : ascii) : bool :=
  ((code c1 =? 194) && ((code c2 =? 133) || (code c2 =? 160)))%N.

(** White space encoded in three bytes of UTF-8: U+1680, U+2000 to
    U+200A, U+2028, U+2029, U+202F, U+205F and U+3000. *)
Definition space3 (c1 c2 c3 : ascii) : bool :=
  ((code c1 =? 225) && (code c2 =? 154) && (code c3 =? 128)
   || (code c1 =? 226) && (code c2 =? 128)
      && ((128 <=? code c3) && (code c3 <=? 138)
          || (code c3 =? 168) || (code c3 =? 169) || (code c3 =? 175))
   || (code c1 =? 226) && (code c2 =? 129) && (code c3 =? 159)
   || (code c1 =? 227) && (code c2 =? 128) && (code c3 =? 128))%N.

(** [strings.TrimLeftFunc(s, unicode.IsSpace)]: drops the leading white
    space runes.  A byte sequence that is no valid UTF-8 decodes to
    U+FFFD, which is no white space, and stops the trimming. *)
Fixpoint TrimLeftSpace (s : list ascii) : list ascii :=
  match s with
  | [] => []
  | c1 :: s1 =>
      if space1 c1 then TrimLeftSpace s1
      else match s1 with
           | [] => s
           | c2 :: s2 =>
               if space2 c1 c2 then TrimLeftSpace s2
               else match s2 with
                    | [] => s
                    | c3 :: s3 =>
                        if space3 c1 c2 c3 then TrimLeftSpace s3 else s
                    end
           end
  end.

(** [strings.TrimRightFunc(s, unicode.IsSpace)], on the reversed bytes:
    the last rune is found by walking back to its first byte, so the
    encodings are matched from their last byte. *)
Fixpoint TrimRightSpace_rev (s : list ascii) : list ascii :=
  match s with
  | [] => []
  | c1 :: s1 =>
      if space1 c1 then TrimRightSpace_rev s1
      else match s1 with
           | [] => s
           | c2 :: s2 =>
               if space2 c2 c1 then TrimRightSpace_rev s2
               else match s2 with
                    | [] => s
                    | c3 :: s3 =>
                        if space3 c3 c2 c1 then TrimRightSpace_rev s3 else s
                    end
           end
  end.

(** [strings.TrimSpace(s)] *)
Definition TrimSpace (s : string) : string :=
  String.string_of_list_ascii
    (rev (TrimRightSpace_rev (rev (TrimLeftSpace (String.list_ascii_of_string s))))).

End strings.

Module strconv.

(** The value of a decimal digit: the byte [ch - '0'] when it is at most
    9. *)
Definition digit (c : ascii) : option Z :=
  let n := Ascii.N_of_ascii c in
  if ((48 <=? n) && (n <=? 57))%N then Some (Z.of_N n - 48) else None.

(** The loop [n = n*10 + int(ch)] of the fast path of [Atoi]: [None]
    when a byte is no digit.  The fast path takes fewer than 19 bytes, so
    [n] stays within [int]. *)
Fixpoint digits (s : string) (acc : Z) : option Z :=
  match s with
  | EmptyString => Some acc
  | String c s' => d ← digit c; digits s' (acc * 10 + d)
  end.

Definition maxUint64 : Z := 2 ^ 64 - 1.

(** [int64(x)]: the 64 bits of [x] read as a signed number. *)
Definition int64 (x : Z) : Z := (x + 2 ^ 63) mod 2 ^ 64 - 2 ^ 63.

(** The loop of [ParseUint(s, 10, 0)] from the value [n] on, in
    [uint64]: a byte that is no digit is a syntax error, and the digit at
    which the value leaves [uint64] is a range error with the largest
    value; the bytes after it are not read. *)
Fixpoint ParseUint_loop (s : string) (n : Z) : Z * option error :=
  match s with
  | EmptyString => (n, None)
  | String c s' =>
      match digit c with
      | None => (0, Some strconv_ErrSyntax)
      | Some d =>
          let cutoff := maxUint64 / 10 + 1 in
          if bool_decide (n >= cutoff)
          then (maxUint64, Some strconv_ErrRange)
          else
            let n := (n * 10) mod 2 ^ 64 in
            let n1 := (n + d) mod 2 ^ 64 in
            if bool_decide (n1 < n) || bool_decide (n1 > maxUint64)
            then (maxUint64, Some strconv_ErrRange)
            else ParseUint_loop s' n1
      end
  end.

(** [strconv.ParseUint(s, 10, 0)] on a 64-bit platform. *)
Definition ParseUint (s : string) : Z * option error :=
  match s with
  | EmptyString => (0, Some strconv_ErrSyntax)
  | _ => ParseUint_loop s 0
  end.

(** [strconv.ParseInt(s, 10, 0)] on a 64-bit platform: the sign is
    picked off, the rest is parsed as unsigned, and a value outside
    [int64] gives the nearest bound and a range error. *)
Definition ParseInt (s : string) : Z * option error :=
  match s with
  | EmptyString => (0, Some strconv_ErrSyntax)
  | _ =>
      let '(neg, body) :=
        match s with
        | String "+"%char r => (false, r)
        | String "-"%char r => (true, r)
        | _ => (false, s)
        end in
      let '(un, err) := ParseUint body in
      if bool_decide (err ≠ None ∧ err ≠ Some strconv_ErrRange)
      then (0, err)
      else
        let cutoff := 2 ^ 63 in
        if negb neg && bool_decide (un >= cutoff)
        then (cutoff - 1, Some strconv_ErrRange)
        else if (neg : bool) && bool_decide (un > cutoff)
        then (- cutoff, Some strconv_ErrRange)
        else
          let n := int64 un in
          let n := if neg : bool then int64 (- n) else n in
          (n, None)
  end.

(** [strconv.Atoi(s)] on a 64-bit platform.  A text of 1 to 18 bytes
    takes the fast path: an optional sign and decimal digits, any other
    byte a syntax error with the value 0.  Every other text goes through
    [ParseInt]. *)
Definition Atoi (s : string) : Z * option error :=
  let sLen := Z.of_nat (String.length s) in
  if bool_decide (0 < sLen ∧ sLen < 19) then
    let '(signed, body) :=
      match s with
      | String "-"%char r => (true, r)
      | String "+"%char r => (true, r)
      | _ => (false, s)
      end in
    if (signed : bool) && bool_decide (Z.of_nat (String.length body) < 1)
    then (0, Some strconv_ErrSyntax)
    else
      match digits body 0 with
      | None => (0, Some strconv_ErrSyntax)
      | Some n =>
          let n :=
            match s with
            | String "-"%char _ => - n
            | _ => n
            end in
          (n, None)
      end
  else ParseInt s.

(** [strconv.Itoa(i)]: the decimal text of [i]. *)
Definition Itoa (i : Z) : string := NilZero.string_of_int (Z.to_int i).

End strconv.
(** ** package internal

    Of this package only [others.go] is among the sources; the helpers and
    constants of its other files that [compress.go] and
    [session_storage.go] use are modelled here. *)

Module internal.

(** Modelled from the spec: [internal.BinaryPow] is not among the
    sources; the window capacity is [2^windowBits]. *)
Definition BinaryPow (n : Z) : Z := 2 ^ n.

(** Modelled from the spec: [internal.ToBinaryNumber] is not among the
    sources; it rounds a count up to a power of two: the least power of
    two that is not below [n]. *)
Definition ToBinaryNumber (n : Z) : Z := 2 ^ Z.log2_up n.

(** Modelled from the spec: [internal.SelectValue] is not among the
    sources; it is the conditional expression [ok ? a : b]. *)
Definition SelectValue {T : Type} (ok : bool) (a b : T) : T :=
  if ok then a else b.

(** Modelled from the spec: [internal.Min] is not among the sources; the
    negotiation takes the minimum of window bits with it. *)
Definition Min (a b : Z) : Z := Z.min a b.

(** Modelled from the spec: [internal.WithDefault] is not among the
    sources and the spec does not describe it.  By its name and its use on
    the result of an [Atoi] whose error is dropped, it replaces the zero
    value by the default. *)
Definition WithDefault (rawValue newValue : Z) : Z :=
  if bool_decide (rawValue = 0) then newValue else rawValue.

(** Modelled from the spec: the names of the extension and of its
    parameters are constants of a file that is not among the sources; the
    spec (4.4) lists them. *)
Definition PermessageDeflate : string := "permessage-deflate".
Definition ServerNoContextTakeover : string := "server_no_context_takeover".
Definition ClientNoContextTakeover : string := "client_no_context_takeover".
Definition ServerMaxWindowBits : string := "server_max_window_bits".
Definition ClientMaxWindowBits : string := "client_max_window_bits".
Definition EQ : string := "=".

(** Modelled from the spec: [internal.Split] is not among the sources.
    The spec (4.4) has the header value parsed into tokens separated by
    [;]; the headers of [genResponseHeader] put a space after each [;], so
    a token is a piece without the white space around it, and empty pieces
    are no tokens. *)
Definition Split (s : string) (sep : ascii) : list string :=
  filter (λ v, v ≠ EmptyString) (strings.TrimSpace <$> strings.Split s sep).

(** Modelled from the spec: [internal.CloseMessageTooLarge] is not among
    the sources; it is the close error with code 1009 (spec, 6 and 7). *)
Definition CloseMessageTooLarge : error := StatusCode 1009.

End internal.
(** ** slideWindow *)

Record slideWindow : Type := mkSlideWindow {
  enabled : bool;
  dict : list byte;
  size : Z
}.

(** The zero value of the struct: a window that was never initialised. *)
Definition slideWindow_zero : slideWindow :=
  {| enabled := false; dict := []; size := 0 |}.

(** [slideWindow.initialize]. [pool] is [None] for a nil pool, and
    otherwise the slice [pool.Get()] hands out, which is cut to length 0. *)
Definition slideWindow_initialize (c : slideWindow) (pool : option (list byte))
    (windowBits : Z) : slideWindow :=
  let size := internal.BinaryPow windowBits in
  {| enabled := true;
     size := size;
     dict := match pool with
             | Some b => take 0 b
             | None => []
             end |}.

Definition set_dict (c : slideWindow) (d : list byte) : slideWindow :=
  {| enabled := enabled c; dict := d; size := size c |}.

(** [slideWindow.Write]: the window afterwards and the pair [(n, err)]
    returned. *)
Definition slideWindow_Write (c : slideWindow) (p : list byte)
    : option (slideWindow * (Z * option error)) :=
  if negb (enabled c) then Some (c, (0, None)) else
  let total := slice.len p in
  let n := total in
  let length := slice.len (dict c) in
  if bool_decide (n + length <= size c) then
    Some (set_dict c (dict c ++ p), (total, None))
  else
    '(c, p, n) ←
      (let m := size c - length in
       if bool_decide (m > 0) then
         hd ← slice.to p m;
         tl ← slice.from p m;
         Some (set_dict c (dict c ++ hd), tl, slice.len tl)
       else Some (c, p, n));
    if bool_decide (n >= size c) then
      src ← slice.from p (n - size c);
      Some (set_dict c (slice.copy (dict c) src), (total, None))
    else
      src ← slice.from (dict c) n;
      let d := slice.copy (dict c) src in
      dst ← slice.from d (size c - n);
      Some (set_dict c (take (Z.to_nat (size c - n)) d ++ slice.copy dst p),
            (total, None)).

(** A sequence of [Write] calls, one per payload. *)
Fixpoint slideWindow_Writes (c : slideWindow) (ps : list (list byte))
    : option slideWindow :=
  match ps with
  | [] => Some c
  | p :: ps => r ← slideWindow_Write c p; slideWindow_Writes r.1 ps
  end.

(** The windows a program can hold: the zero value, a window initialised
    with window bits whose power of two is an [int], and what [Write]
    makes of them. *)
Inductive slideWindow_reachable : slideWindow → Prop :=
  | reach_zero : slideWindow_reachable slideWindow_zero
  | reach_initialize c pool windowBits :
      0 <= windowBits < 63 →
      slideWindow_reachable c →
      slideWindow_reachable (slideWindow_initialize c pool windowBits)
  | reach_Write c p c' r :
      slideWindow_reachable c →
      slideWindow_Write c p = Some (c', r) →
      slideWindow_reachable c'.


(** ** PermessageDeflate and its negotiation *)

(** The negotiated parameters.  The struct is declared in a file that is
    not among the sources; its fields are those of the spec (3). *)
Record PermessageDeflate : Type := mkPermessageDeflate {
  Enabled : bool;
  ServerContextTakeover : bool;
  ClientContextTakeover : bool;
  ServerMaxWindowBits : Z;
  ClientMaxWindowBits : Z;
  Threshold : Z;
  Level : Z;
  PoolSize : Z
}.

Definition set_ServerContextTakeover (o : PermessageDeflate) (b : bool) :=
  mkPermessageDeflate (Enabled o) b (ClientContextTakeover o)
    (ServerMaxWindowBits o) (ClientMaxWindowBits o)
    (Threshold o) (Level o) (PoolSize o).

Definition set_ClientContextTakeover (o : PermessageDeflate) (b : bool) :=
  mkPermessageDeflate (Enabled o) (ServerContextTakeover o) b
    (ServerMaxWindowBits o) (ClientMaxWindowBits o)
    (Threshold o) (Level o) (PoolSize o).

Definition set_ServerMaxWindowBits (o : PermessageDeflate) (x : Z) :=
  mkPermessageDeflate (Enabled o) (ServerContextTakeover o)
    (ClientContextTakeover o) x (ClientMaxWindowBits o)
    (Threshold o) (Level o) (PoolSize o).

Definition set_ClientMaxWindowBits (o : PermessageDeflate) (x : Z) :=
  mkPermessageDeflate (Enabled o) (ServerContextTakeover o)
    (ClientContextTakeover o) (ServerMaxWindowBits o) x
    (Threshold o) (Level o) (PoolSize o).

(** [PermessageDeflate.genResponseHeader] *)
Definition genResponseHeader (c : PermessageDeflate) : string :=
  let options := [internal.PermessageDeflate] in
  let options :=
    if negb (ServerContextTakeover c)
    then options ++ [internal.ServerNoContextTakeover] else options in
  let options :=
    if negb (ClientContextTakeover c)
    then options ++ [internal.ClientNoContextTakeover] else options in
  let options :=
    if bool_decide (ServerMaxWindowBits c ≠ 15)
    then options ++ [internal.ServerMaxWindowBits +:+ internal.EQ
                       +:+ strconv.Itoa (ServerMaxWindowBits c)]
    else options in
  let options :=
    if bool_decide (ClientMaxWindowBits c ≠ 15)
    then options ++ [internal.ClientMaxWindowBits +:+ internal.EQ
                       +:+ strconv.Itoa (ClientMaxWindowBits c)]
    else options in
  strings.Join options "; ".

(** The body of the loop of [permessageNegotiation]: one token [s]. *)
Definition negotiate_token (options : PermessageDeflate) (s : string)
    : option PermessageDeflate :=
  let pair := strings.SplitN s "=" 2 in
  key ← pair !! 0%nat;
  if bool_decide (key = internal.PermessageDeflate) then Some options
  else if bool_decide (key = internal.ServerNoContextTakeover) then
    Some (set_ServerContextTakeover options false)
  else if bool_decide (key = internal.ClientNoContextTakeover) then
    Some (set_ClientContextTakeover options false)
  else if bool_decide (key = internal.ServerMaxWindowBits) then
    if bool_decide (slice.len pair = 2) then
      v ← pair !! 1%nat;
      let x := (strconv.Atoi v).1 in
      let x := internal.WithDefault x 15 in
      Some (set_ServerMaxWindowBits options
              (internal.Min (ServerMaxWindowBits options) x))
    else Some options
  else if bool_decide (key = internal.ClientMaxWindowBits) then
    if bool_decide (slice.len pair = 2) then
      v ← pair !! 1%nat;
      let x := (strconv.Atoi v).1 in
      let x := internal.WithDefault x 15 in
      Some (set_ClientMaxWindowBits options
              (internal.Min (ClientMaxWindowBits options) x))
    else Some options
  else Some options.

(** The loop [for _, s := range ss]. *)
Fixpoint negotiate_tokens (options : PermessageDeflate) (ss : list string)
    : option PermessageDeflate :=
  match ss with
  | [] => Some options
  | s :: ss => options ← negotiate_token options s; negotiate_tokens options ss
  end.

(** [permessageNegotiation] *)
Definition permessageNegotiation (str : string) : option PermessageDeflate :=
  let options :=
    {| Enabled := false;
       ServerContextTakeover := true;
       ClientContextTakeover := true;
       ServerMaxWindowBits := 15;
       ClientMaxWindowBits := 15;
       Threshold := 0; Level := 0; PoolSize := 0 |} in
  let ss := internal.Split str ";" in
  options ← negotiate_tokens options ss;
  let options :=
    set_ClientMaxWindowBits options
      (internal.SelectValue (bool_decide (ClientMaxWindowBits options < 8))
         8 (ClientMaxWindowBits options)) in
  let options :=
    set_ServerMaxWindowBits options
      (internal.SelectValue (bool_decide (ServerMaxWindowBits options < 8))
         8 (ServerMaxWindowBits options)) in
  Some options.

(** *** The negotiation as the spec words it *)

(** The name of a token: its text before the first [=]. *)
Definition token_name (s : string) : string :=
  match strings.Cut s "=" with
  | Some (k, _) => k
  | None => s
  end.

(** The value a token advertises for a parameter: the text after its
    first [=], when the token has that name and has a [=]. *)
Definition token_value (key : string) (s : string) : option string :=
  match strings.Cut s "=" with
  | Some (k, v) => if bool_decide (k = key) then Some v else None
  | None => None
  end.

(** The values a header advertises for a parameter, in order. *)
Definition advertised (key : string) (str : string) : list string :=
  omap (token_value key) (internal.Split str ";").

(** Window bits as the spec words them: the minimum of the default 15
    and every advertised number, raised to 8 when below. *)
Definition spec_window_bits (values : list Z) : Z :=
  Z.max 8 (foldr Z.min 15 values).

(** The number the negotiation reads from an advertised value: the
    [int] that [Atoi] returns for it, the error dropped, with 0 replaced
    by 15 as [internal.WithDefault] does.  [Atoi] returns 0 on a syntax
    error and the nearest bound of [int] on a range error. *)
Definition window_bits_read (v : string) : Z :=
  let x := (strconv.Atoi v).1 in if bool_decide (x = 0) then 15 else x.

(** [PermessageDeflate.genRequestHeader] *)
Definition genRequestHeader (c : PermessageDeflate) : string :=
  let options := [internal.PermessageDeflate] in
  let options :=
    if negb (ServerContextTakeover c)
    then options ++ [internal.ServerNoContextTakeover] else options in
  let options :=
    if negb (ClientContextTakeover c)
    then options ++ [internal.ClientNoContextTakeover] else options in
  let options :=
    if bool_decide (ServerMaxWindowBits c ≠ 15)
    then options ++ [internal.ServerMaxWindowBits +:+ internal.EQ
                       +:+ strconv.Itoa (ServerMaxWindowBits c)]
    else options in
  let options :=
    if bool_decide (ClientMaxWindowBits c ≠ 15)
    then options ++ [internal.ClientMaxWindowBits +:+ internal.EQ
                       +:+ strconv.Itoa (ClientMaxWindowBits c)]
    else if ClientContextTakeover c
    then options ++ [internal.ClientMaxWindowBits]
    else options in
  strings.Join options "; ".

(** ** Readers and the flate library *)

(** An [io.Reader] as the sequence of what its [Read] calls return: a
    call that returns [(len(p), nil)] and leaves a reader to go on with,
    or a call that returns [(len(p), err)] with a non-nil [err] ([io.EOF]
    at the end of the data), after which nobody reads on. *)
Inductive reader : Type :=
  | ReadErr (p : list byte) (err : error)
  | ReadOk (p : list byte) (next : reader).

(** All the bytes a reader serves. *)
Fixpoint reader_bytes (r : reader) : list byte :=
  match r with
  | ReadErr p _ => p
  | ReadOk p next => p ++ reader_bytes next
  end.

(** The error that ends a reader. *)
Fixpoint reader_err (r : reader) : error :=
  match r with
  | ReadErr _ err => err
  | ReadOk _ next => reader_err next
  end.

(** [io.CopyBuffer(dst, src, buf)] into a [bytes.Buffer] (which takes the
    copy over with its [ReadFrom]): every read is appended to [dst], up to
    and including the read that returns an error; [io.EOF] is no error of
    the copy.  The result is [dst] afterwards and the error. *)
Fixpoint io_CopyBuffer (dst : list byte) (src : reader)
    : list byte * option error :=
  match src with
  | ReadErr p err =>
      (dst ++ p, if bool_decide (err = io_EOF) then None else Some err)
  | ReadOk p next => io_CopyBuffer (dst ++ p) next
  end.

(** [binary.BigEndian.Uint32(b)]: panics on fewer than 4 bytes. *)
Definition BigEndian_Uint32 (b : list byte) : option Z :=
  match b with
  | b0 :: b1 :: b2 :: b3 :: _ =>
      let u (x : byte) := Z.of_N (Byte.to_N x) in
      Some (Z.lor (Z.lor (Z.lor (u b3) (Z.shiftl (u b2) 8))
                     (Z.shiftl (u b1) 16))
              (Z.shiftl (u b0) 24))
  | _ => None
  end.

(** [math.MaxUint16] *)
Definition MaxUint16 : Z := 65535.

(** The compressors [deflater.initialize] makes: [flate.NewWriter(nil,
    level)] and [flate.NewWriterWindow(nil, windowSize)]. *)
Inductive flate_Writer : Type :=
  | NewWriter (level : Z)
  | NewWriterWindow (windowSize : Z).

(** The flate library (klauspost/compress/flate), which is no part of the
    repository, as an interface.
    - [flate_Reset dict r]: what the inflate reader serves after
      [Reset(r, dict)], reading the stream [r].
    - [flate_Write w dict src]: the bytes the writer [w] sends to its
      destination when, after [ResetDict(dst, dict)], [src] is written to
      it, and the error of that write.
    - [flate_Flush w dict src]: the bytes and the error of the [Flush]
      that follows. *)
Class Flate : Type := {
  flate_Reset : list byte → list byte → reader;
  flate_Write : flate_Writer → list byte → list byte → list byte * option error;
  flate_Flush : flate_Writer → list byte → list byte → list byte * option error
}.

(** A stand-in library to run the definitions on: it stores the bytes as
    they are, and its flush writes the empty stored block. *)
Definition stored_Flate : Flate :=
  {| flate_Reset := λ _ r, ReadOk (take 2 r) (ReadErr (drop 2 r) io_EOF);
     flate_Write := λ _ _ src, (src, None);
     flate_Flush := λ _ _ _, ([Byte.x00; Byte.x00; Byte.xff; Byte.xff], None) |}.

(** ** limitedReader *)

(** [limitedReader.Read], call by call: the reads of the limited reader
    [{R: r, N: n, M: m}].  Each is a read of [r] whose bytes are added to
    [N]; when [N > M] afterwards, its error is [CloseMessageTooLarge] (and
    the caller stops reading). *)
Fixpoint limitedReader_Read (r : reader) (n m : Z) : reader :=
  match r with
  | ReadErr p err =>
      let n := n + slice.len p in
      if bool_decide (n > m) then ReadErr p internal.CloseMessageTooLarge
      else ReadErr p err
  | ReadOk p next =>
      let n := n + slice.len p in
      if bool_decide (n > m) then ReadErr p internal.CloseMessageTooLarge
      else ReadOk p (limitedReader_Read next n m)
  end.

(** [limitReader(r, limit)]: [N] starts at 0. *)
Definition limitReader (r : reader) (limit : Z) : reader :=
  limitedReader_Read r 0 limit.

(** ** deflater *)

(** [flateTail] *)
Definition flateTail : list byte :=
  [Byte.x00; Byte.x00; Byte.xff; Byte.xff; Byte.x01;
   Byte.x00; Byte.x00; Byte.xff; Byte.xff].

(** Modelled from the spec: [binaryPool] is not among the sources;
    [binaryPool.Get(n)] hands out a pooled buffer, which is empty. *)
Definition binaryPool_Get (n : Z) : list byte := [].

(** The state of a [deflater]: the limit, the staging buffer of the
    decompression side and the writer of the compression side.  The
    inflate reader is reset before every use and the scratch slice [buf]
    is only lent to the copy, so neither carries state. *)
Record deflater : Type := mkDeflater {
  limit : Z;
  dpsBuffer : list byte;
  cpsWriter : flate_Writer
}.

Definition set_dpsBuffer (c : deflater) (b : list byte) : deflater :=
  {| limit := limit c; dpsBuffer := b; cpsWriter := cpsWriter c |}.

(** [deflater.initialize], on a new deflater. *)
Definition deflater_initialize (isServer : bool) (options : PermessageDeflate)
    (limit : Z) : deflater :=
  let windowBits :=
    internal.SelectValue isServer
      (ServerMaxWindowBits options) (ClientMaxWindowBits options) in
  {| limit := limit;
     dpsBuffer := [];
     cpsWriter := if bool_decide (windowBits = 15)
                  then NewWriter (Level options)
                  else NewWriterWindow (internal.BinaryPow windowBits) |}.

Section WithFlate.
Context {flate : Flate}.

(** [deflater.resetFR]: the reader after the reset, and the deflater with
    its staging buffer emptied. *)
Definition deflater_resetFR (c : deflater) (r dict : list byte)
    : deflater * reader :=
  (set_dpsBuffer c [], flate_Reset dict r).

(** [deflater.Decompress]: the deflater afterwards and the pair
    [(buffer, err)] returned. *)
Definition deflater_Decompress (c : deflater) (src dict : list byte)
    : deflater * (option (list byte) * option error) :=
  let src := src ++ flateTail in
  let '(c, dpsReader) := deflater_resetFR c src dict in
  let reader := limitReader dpsReader (limit c) in
  let '(b, err) := io_CopyBuffer (dpsBuffer c) reader in
  let c := set_dpsBuffer c b in
  match err with
  | Some err => (c, (None, Some err))
  | None =>
      let dst := binaryPool_Get (slice.len (dpsBuffer c)) in
      (set_dpsBuffer c [], (Some (dst ++ dpsBuffer c), None))
  end.

(** [deflater.Compress]: the contents of [dst] afterwards and the error
    returned. *)
Definition deflater_Compress (c : deflater) (src dst dict : list byte)
    : list byte * option error :=
  let '(out, err) := flate_Write (cpsWriter c) dict src in
  let dst := dst ++ out in
  match err with
  | Some err => (dst, Some err)
  | None =>
      let '(out, err) := flate_Flush (cpsWriter c) dict src in
      let dst := dst ++ out in
      match err with
      | Some err => (dst, Some err)
      | None =>
          let n := slice.len dst in
          if bool_decide (n >= 4) then
            let compressedContent := dst in
            let tail := drop (Z.to_nat (n - 4)) compressedContent in
            if bool_decide (BigEndian_Uint32 tail = Some MaxUint16)
            then (take (Z.to_nat (n - 4)) dst, None)
            else (dst, None)
          else (dst, None)
      end
  end.

End WithFlate.

(** The output of a compression ends in the four bytes [00 00 FF FF]. *)
Definition ends_with_tail (b : list byte) : Prop :=
  ∃ pre, b = pre ++ [Byte.x00; Byte.x00; Byte.xff; Byte.xff].

(** ** deflaterPool *)

(** *** The deflaters of a pool

    The pool holds pointers, and [new(deflater)] makes an object that no
    pointer held before.  The deflaters a program has made are the
    entries of a heap; a [*deflater] is the position of its object
    there. *)
Abbreviation deflater_ptr := nat.
Abbreviation deflater_heap := (list deflater).

(** [new(deflater).initialize(isServer, options, limit)]: the pointer to
    the new object and the heap that holds it, initialised. *)
Definition new_deflater (h : deflater_heap) (isServer : bool)
    (options : PermessageDeflate) (limit : Z) : deflater_ptr * deflater_heap :=
  (length h, h ++ [deflater_initialize isServer options limit]).

Module deflaterPool.

Record t : Type := mk {
  serial : Z;
  num : Z;
  pool : list deflater_ptr
}.

(** The zero value, [new(deflaterPool)]. *)
Definition zero : t := {| serial := 0; num := 0; pool := [] |}.

Definition set_serial (c : t) (s : Z) : t :=
  {| serial := s; num := num c; pool := pool c |}.

(** The loop [for i := uint64(0); i < c.num; i++] of [initialize], with
    [rounds] rounds to go: each appends the pointer to a new deflater. *)
Fixpoint initialize_loop (rounds : nat) (options : PermessageDeflate)
    (limit : Z) (pool : list deflater_ptr) (h : deflater_heap)
    : list deflater_ptr * deflater_heap :=
  match rounds with
  | O => (pool, h)
  | S rounds =>
      let '(p, h) := new_deflater h true options limit in
      initialize_loop rounds options limit (pool ++ [p]) h
  end.

(** [deflaterPool.initialize]: [num] is [uint64(options.PoolSize)], and
    the loop makes that many rounds. *)
Definition initialize (c : t) (options : PermessageDeflate) (limit : Z)
    (h : deflater_heap) : t * deflater_heap :=
  let num := PoolSize options mod 2 ^ 64 in
  let '(pool, h) :=
    initialize_loop (Z.to_nat num) options limit (pool c) h in
  ({| serial := serial c; num := num; pool := pool |}, h).

(** The index [j] that [Select] computes: the incremented serial masked
    with [num - 1], in [uint64]. *)
Definition Select_index (c : t) : Z :=
  Z.land ((serial c + 1) mod 2 ^ 64) ((num c - 1) mod 2 ^ 64).

(** [deflaterPool.Select]: the pointer returned and the pool with its
    serial incremented; an index outside the pool panics. *)
Definition Select (c : t) : option (deflater_ptr * t) :=
  let j := Select_index c in
  d ← pool c !! Z.to_nat j;
  Some (d, set_serial c ((serial c + 1) mod 2 ^ 64)).


End deflaterPool.




(** ** ConcurrentMap (session_storage.go)

    The locks of the shards are not modelled: the operations are taken
    one at a time.  A Go map is a [gmap] here.  That is the Go map of a
    key type whose [==] is the identity: strings, integers, booleans,
    pointers, and the structs and arrays made of them.  The map of every
    comparable key type, floating-point keys with their NaN included, is
    [Module AnyKey] below, and [AnyKey.as_gmap] takes the one to the
    other. *)

Module ConcurrentMap.
Section WithHasher.
Context {K : Type} `{Countable K} {V : Type}.

(** The hasher of the map ([maphash.NewHasher], which is no part of the
    repository): [Hash] is a function of the key, fixed when the map is
    made, with values in [uint64]. *)
Variable hasher_Hash : K → Z.

(** [Map[K, V]]: the Go map inside a shard. *)
Definition NewMap (capacity : Z) : gmap K V := ∅.

(** [Map.Load]: [Some v] for [(v, true)], [None] for the zero value and
    [false]. *)
Definition Map_Load (m : gmap K V) (key : K) : option V := m !! key.

Definition Map_Delete (m : gmap K V) (key : K) : gmap K V := delete key m.

Definition Map_Store (m : gmap K V) (key : K) (value : V) : gmap K V :=
  <[key := value]> m.

Record t : Type := mk {
  num : Z;
  shardings : list (gmap K V)
}.

(** [NewConcurrentMap(size...)]: [size] is the list of the variadic
    arguments. *)
Definition NewConcurrentMap (size : list Z) : option t :=
  let size := size ++ [0; 0] in
  num ← size !! 0%nat;
  capacity ← size !! 1%nat;
  let num :=
    internal.ToBinaryNumber
      (internal.SelectValue (bool_decide (num <= 0)) 16 num) in
  Some {| num := num;
          shardings := replicate (Z.to_nat num) (NewMap capacity) |}.

(** The index [GetSharding] computes, in [uint64]. *)
Definition GetSharding_index (c : t) (key : K) : Z :=
  let hashCode := hasher_Hash key in
  Z.land hashCode ((num c - 1) mod 2 ^ 64).

(** [ConcurrentMap.GetSharding]: the shard of the key; an index outside
    [shardings] panics. *)
Definition GetSharding (c : t) (key : K) : option (gmap K V) :=
  shardings c !! Z.to_nat (GetSharding_index c key).

(** Writing back a shard that was changed in place. *)
Definition set_sharding (c : t) (key : K) (b : gmap K V) : t :=
  {| num := num c;
     shardings := <[Z.to_nat (GetSharding_index c key) := b]> (shardings c) |}.

(** [ConcurrentMap.Load] *)
Definition Load (c : t) (key : K) : option (option V) :=
  b ← GetSharding c key;
  Some (Map_Load b key).

(** [ConcurrentMap.Delete] *)
Definition Delete (c : t) (key : K) : option t :=
  b ← GetSharding c key;
  Some (set_sharding c key (Map_Delete b key)).

(** [ConcurrentMap.Store] *)
Definition Store (c : t) (key : K) (value : V) : option t :=
  b ← GetSharding c key;
  Some (set_sharding c key (Map_Store b key value)).

(** A map whose shard count is a power of two in [uint64] range and is
    the length of [shardings]. *)
Definition wf (c : t) : Prop :=
  ∃ k, 0 <= k <= 64 ∧ num c = 2 ^ k
       ∧ length (shardings c) = Z.to_nat (num c).

(** The shard count asked for: the first argument, and 16 when it is
    absent or zero. *)
Definition requested (size : list Z) : Z :=
  match size with
  | [] => 16
  | n :: _ => if bool_decide (n = 0) then 16 else n
  end.

(** The maps a program can hold: made by [NewConcurrentMap] with a shard
    count for which a power of two exists in [uint64], and changed by
    [Store] and [Delete]. *)
Inductive reachable (size : list Z) : t → Prop :=
  | reach_New c :
      Forall (λ n, 0 <= n <= 2 ^ 63) size →
      NewConcurrentMap size = Some c →
      reachable size c
  | reach_Store c key value c' :
      reachable size c → Store c key value = Some c' → reachable size c'
  | reach_Delete c key c' :
      reachable size c → Delete c key = Some c' → reachable size c'.

(** [Map.Len] *)
Definition Map_Len (m : gmap K V) : Z := Z.of_nat (base.size m).

(** The loop [for k, v := range m { if !f(k, v) { return } }] on the
    entries in the order of one run.  The function [f] of the caller is a
    function of the key, the value and the state it works on; it returns
    whether to go on, and the state. *)
Fixpoint Range_entries {St : Type} (entries : list (K * V))
    (f : K → V → St → bool * St) (s : St) : St :=
  match entries with
  | [] => s
  | (k, v) :: entries =>
      let '(next, s) := f k v s in
      if next then Range_entries entries f s else s
  end.

(** [Map.Range].  Go leaves the order of a [range] over a map open:
    [order m] is the order of this run, a permutation of the entries of
    [m]. *)
Definition Map_Range {St : Type} (order : gmap K V → list (K * V))
    (m : gmap K V) (f : K → V → St → bool * St) (s : St) : St :=
  Range_entries (order m) f s.

(** [ConcurrentMap.Len] *)
Definition Len (c : t) : Z :=
  foldl (λ length b, length + Map_Len b) 0 (shardings c).

(** The closure [cb] of [ConcurrentMap.Range]: it calls [f], keeps what
    [f] returns in the variable [next], and returns it. *)
Definition Range_cb {St : Type} (f : K → V → St → bool * St)
    (k : K) (v : V) (st : bool * St) : bool * (bool * St) :=
  let '(next, s) := f k v st.2 in (next, (next, s)).

(** The loop [for i := uint64(0); i < c.num && next; i++] of
    [ConcurrentMap.Range], from [i] on.  It makes at most [num - i]
    rounds, which [rounds] counts down.  [order i] is the order in which
    this run ranges over shard [i]. *)
Fixpoint Range_loop {St : Type} (order : nat → gmap K V → list (K * V))
    (c : t) (f : K → V → St → bool * St) (rounds : nat) (i : Z)
    (st : bool * St) : option (bool * St) :=
  match rounds with
  | O => Some st
  | S rounds =>
      if bool_decide (i < num c) && st.1 then
        b ← shardings c !! Z.to_nat i;
        Range_loop order c f rounds (i + 1)
          (Map_Range (order (Z.to_nat i)) b (Range_cb f) st)
      else Some st
  end.

(** [ConcurrentMap.Range]: the state [f] is left in. *)
Definition Range {St : Type} (order : nat → gmap K V → list (K * V))
    (c : t) (f : K → V → St → bool * St) (s : St) : option St :=
  snd <$> Range_loop order c f (Z.to_nat (num c)) 0 (true, s).

(** All the entries of the map as one Go map: the union of the shards. *)
Definition flatten (c : t) : gmap K V := ⋃ (shardings c).

(** Every key that a shard holds is routed to that shard. *)
Definition routed (c : t) : Prop :=
  ∀ i b key,
    shardings c !! i = Some b → is_Some (b !! key) →
    Z.to_nat (GetSharding_index c key) = i.

(** The entries a run of [Range] goes through, shard by shard. *)
Definition Range_order (order : nat → gmap K V → list (K * V)) (c : t)
    : list (K * V) :=
  concat (imap order (shardings c)).

End WithHasher.
End ConcurrentMap.

(** ** smap and SessionStorage (session_storage.go)

    The mutex of [smap] is not modelled: the operations are taken one at
    a time. *)

Module smap.
Section WithValue.
Context {V : Type}.

Record t : Type := mk {
  data : gmap string V
}.

(** [newSmap] *)
Definition newSmap : t := {| data := ∅ |}.

(** [smap.Len] *)
Definition Len (c : t) : Z := Z.of_nat (base.size (data c)).

(** [smap.Load]: [Some v] for [(v, true)], [None] for [(nil, false)]. *)
Definition Load (c : t) (key : string) : option V := data c !! key.

(** [smap.Delete] *)
Definition Delete (c : t) (key : string) : t :=
  {| data := delete key (data c) |}.

(** [smap.Store] *)
Definition Store (c : t) (key : string) (value : V) : t :=
  {| data := <[key := value]> (data c) |}.

(** [smap.Range]: the loop of [Map.Range], over [data] in the order of
    this run. *)
Definition Range {St : Type} (order : gmap string V → list (string * V))
    (c : t) (f : string → V → St → bool * St) (s : St) : St :=
  ConcurrentMap.Range_entries (order (data c)) f s.

End WithValue.
End smap.

(** The calls of the interface [SessionStorage] that change a storage. *)
Inductive SessionStorage_call (V : Type) : Type :=
  | call_Store (key : string) (value : V)
  | call_Delete (key : string).
Arguments call_Store {V} key value.
Arguments call_Delete {V} key.

(** A sequence of calls on a [smap]. *)
Definition smap_calls {V : Type} (c : smap.t) (calls : list (SessionStorage_call V))
    : smap.t :=
  foldl (λ c call,
           match call with
           | call_Store key value => smap.Store c key value
           | call_Delete key => smap.Delete c key
           end) c calls.

(** The same sequence of calls on a [ConcurrentMap] with string keys; a
    call that panics ends it. *)
Fixpoint ConcurrentMap_calls {V : Type} (hasher_Hash : string → Z)
    (c : ConcurrentMap.t) (calls : list (SessionStorage_call V))
    : option ConcurrentMap.t :=
  match calls with
  | [] => Some c
  | call_Store key value :: calls =>
      c ← ConcurrentMap.Store hasher_Hash c key value;
      ConcurrentMap_calls hasher_Hash c calls
  | call_Delete key :: calls =>
      c ← ConcurrentMap.Delete hasher_Hash c key;
      ConcurrentMap_calls hasher_Hash c calls
  end.

(** ** Notions for the properties of generated headers *)

(** A byte of a token: no white space, no byte of a multi-byte
    character, and not the separator [;]. *)
Definition token_byte (c : ascii) : bool :=
  (strings.code c <? 128)%N && negb (strings.space1 c) && negb (Ascii.eqb c ";").

(** A text that can stand as a token: not empty and made of such bytes. *)
Definition token_text (t : string) : bool :=
  forallb token_byte (String.list_ascii_of_string t) && negb (String.eqb t "").

(** What the negotiation makes of window bits that a header advertises
    as a number: 0 counts as 15, every other number is brought into
    [8,15]. *)
Definition negotiated_bits (x : Z) : Z :=
  if bool_decide (x = 0) then 15 else Z.max 8 (Z.min 15 x).

(** ** ConcurrentMap for every comparable key type (session_storage.go)

    [ConcurrentMap[K comparable, V any]] takes every comparable key
    type, and Go's [==] on such a type need not be the identity: a
    floating-point NaN differs from itself, and the zeros [+0] and [-0]
    are equal.  Here the key type comes with its [==], of which nothing
    is assumed at first, and a Go map is the list of its entries, looked
    up with [==].  For a key type whose [==] is the identity, this is the
    map of [Module ConcurrentMap] above, entry for entry.

    The locks are not modelled.  The hasher is a function of the key;
    for a key that differs from itself Go's hash is random, and what is
    proved below of such a key does not depend on the shard it goes
    to. *)

Module AnyKey.
Section WithHasher.
Context {K V : Type}.

(** [k1 == k2] on the key type. *)
Variable Keq : K → K → bool.

(** [hasher.Hash(key)], in [uint64]. *)
Variable hasher_Hash : K → Z.

(** [NewMap]: [make(map[K]V, capacity)]. *)
Definition NewMap (capacity : Z) : list (K * V) := [].

(** [Map.Len]: [len(c.m)]. *)
Definition Map_Len (m : list (K * V)) : Z := Z.of_nat (length m).

(** [Map.Load]: [c.m[key]], the value of the entry whose key equals
    [key]; [None] for the zero value and [false]. *)
Fixpoint Map_Load (m : list (K * V)) (key : K) : option V :=
  match m with
  | [] => None
  | (k, v) :: m => if Keq k key then Some v else Map_Load m key
  end.

(** [Map.Delete]: [delete(c.m, key)] removes the entry whose key equals
    [key]. *)
Fixpoint Map_Delete (m : list (K * V)) (key : K) : list (K * V) :=
  match m with
  | [] => []
  | (k, v) :: m =>
      if Keq k key then Map_Delete m key else (k, v) :: Map_Delete m key
  end.

(** [Map.Store]: [c.m[key] = value] gives the entry whose key equals
    [key] the value, and keeps the key it has; without such an entry it
    adds one. *)
Fixpoint Map_Store (m : list (K * V)) (key : K) (value : V) : list (K * V) :=
  match m with
  | [] => [(key, value)]
  | (k, v) :: m =>
      if Keq k key then (k, value) :: m else (k, v) :: Map_Store m key value
  end.

(** [Map.Range]: [order m] is the order in which this run ranges over
    the entries of [m], a permutation of them. *)
Definition Map_Range {St : Type} (order : list (K * V) → list (K * V))
    (m : list (K * V)) (f : K → V → St → bool * St) (s : St) : St :=
  ConcurrentMap.Range_entries (order m) f s.

Record t : Type := mk {
  num : Z;
  shardings : list (list (K * V))
}.

(** [NewConcurrentMap(size...)]: [size] is the list of the variadic
    arguments. *)
Definition NewConcurrentMap (size : list Z) : option t :=
  let size := size ++ [0; 0] in
  num ← size !! 0%nat;
  capacity ← size !! 1%nat;
  let num :=
    internal.ToBinaryNumber
      (internal.SelectValue (bool_decide (num <= 0)) 16 num) in
  Some {| num := num;
          shardings := replicate (Z.to_nat num) (NewMap capacity) |}.

(** The index [GetSharding] computes, in [uint64]. *)
Definition GetSharding_index (c : t) (key : K) : Z :=
  let hashCode := hasher_Hash key in
  Z.land hashCode ((num c - 1) mod 2 ^ 64).

(** [ConcurrentMap.GetSharding]: the shard of the key; an index outside
    [shardings] panics. *)
Definition GetSharding (c : t) (key : K) : option (list (K * V)) :=
  shardings c !! Z.to_nat (GetSharding_index c key).

(** Writing back a shard that was changed in place. *)
Definition set_sharding (c : t) (key : K) (b : list (K * V)) : t :=
  {| num := num c;
     shardings := <[Z.to_nat (GetSharding_index c key) := b]> (shardings c) |}.

(** [ConcurrentMap.Len] *)
Definition Len (c : t) : Z :=
  foldl (λ length b, length + Map_Len b) 0 (shardings c).

(** [ConcurrentMap.Load] *)
Definition Load (c : t) (key : K) : option (option V) :=
  b ← GetSharding c key;
  Some (Map_Load b key).

(** [ConcurrentMap.Delete] *)
Definition Delete (c : t) (key : K) : option t :=
  b ← GetSharding c key;
  Some (set_sharding c key (Map_Delete b key)).

(** [ConcurrentMap.Store] *)
Definition Store (c : t) (key : K) (value : V) : option t :=
  b ← GetSharding c key;
  Some (set_sharding c key (Map_Store b key value)).

(** The loop [for i := uint64(0); i < c.num && next; i++] of
    [ConcurrentMap.Range], from [i] on, with the closure [cb] of
    [ConcurrentMap.Range_cb].  It makes at most [num - i] rounds, which
    [rounds] counts down.  [order i] is the order in which this run
    ranges over shard [i]. *)
Fixpoint Range_loop {St : Type} (order : nat → list (K * V) → list (K * V))
    (c : t) (f : K → V → St → bool * St) (rounds : nat) (i : Z)
    (st : bool * St) : option (bool * St) :=
  match rounds with
  | O => Some st
  | S rounds =>
      if bool_decide (i < num c) && st.1 then
        b ← shardings c !! Z.to_nat i;
        Range_loop order c f rounds (i + 1)
          (Map_Range (order (Z.to_nat i)) b (ConcurrentMap.Range_cb f) st)
      else Some st
  end.

(** [ConcurrentMap.Range]: the state [f] is left in. *)
Definition Range {St : Type} (order : nat → list (K * V) → list (K * V))
    (c : t) (f : K → V → St → bool * St) (s : St) : option St :=
  snd <$> Range_loop order c f (Z.to_nat (num c)) 0 (true, s).

(** A map whose shard count is a power of two in [uint64] range and is
    the length of [shardings]. *)
Definition wf (c : t) : Prop :=
  ∃ k, 0 <= k <= 64 ∧ num c = 2 ^ k
       ∧ length (shardings c) = Z.to_nat (num c).

(** The maps a program can hold: made by [NewConcurrentMap] with a shard
    count for which a power of two exists in [uint64], and changed by
    [Store] and [Delete]. *)
Inductive reachable (size : list Z) : t → Prop :=
  | reach_New c :
      Forall (λ n, 0 <= n <= 2 ^ 63) size →
      NewConcurrentMap size = Some c →
      reachable size c
  | reach_Store c key value c' :
      reachable size c → Store c key value = Some c' → reachable size c'
  | reach_Delete c key c' :
      reachable size c → Delete c key = Some c' → reachable size c'.

End WithHasher.

(** The same map with every shard as a [gmap]: what [Module
    ConcurrentMap] holds when [==] is the identity on the keys. *)
Definition as_gmap {K : Type} `{Countable K} {V : Type} (c : @t K V)
    : @ConcurrentMap.t K _ _ V :=
  ConcurrentMap.mk (num c) (list_to_map <$> shardings c).

End AnyKey.

(** A key type with a value that differs from itself, as [float64] has
    with NaN; the numbers are integers here. *)
Inductive float_key : Type :=
  | float_num (x : Z)
  | float_NaN.

(** [==] on these keys: NaN equals nothing. *)
Definition float_key_eq (a b : float_key) : bool :=
  match a, b with
  | float_num x, float_num y => bool_decide (x = y)
  | _, _ => false
  end.

Definition float_key_hash (a : float_key) : Z :=
  match a with
  | float_num x => x mod 2 ^ 64
  | float_NaN => 0
  end.
(* ===================================================================== *)
(** * Properties *)
(* ===================================================================== *)

Section SliceFacts.
Context {A : Type}.
Implicit Types s p : list A.

Lemma len_nonneg s : 0 <= slice.len s.
Proof. unfold slice.len. lia. Qed.

Lemma len_app s p : slice.len (s ++ p) = slice.len s + slice.len p.
Proof. unfold slice.len. rewrite length_app. lia. Qed.

Lemma last_n_all k s : slice.len s <= k → slice.last_n k s = s.
Proof.
  unfold slice.last_n, slice.len. intros H.
  replace (length s - Z.to_nat k)%nat with 0%nat by lia. done.
Qed.

Lemma last_n_length k s :
  0 <= k <= slice.len s → slice.len (slice.last_n k s) = k.
Proof.
  unfold slice.last_n, slice.len. intros H. rewrite length_drop. lia.
Qed.

Lemma last_n_app k s p :
  k <= slice.len p → slice.last_n k (s ++ p) = slice.last_n k p.
Proof.
  unfold slice.last_n, slice.len. intros H.
  rewrite length_app, drop_app.
  destruct (decide (0 <= k)) as [Hk|Hk].
  - replace (length s + length p - Z.to_nat k - length s)%nat
      with (length p - Z.to_nat k)%nat by lia.
    rewrite drop_ge by lia. done.
  - replace (Z.to_nat k) with 0%nat by lia.
    rewrite !drop_ge by lia. done.
Qed.

(** Keeping the last [k] of a window that already is the last [k] of a
    longer history. *)
Lemma last_n_app_last_n k s p :
  0 <= k →
  slice.last_n k (slice.last_n k s ++ p) = slice.last_n k (s ++ p).
Proof.
  intros Hk. unfold slice.last_n.
  rewrite !length_app, length_drop, !drop_app, length_drop, drop_drop.
  f_equal; [f_equal; lia | f_equal; lia].
Qed.
End SliceFacts.

Section CopyFacts.
Context {A : Type}.
Implicit Types dst src : list A.

Lemma copy_full dst src :
  (length dst <= length src)%nat → slice.copy dst src = take (length dst) src.
Proof.
  intros H. unfold slice.copy. rewrite (drop_ge dst) by lia. apply app_nil_r.
Qed.

Lemma copy_prefix dst src :
  (length src <= length dst)%nat →
  slice.copy dst src = src ++ drop (length src) dst.
Proof. intros H. unfold slice.copy. rewrite take_ge by lia. done. Qed.

Lemma copy_same_length dst src :
  length dst = length src → slice.copy dst src = src.
Proof.
  intros H. rewrite copy_full by lia. rewrite take_ge by lia. done.
Qed.

Lemma slice_from_Some (s : list A) lo :
  0 <= lo <= slice.len s → slice.from s lo = Some (drop (Z.to_nat lo) s).
Proof. intros H. unfold slice.from. rewrite bool_decide_eq_true_2; done. Qed.

Lemma slice_to_Some (s : list A) hi :
  0 <= hi <= slice.len s → slice.to s hi = Some (take (Z.to_nat hi) s).
Proof. intros H. unfold slice.to. rewrite bool_decide_eq_true_2; done. Qed.
End CopyFacts.

(** ** The sliding window *)

(** What one [Write] does to a window that is not over-full: the new
    contents are the last [size] bytes of the old contents followed by the
    payload. *)
Lemma slideWindow_Write_enabled c p :
  enabled c = true →
  slice.len (dict c) <= size c →
  slideWindow_Write c p =
    Some (set_dict c (slice.last_n (size c) (dict c ++ p)), (slice.len p, None)).
Proof.
  destruct c as [en d k]. simpl. intros -> Hd.
  unfold slideWindow_Write. simpl.
  pose proof (len_nonneg d) as Hd0. pose proof (len_nonneg p) as Hp0.
  case_bool_decide as Hfit.
  { rewrite last_n_all by (rewrite len_app; lia). done. }
  assert (Hlen : slice.len d = Z.of_nat (length d)) by done.
  assert (Hlenp : slice.len p = Z.of_nat (length p)) by done.
  case_bool_decide as Hm.
  - (* the window is filled up first *)
    rewrite slice_to_Some, slice_from_Some by lia. simpl.
    set (m := Z.to_nat (k - slice.len d)).
    assert (Hmp : (m <= length p)%nat) by (unfold m; lia).
    assert (Hfull : length (d ++ take m p) = Z.to_nat k).
    { rewrite length_app, length_take. unfold m. lia. }
    assert (Hrest : slice.len (drop m p) = slice.len p - (k - slice.len d)).
    { unfold slice.len. rewrite length_drop. unfold m. lia. }
    case_bool_decide as Hbig.
    + rewrite slice_from_Some by lia. simpl.
      rewrite copy_full by (rewrite Hfull, !length_drop; unfold slice.len in *; lia).
      do 3 f_equal. rewrite Hfull. unfold slice.last_n.
      rewrite drop_drop, length_app, drop_app.
      rewrite (drop_ge d) by lia. simpl.
      rewrite take_ge.
      * f_equal. unfold slice.len in *. rewrite length_drop in Hbig |- *. lia.
      * rewrite length_drop. unfold slice.len in *. rewrite length_drop in *. lia.
    + rewrite slice_from_Some by (unfold slice.len in *; lia). simpl.
      set (n := Z.to_nat (slice.len (drop m p))).
      assert (Hn : n = length (drop m p)) by (unfold n, slice.len; lia).
      assert (Hnk : (n < Z.to_nat k)%nat) by (unfold n; lia).
      rewrite (copy_prefix (d ++ take m p)) by (rewrite length_drop; lia).
      rewrite length_drop, Hfull.
      rewrite slice_from_Some.
      2:{ unfold slice.len. rewrite length_app, !length_drop, Hfull.
          unfold slice.len in *. lia. }
      simpl.
      replace (Z.to_nat (k - slice.len (drop m p))) with (Z.to_nat k - n)%nat
        by (unfold n; lia).
      rewrite take_app_length' by (rewrite length_drop; lia).
      rewrite (drop_app_length' (drop n (d ++ take m p)))
        by (rewrite length_drop; lia).
      rewrite copy_same_length by (rewrite !length_drop; lia).
      do 3 f_equal. unfold slice.last_n.
      replace (d ++ p) with ((d ++ take m p) ++ drop m p)
        by (rewrite <- app_assoc, take_drop; done).
      set (l := d ++ take m p) in *.
      rewrite length_app, Hfull, <- Hn, drop_app, Hfull.
      replace (Z.to_nat k + n - Z.to_nat k)%nat with n by lia.
      replace (n - Z.to_nat k)%nat with 0%nat by lia. done.
  - (* the window is full already *)
    assert (Hk : length d = Z.to_nat k) by lia. simpl.
    case_bool_decide as Hbig.
    + rewrite slice_from_Some by lia. simpl.
      rewrite copy_full by (rewrite length_drop; lia).
      do 3 f_equal. unfold slice.last_n.
      rewrite length_app, drop_app, (drop_ge d) by lia. simpl.
      rewrite take_ge by (rewrite length_drop; lia).
      f_equal. lia.
    + rewrite slice_from_Some by lia. simpl.
      set (n := Z.to_nat (slice.len p)).
      assert (Hn : n = length p) by (unfold n; lia).
      rewrite copy_prefix by (rewrite length_drop; lia).
      rewrite length_drop.
      rewrite slice_from_Some.
      2:{ unfold slice.len. rewrite length_app, !length_drop. lia. }
      simpl.
      replace (Z.to_nat (k - slice.len p)) with (length d - n)%nat by lia.
      rewrite take_app_length' by (rewrite length_drop; lia).
      rewrite (drop_app_length' (drop n d)) by (rewrite length_drop; lia).
      rewrite copy_same_length by (rewrite !length_drop; lia).
      do 3 f_equal. unfold slice.last_n.
      rewrite length_app, drop_app.
      replace (length d + length p - Z.to_nat k)%nat with n by lia.
      replace (n - length d)%nat with 0%nat by lia. done.
Qed.

Lemma slideWindow_Write_disabled c p :
  enabled c = false → slideWindow_Write c p = Some (c, (0, None)).
Proof. intros H. unfold slideWindow_Write. rewrite H. done. Qed.

Lemma BinaryPow_nonneg n : 0 <= internal.BinaryPow n.
Proof. unfold internal.BinaryPow. apply Z.pow_nonneg. lia. Qed.

(** The window is never longer than its capacity. *)
Lemma slideWindow_reachable_bounded c :
  slideWindow_reachable c → slice.len (dict c) <= size c.
Proof.
  induction 1 as [|c pool wb _ _ _|c p c' r _ IH Hw].
  - done.
  - simpl. pose proof (BinaryPow_nonneg wb).
    destruct pool; unfold slice.len; simpl; lia.
  - destruct (enabled c) eqn:Hen.
    + rewrite slideWindow_Write_enabled in Hw by done.
      injection Hw as <- _. simpl.
      pose proof (len_nonneg (dict c)) as Hd.
      destruct (decide (slice.len (dict c ++ p) <= size c)) as [Hs|Hs].
      * rewrite last_n_all by done. done.
      * rewrite last_n_length by lia. lia.
    + rewrite slideWindow_Write_disabled in Hw by done.
      injection Hw as <- _. done.
Qed.

(** A run of writes on an enabled window keeps the last [size] bytes of
    what it held followed by everything written. *)
Lemma slideWindow_Writes_enabled ps : ∀ c,
  enabled c = true →
  slice.len (dict c) <= size c →
  slideWindow_Writes c ps =
    Some (set_dict c (slice.last_n (size c) (dict c ++ concat ps))).
Proof.
  induction ps as [|p ps IH]; intros c Hen Hd.
  - simpl. rewrite app_nil_r, last_n_all by done. by destruct c.
  - simpl. rewrite slideWindow_Write_enabled by done. simpl.
    pose proof (len_nonneg (dict c)) as Hd0.
    rewrite IH; simpl; [|done|].
    + rewrite last_n_app_last_n by lia. by rewrite app_assoc.
    + destruct (decide (slice.len (dict c ++ p) <= size c)) as [Hs|Hs].
      * rewrite last_n_all by done. done.
      * rewrite last_n_length by lia. lia.
Qed.

(** An enabled window was initialised: its capacity is a power of two. *)
Lemma slideWindow_reachable_size c :
  slideWindow_reachable c → enabled c = true →
  ∃ windowBits, 0 <= windowBits < 63 ∧ size c = 2 ^ windowBits.
Proof.
  induction 1 as [|c pool wb Hwb _ _|c p c' r Hr IH Hw]; intros Hen.
  - done.
  - exists wb. done.
  - destruct (enabled c) eqn:Hc.
    + rewrite slideWindow_Write_enabled in Hw
        by (done || by apply slideWindow_reachable_bounded).
      injection Hw as <- _. by apply IH.
    + rewrite slideWindow_Write_disabled in Hw by done.
      injection Hw as <- _. congruence.
Qed.

(** C1. An enabled window, of capacity [C = 2^windowBits], that is
    written payloads of total length [L >= C] holds exactly the last [C]
    bytes of the concatenation of the payloads, in order. *)
Theorem slideWindow_holds_last_bytes c ps :
  slideWindow_reachable c →
  enabled c = true →
  size c <= slice.len (concat ps) →
  (∃ windowBits, 0 <= windowBits < 63 ∧ size c = 2 ^ windowBits)
  ∧ ∃ c', slideWindow_Writes c ps = Some c'
          ∧ size c' = size c
          ∧ dict c' = slice.last_n (size c) (concat ps)
          ∧ slice.len (dict c') = size c.
Proof.
  intros Hr Hen HL. split; [by apply slideWindow_reachable_size|].
  pose proof (slideWindow_reachable_bounded c Hr) as Hb.
  pose proof (len_nonneg (dict c)) as Hd.
  eexists. split; [by apply slideWindow_Writes_enabled|]. simpl.
  rewrite last_n_app by done. split; [done|]. split; [done|].
  apply last_n_length. lia.
Qed.

Lemma slideWindow_holds_last_bytes_witness :
  let c := slideWindow_initialize slideWindow_zero None 2 in
  let ps := [[Byte.x01; Byte.x02; Byte.x03]; [Byte.x04; Byte.x05; Byte.x06]] in
  slideWindow_reachable c
  ∧ enabled c = true
  ∧ size c <= slice.len (concat ps)
  ∧ ∃ c', slideWindow_Writes c ps = Some c'
          ∧ dict c' = [Byte.x03; Byte.x04; Byte.x05; Byte.x06].
Proof.
  intros c ps.
  assert (Hr : slideWindow_reachable c)
    by (apply reach_initialize; [lia | apply reach_zero]).
  assert (HL : size c <= slice.len (concat ps)) by (vm_compute; discriminate).
  split; [exact Hr|]. split; [reflexivity|]. split; [exact HL|].
  destruct (slideWindow_holds_last_bytes c ps Hr eq_refl HL)
    as (_ & c' & Hw & _ & Hd & _).
  exists c'. split; [exact Hw|]. rewrite Hd. reflexivity.
Defined.

(** C8. In every window a program can reach, [dict] is no longer than
    [size], and [Write] does not fail: it returns [(len(p), nil)] on an
    enabled window and [(0, nil)] on a disabled one. *)
Theorem slideWindow_Write_never_fails c :
  slideWindow_reachable c →
  slice.len (dict c) <= size c
  ∧ ∀ p, ∃ c',
      slideWindow_Write c p =
        Some (c', (if enabled c then slice.len p else 0, None))
      ∧ slice.len (dict c') <= size c'.
Proof.
  intros Hr. pose proof (slideWindow_reachable_bounded c Hr) as Hb.
  split; [done|]. intros p.
  destruct (enabled c) eqn:Hen.
  - eexists. split; [apply slideWindow_Write_enabled; done|].
    eapply slideWindow_reachable_bounded, reach_Write; [exact Hr|].
    apply slideWindow_Write_enabled; done.
  - exists c. split; [apply slideWindow_Write_disabled; done | done].
Qed.

Lemma slideWindow_Write_never_fails_witness :
  slideWindow_reachable (slideWindow_initialize slideWindow_zero None 1)
  ∧ ∃ c',
      slideWindow_Write (slideWindow_initialize slideWindow_zero None 1)
        [Byte.x61; Byte.x62; Byte.x63]
      = Some (c', (3, None))
      ∧ slice.len (dict c') <= size c'.
Proof.
  assert (Hr : slideWindow_reachable
                 (slideWindow_initialize slideWindow_zero None 1))
    by (apply reach_initialize; [lia | apply reach_zero]).
  split; [exact Hr|].
  apply (slideWindow_Write_never_fails
           (slideWindow_initialize slideWindow_zero None 1) Hr).
Defined.

(** ** The definitions on concrete inputs *)

Example slideWindow_Write_shift :
  dict <$> slideWindow_Writes (slideWindow_initialize slideWindow_zero None 2)
             [[Byte.x01; Byte.x02; Byte.x03]; [Byte.x04; Byte.x05]]
  = Some [Byte.x02; Byte.x03; Byte.x04; Byte.x05].
Proof. reflexivity. Qed.

Example slideWindow_Write_long_payload :
  dict <$> slideWindow_Writes (slideWindow_initialize slideWindow_zero None 1)
             [[Byte.x01]; [Byte.x02; Byte.x03; Byte.x04; Byte.x05]]
  = Some [Byte.x04; Byte.x05].
Proof. reflexivity. Qed.

Example slideWindow_Write_zero_value :
  slideWindow_Write slideWindow_zero [Byte.x01; Byte.x02]
  = Some (slideWindow_zero, (0, None)).
Proof. reflexivity. Qed.

Example internal_Split_tokens :
  internal.Split " permessage-deflate; server_max_window_bits=10;; " ";"
  = ["permessage-deflate"; "server_max_window_bits=10"].
Proof. reflexivity. Qed.

Example strconv_Atoi_values :
  strconv.Atoi "12" = (12, None)
  ∧ strconv.Atoi "-3" = (-3, None)
  ∧ strconv.Atoi "+7" = (7, None)
  ∧ strconv.Atoi "" = (0, Some strconv_ErrSyntax)
  ∧ strconv.Atoi "1x" = (0, Some strconv_ErrSyntax)
  ∧ strconv.Atoi "9223372036854775808"
    = (9223372036854775807, Some strconv_ErrRange)
  ∧ strconv.Atoi "-9223372036854775808" = (-9223372036854775808, None)
  ∧ strconv.Atoi "-99999999999999999999"
    = (-9223372036854775808, Some strconv_ErrRange)
  ∧ strconv.Atoi "-99999999999999999999x"
    = (-9223372036854775808, Some strconv_ErrRange)
  ∧ strconv.Atoi "-9223372036854775809x" = (0, Some strconv_ErrSyntax).
Proof. repeat split; reflexivity. Qed.

Example genResponseHeader_text :
  genResponseHeader (mkPermessageDeflate true true false 10 15 512 1 64)
  = "permessage-deflate; client_no_context_takeover; server_max_window_bits=10".
Proof. reflexivity. Qed.

Example permessageNegotiation_clamps :
  permessageNegotiation
    "permessage-deflate; client_max_window_bits=3; server_max_window_bits=12; server_max_window_bits=99; client_no_context_takeover"
  = Some (mkPermessageDeflate false true false 12 8 0 0 0).
Proof. reflexivity. Qed.

Example permessageNegotiation_out_of_range :
  ServerMaxWindowBits <$>
    permessageNegotiation
      "permessage-deflate; server_max_window_bits=-99999999999999999999"
  = Some 8
  ∧ ServerMaxWindowBits <$>
      permessageNegotiation
        "permessage-deflate; server_max_window_bits=-99999999999999999999x"
    = Some 8
  ∧ ServerMaxWindowBits <$>
      permessageNegotiation "permessage-deflate; server_max_window_bits=x"
    = Some 15.
Proof. repeat split; reflexivity. Qed.

Example limitReader_cuts :
  io_CopyBuffer []
    (limitReader (ReadOk [Byte.x01; Byte.x02]
                    (ReadOk [Byte.x03; Byte.x04] (ReadErr [] io_EOF))) 3)
  = ([Byte.x01; Byte.x02; Byte.x03; Byte.x04],
     Some internal.CloseMessageTooLarge).
Proof. reflexivity. Qed.

Example ToBinaryNumber_values :
  internal.ToBinaryNumber <$> [0; 1; 2; 3; 8; 13; 16; 17]
  = [1; 1; 2; 4; 8; 16; 16; 32].
Proof. reflexivity. Qed.

(** ** strconv *)

Lemma digit_range c d : strconv.digit c = Some d → 0 <= d <= 9.
Proof.
  unfold strconv.digit.
  destruct (_ && _)%bool eqn:Hc; [|done]. intros [= <-].
  apply andb_true_iff in Hc as [H1 H2].
  apply N.leb_le in H1. apply N.leb_le in H2. lia.
Qed.

Lemma digits_ge s : ∀ a v, 0 <= a → strconv.digits s a = Some v → a <= v.
Proof.
  induction s as [|c s IH]; intros a v Ha; simpl.
  - intros [= <-]. lia.
  - destruct (strconv.digit c) as [d|] eqn:Hd; [|done]. simpl.
    pose proof (digit_range c d Hd). intros Hv.
    apply IH in Hv; lia.
Qed.

(** On digits whose number fits [uint64] the loop of [ParseUint] gives
    that number. *)
Lemma ParseUint_loop_digits s : ∀ n v,
  0 <= n → strconv.digits s n = Some v → v <= strconv.maxUint64 →
  strconv.ParseUint_loop s n = (v, None).
Proof.
  induction s as [|c s IH]; intros n v Hn; simpl.
  - by intros [= <-].
  - destruct (strconv.digit c) as [d|] eqn:Hd; [|done]. simpl.
    pose proof (digit_range c d Hd) as Hdr. intros Hv Hmax.
    assert (Hge : n * 10 + d <= v) by (apply (digits_ge s); [lia|done]).
    change (strconv.maxUint64 / 10 + 1) with 1844674407370955162.
    unfold strconv.maxUint64 in *.
    rewrite bool_decide_eq_false_2 by lia.
    rewrite (Z.mod_small (n * 10)) by lia.
    rewrite (Z.mod_small (n * 10 + d)) by lia.
    rewrite !bool_decide_eq_false_2 by lia. simpl.
    apply IH; [lia|done|done].
Qed.

Lemma int64_small x : - 2 ^ 63 <= x < 2 ^ 63 → strconv.int64 x = x.
Proof. intros Hx. unfold strconv.int64. rewrite Z.mod_small; lia. Qed.

Lemma int64_range x : - 2 ^ 63 <= strconv.int64 x < 2 ^ 63.
Proof.
  unfold strconv.int64.
  pose proof (Z.mod_pos_bound (x + 2 ^ 63) (2 ^ 64)). lia.
Qed.

(** What the loop of [ParseUint] can return: a number of [uint64], or 0
    with a syntax error, or the largest number with a range error. *)
Lemma ParseUint_loop_results s : ∀ n,
  0 <= n <= strconv.maxUint64 →
  match strconv.ParseUint_loop s n with
  | (v, None) => 0 <= v <= strconv.maxUint64
  | (v, Some e) =>
      (v = 0 ∧ e = strconv_ErrSyntax)
      ∨ (v = strconv.maxUint64 ∧ e = strconv_ErrRange)
  end.
Proof.
  induction s as [|c s IH]; intros n Hn; simpl; [done|].
  destruct (strconv.digit c) as [d|] eqn:Hd; [|by left].
  case_bool_decide; [by right|].
  destruct (_ || _)%bool eqn:Hover; [by right|].
  apply IH. unfold strconv.maxUint64.
  pose proof (Z.mod_pos_bound ((n * 10) mod 2 ^ 64 + d) (2 ^ 64)). lia.
Qed.

Lemma ParseUint_results s :
  match strconv.ParseUint s with
  | (v, None) => 0 <= v <= strconv.maxUint64
  | (v, Some e) =>
      (v = 0 ∧ e = strconv_ErrSyntax)
      ∨ (v = strconv.maxUint64 ∧ e = strconv_ErrRange)
  end.
Proof.
  destruct s as [|c r]; [by left|].
  apply ParseUint_loop_results. unfold strconv.maxUint64. lia.
Qed.

Lemma digits_bound s : ∀ a v,
  0 <= a → strconv.digits s a = Some v →
  v < (a + 1) * 10 ^ Z.of_nat (String.length s).
Proof.
  induction s as [|c s IH]; intros a v Ha; simpl String.length.
  - intros [= <-]. simpl. lia.
  - simpl. destruct (strconv.digit c) as [d|] eqn:Hd; [|done]. simpl.
    pose proof (digit_range c d Hd). intros Hv.
    apply IH in Hv; [|lia].
    rewrite Nat2Z.inj_succ, Z.pow_succ_r by lia.
    assert (0 < 10 ^ Z.of_nat (String.length s))
      by (apply Z.pow_pos_nonneg; lia).
    nia.
Qed.

(** What [Atoi] can return: a number of [int] without error, or 0 with
    a syntax error, or a bound of [int] with a range error. *)
Lemma Atoi_results s :
  match strconv.Atoi s with
  | (v, None) => - 2 ^ 63 <= v < 2 ^ 63
  | (v, Some e) =>
      (v = 0 ∧ e = strconv_ErrSyntax)
      ∨ ((v = 2 ^ 63 - 1 ∨ v = - 2 ^ 63) ∧ e = strconv_ErrRange)
  end.
Proof.
  unfold strconv.Atoi. case_bool_decide as Hlen.
  - set (sb := match s with
               | String "-"%char r => (true, r)
               | String "+"%char r => (true, r)
               | _ => (false, s)
               end).
    assert (Hb : (String.length sb.2 <= String.length s)%nat).
    { unfold sb. destruct s as [|c r]; [done|].
      destruct c as [[] [] [] [] [] [] [] []]; simpl; lia. }
    destruct sb as [signed body]. simpl in Hb.
    destruct (_ && _)%bool; [by left|].
    destruct (strconv.digits body 0) as [n|] eqn:Hd; [|by left].
    assert (Hn0 : 0 <= n) by (apply (digits_ge body 0); [lia|done]).
    assert (Hn1 : n < (0 + 1) * 10 ^ Z.of_nat (String.length body))
      by (apply (digits_bound body); [lia|done]).
    assert (10 ^ Z.of_nat (String.length body) <= 10 ^ 18)
      by (apply Z.pow_le_mono_r; lia).
    destruct s as [|c r]; [lia|].
    destruct c as [[] [] [] [] [] [] [] []]; lia.
  - unfold strconv.ParseInt. destruct s as [|c r]; [by left|].
    set (sb := match String c r with
               | String "+"%char r0 => (false, r0)
               | String "-"%char r0 => (true, r0)
               | _ => (false, String c r)
               end).
    destruct sb as [neg body].
    pose proof (ParseUint_results body) as HP.
    destruct (strconv.ParseUint body) as [un err].
    case_bool_decide as Herr.
    + destruct err as [e|]; [|by destruct Herr].
      destruct HP as [[-> ->]|[-> ->]]; [by left|by destruct Herr].
    + destruct (negb neg && _)%bool; [right; split; [by left|done]|].
      destruct (neg && _)%bool; [right; split; [by right|done]|].
      destruct neg; apply int64_range.
Qed.

(** *** Numbers as text *)

Lemma digits_of_uint_acc d : ∀ acc,
  strconv.digits (NilEmpty.string_of_uint d) (Z.pos acc)
    = Some (Z.pos (Pos.of_uint_acc d acc)).
Proof.
  induction d as [|d IH|d IH|d IH|d IH|d IH|d IH|d IH|d IH|d IH|d IH];
    intros acc; simpl; [done|..];
    match goal with
    | |- strconv.digits _ ?a = _ =>
        match type of (IH 1%positive) with
        | _ = Some (Z.pos (Pos.of_uint_acc _ _)) => idtac
        end
    end;
    rewrite <- IH; f_equal; lia.
Qed.

Lemma digits_of_uint d :
  strconv.digits (NilEmpty.string_of_uint d) 0
    = Some (Z.of_N (Pos.of_uint d)).
Proof.
  induction d as [|d IH|d IH|d IH|d IH|d IH|d IH|d IH|d IH|d IH|d IH];
    simpl; [done | exact IH | ..];
    match goal with
    | |- strconv.digits _ ?a = _ =>
        change a with (Z.pos (Z.to_pos a))
    end; simpl Z.to_pos; apply digits_of_uint_acc.
Qed.

Lemma string_of_uint_bytes d :
  forallb token_byte (String.list_ascii_of_string (NilEmpty.string_of_uint d))
    = true
  ∧ (d ≠ Decimal.Nil →
       ∃ c r, NilEmpty.string_of_uint d = String c r
              ∧ c ≠ "-"%char ∧ c ≠ "+"%char).
Proof.
  split.
  - induction d; simpl; try done.
  - intros Hd. destruct d; try done; simpl; do 2 eexists; split; try done.
Qed.

Lemma Atoi_digits c r un :
  c ≠ "-"%char → c ≠ "+"%char →
  strconv.digits (String c r) 0 = Some un →
  (un < 2 ^ 63 → strconv.Atoi (String c r) = (un, None))
  ∧ (un <= 2 ^ 63 →
       strconv.Atoi (String "-" (String c r)) = (- un, None)).
Proof.
  intros Hm Hp Hd.
  assert (Hun : 0 <= un) by (apply (digits_ge (String c r) 0); [lia|done]).
  assert (Hfast : match String c r with
                  | String "-"%char r0 => (true, r0)
                  | String "+"%char r0 => (true, r0)
                  | _ => (false, String c r)
                  end = (false, String c r))
    by (destruct c as [[] [] [] [] [] [] [] []]; done).
  assert (Hslow : match String c r with
                  | String "+"%char r0 => (false, r0)
                  | String "-"%char r0 => (true, r0)
                  | _ => (false, String c r)
                  end = (false, String c r))
    by (destruct c as [[] [] [] [] [] [] [] []]; done).
  assert (Hneg : match String c r with
                 | String "-"%char _ => - un
                 | _ => un
                 end = un)
    by (destruct c as [[] [] [] [] [] [] [] []]; done).
  split; intros Hr.
  - unfold strconv.Atoi. case_bool_decide.
    + rewrite Hfast. cbv beta iota. rewrite Hd, Hneg. done.
    + unfold strconv.ParseInt. rewrite Hslow. cbv beta iota.
      unfold strconv.ParseUint.
      rewrite (ParseUint_loop_digits _ 0 un) by (done || unfold strconv.maxUint64; lia).
      rewrite (bool_decide_eq_false_2 (_ ∧ _)) by (by intros [? _]).
      rewrite (bool_decide_eq_false_2 (un >= _)) by lia.
      simpl. by rewrite int64_small by lia.
  - unfold strconv.Atoi. case_bool_decide.
    + cbv beta iota.
      rewrite (bool_decide_eq_false_2 (_ < 1))
        by (simpl String.length; lia).
      simpl andb. cbv iota. rewrite Hd. done.
    + unfold strconv.ParseInt. cbv beta iota.
      unfold strconv.ParseUint.
      rewrite (ParseUint_loop_digits _ 0 un) by (done || unfold strconv.maxUint64; lia).
      rewrite (bool_decide_eq_false_2 (_ ∧ _)) by (by intros [? _]).
      simpl negb. simpl andb.
      rewrite (bool_decide_eq_false_2 (un > _)) by lia.
      cbv iota. f_equal.
      destruct (decide (un = 2 ^ 63)) as [->|]; [done|].
      by rewrite (int64_small un), int64_small by lia.
Qed.

(** [Atoi] reads back what [Itoa] writes, for every [int]. *)
Lemma Atoi_Itoa x :
  - 2 ^ 63 <= x < 2 ^ 63 → strconv.Atoi (strconv.Itoa x) = (x, None).
Proof.
  intros Hx. unfold strconv.Itoa. destruct x as [|p|p]; [done|..]; simpl.
  - destruct (string_of_uint_bytes (Pos.to_uint p)) as [_ Hhd].
    destruct (Hhd (Unsigned.to_uint_nonnil p)) as (c & r & Hs & Hm & Hp).
    pose proof (digits_of_uint (Pos.to_uint p)) as Hd.
    rewrite DecimalPos.Unsigned.of_to in Hd.
    unfold NilZero.string_of_uint.
    destruct (Pos.to_uint p) eqn:Hu; [by destruct (Unsigned.to_uint_nonnil p)|..];
      rewrite <- Hu in *; rewrite Hs in *;
      destruct (Atoi_digits c r _ Hm Hp Hd) as [-> _]; done || lia.
  - destruct (string_of_uint_bytes (Pos.to_uint p)) as [_ Hhd].
    destruct (Hhd (Unsigned.to_uint_nonnil p)) as (c & r & Hs & Hm & Hp).
    pose proof (digits_of_uint (Pos.to_uint p)) as Hd.
    rewrite DecimalPos.Unsigned.of_to in Hd.
    unfold NilZero.string_of_uint.
    destruct (Pos.to_uint p) eqn:Hu; [by destruct (Unsigned.to_uint_nonnil p)|..];
      rewrite <- Hu in *; rewrite Hs in *;
      destruct (Atoi_digits c r _ Hm Hp Hd) as [_ ->]; done || lia.
Qed.

(** The text of a number is a token text. *)
Lemma Itoa_token_text x : token_text (strconv.Itoa x) = true.
Proof.
  unfold strconv.Itoa, token_text. destruct x as [|p|p]; [done|..]; simpl.
  - destruct (string_of_uint_bytes (Pos.to_uint p)) as [Hb Hhd].
    destruct (Hhd (Unsigned.to_uint_nonnil p)) as (c & r & Hs & _).
    unfold NilZero.string_of_uint.
    destruct (Pos.to_uint p) eqn:Hu; [by destruct (Unsigned.to_uint_nonnil p)|..];
      rewrite <- Hu in *; rewrite Hb, Hs; done.
  - destruct (string_of_uint_bytes (Pos.to_uint p)) as [Hb Hhd].
    unfold NilZero.string_of_uint.
    destruct (Pos.to_uint p) eqn:Hu; [by destruct (Unsigned.to_uint_nonnil p)|..];
      rewrite <- Hu in *; rewrite Hb; done.
Qed.


(** ** Negotiation *)

Lemma foldr_min_min a x l :
  foldr Z.min (Z.min x a) l = Z.min x (foldr Z.min a l).
Proof. induction l as [|y l IH]; simpl; lia. Qed.

Lemma foldr_min_le a l : foldr Z.min a l <= a.
Proof. induction l as [|y l IH]; simpl; lia. Qed.

Lemma SplitN_2 s :
  strings.SplitN s "=" 2 =
    match strings.Cut s "=" with
    | Some (a, b) => [a; b]
    | None => [s]
    end.
Proof. unfold strings.SplitN. simpl. by destruct (strings.Cut s "=") as [[a b]|]. Qed.

(** One token: it never panics, and it changes the options by its name
    and value only. *)
Lemma negotiate_token_spec o s :
  ∃ o', negotiate_token o s = Some o'
    ∧ ServerMaxWindowBits o' =
        foldr Z.min (ServerMaxWindowBits o)
          (window_bits_read <$> omap (token_value internal.ServerMaxWindowBits) [s])
    ∧ ClientMaxWindowBits o' =
        foldr Z.min (ClientMaxWindowBits o)
          (window_bits_read <$> omap (token_value internal.ClientMaxWindowBits) [s])
    ∧ ServerContextTakeover o' =
        ServerContextTakeover o
        && bool_decide (token_name s ≠ internal.ServerNoContextTakeover)
    ∧ ClientContextTakeover o' =
        ClientContextTakeover o
        && bool_decide (token_name s ≠ internal.ClientNoContextTakeover).
Proof.
  unfold negotiate_token, token_name, token_value. rewrite SplitN_2.
  unfold internal.WithDefault, internal.Min, window_bits_read.
  destruct o as [en sct cct smwb cmwb th lv ps].
  destruct (strings.Cut s "=") as [[k v]|] eqn:Hcut; simpl; rewrite ?Hcut.
  - repeat case_bool_decide; subst; try discriminate; simpl;
      eexists; (split; [reflexivity|]); simpl;
      rewrite ?andb_true_r, ?andb_false_r; repeat split; try done;
      try (rewrite bool_decide_eq_true_2 by done);
      try (rewrite bool_decide_eq_false_2 by done); lia.
  - repeat case_bool_decide; subst; try discriminate; simpl;
      eexists; (split; [reflexivity|]); simpl;
      rewrite ?andb_true_r, ?andb_false_r; repeat split; done.
Qed.

Lemma negotiate_tokens_spec ss : ∀ o,
  ∃ o', negotiate_tokens o ss = Some o'
    ∧ ServerMaxWindowBits o' =
        foldr Z.min (ServerMaxWindowBits o)
          (window_bits_read <$> omap (token_value internal.ServerMaxWindowBits) ss)
    ∧ ClientMaxWindowBits o' =
        foldr Z.min (ClientMaxWindowBits o)
          (window_bits_read <$> omap (token_value internal.ClientMaxWindowBits) ss)
    ∧ ServerContextTakeover o' =
        ServerContextTakeover o
        && bool_decide (internal.ServerNoContextTakeover ∉ token_name <$> ss)
    ∧ ClientContextTakeover o' =
        ClientContextTakeover o
        && bool_decide (internal.ClientNoContextTakeover ∉ token_name <$> ss).
Proof.
  induction ss as [|s ss IH]; intros o.
  - exists o. simpl. rewrite !andb_true_r. repeat split; try done.
  - destruct (negotiate_token_spec o s) as (o1 & E1 & Hs1 & Hc1 & Hst1 & Hct1).
    destruct (IH o1) as (o2 & E2 & Hs2 & Hc2 & Hst2 & Hct2).
    exists o2. simpl negotiate_tokens. rewrite E1. simpl. split; [done|].
    rewrite Hs2, Hc2, Hst2, Hct2, Hs1, Hc1, Hst1, Hct1. clear.
    simpl omap. repeat split.
    + destruct (token_value internal.ServerMaxWindowBits s) as [v|]; simpl;
        [apply foldr_min_min | done].
    + destruct (token_value internal.ClientMaxWindowBits s) as [v|]; simpl;
        [apply foldr_min_min | done].
    + rewrite <- andb_assoc. f_equal.
      apply eq_true_iff_eq. rewrite andb_true_iff, !bool_decide_eq_true.
      rewrite not_elem_of_cons. split; intros [? ?]; split; congruence || done.
    + rewrite <- andb_assoc. f_equal.
      apply eq_true_iff_eq. rewrite andb_true_iff, !bool_decide_eq_true.
      rewrite not_elem_of_cons. split; intros [? ?]; split; congruence || done.
Qed.

(** C5, as the code has it.  The negotiation never fails and both window
    bits lie in [8,15].  Each is the minimum of the default 15 and every
    advertised value as the code reads it, raised to 8 when below (so a
    parameter that is not advertised gives 15, and values above 15 give
    15).  The code reads an advertised value as the [int] that [Atoi]
    returns for its text, the error ignored, with 0 replaced by 15; that
    [int] is 0 on a syntax error and the largest or the smallest [int] on
    a range error.  Each context takeover flag is false exactly when a
    token of the corresponding name is present. *)
Theorem permessageNegotiation_window_bits str :
  ∃ pd, permessageNegotiation str = Some pd
    ∧ 8 <= ServerMaxWindowBits pd <= 15
    ∧ 8 <= ClientMaxWindowBits pd <= 15
    ∧ ServerMaxWindowBits pd =
        spec_window_bits
          (window_bits_read <$> advertised internal.ServerMaxWindowBits str)
    ∧ ClientMaxWindowBits pd =
        spec_window_bits
          (window_bits_read <$> advertised internal.ClientMaxWindowBits str)
    ∧ ServerContextTakeover pd =
        bool_decide (internal.ServerNoContextTakeover
                       ∉ token_name <$> internal.Split str ";")
    ∧ ClientContextTakeover pd =
        bool_decide (internal.ClientNoContextTakeover
                       ∉ token_name <$> internal.Split str ";")
    ∧ ∀ v,
        window_bits_read v =
          (if bool_decide ((strconv.Atoi v).1 = 0) then 15
           else (strconv.Atoi v).1)
        ∧ match (strconv.Atoi v).2 with
          | None => - 2 ^ 63 <= (strconv.Atoi v).1 < 2 ^ 63
          | Some e =>
              ((strconv.Atoi v).1 = 0 ∧ e = strconv_ErrSyntax)
              ∨ (((strconv.Atoi v).1 = 2 ^ 63 - 1
                  ∨ (strconv.Atoi v).1 = - 2 ^ 63)
                 ∧ e = strconv_ErrRange)
          end.
Proof.
  assert (Hread : ∀ v,
    window_bits_read v =
      (if bool_decide ((strconv.Atoi v).1 = 0) then 15
       else (strconv.Atoi v).1)
    ∧ match (strconv.Atoi v).2 with
      | None => - 2 ^ 63 <= (strconv.Atoi v).1 < 2 ^ 63
      | Some e =>
          ((strconv.Atoi v).1 = 0 ∧ e = strconv_ErrSyntax)
          ∨ (((strconv.Atoi v).1 = 2 ^ 63 - 1
              ∨ (strconv.Atoi v).1 = - 2 ^ 63)
             ∧ e = strconv_ErrRange)
      end).
  { intros v. split; [done|].
    pose proof (Atoi_results v) as Hr.
    destruct (strconv.Atoi v) as [x [e|]]; exact Hr. }
  unfold permessageNegotiation, advertised, spec_window_bits.
  set (o := mkPermessageDeflate false true true 15 15 0 0 0).
  destruct (negotiate_tokens_spec (internal.Split str ";") o)
    as (o' & E & Hs & Hc & Hst & Hct).
  rewrite E. simpl. eexists. split; [reflexivity|]. simpl.
  rewrite Hs, Hc, Hst, Hct. simpl. unfold internal.SelectValue.
  set (vs := foldr Z.min 15 (window_bits_read <$>
               omap (token_value internal.ServerMaxWindowBits) (internal.Split str ";"))).
  set (vc := foldr Z.min 15 (window_bits_read <$>
               omap (token_value internal.ClientMaxWindowBits) (internal.Split str ";"))).
  assert (vs <= 15) by apply foldr_min_le.
  assert (vc <= 15) by apply foldr_min_le.
  do 6 (split; [first [done | repeat case_bool_decide; lia]|]).
  exact Hread.
Qed.

(** C5 as worded fails: a header with [server_max_window_bits=0]
    advertises the number 0, for which the minimum of 15 and the
    advertised values, raised to 8, is 8; the code gives 15. *)
Lemma permessageNegotiation_zero_counterexample :
  ∃ pd,
    permessageNegotiation "permessage-deflate; server_max_window_bits=0" = Some pd
    ∧ advertised internal.ServerMaxWindowBits
        "permessage-deflate; server_max_window_bits=0" = ["0"]
    ∧ strconv.Atoi "0" = (0, None)
    ∧ ServerMaxWindowBits pd = 15
    ∧ ServerMaxWindowBits pd ≠ spec_window_bits [0].
Proof.
  eexists. split; [vm_compute; reflexivity|].
  repeat split; vm_compute; congruence.
Qed.

(** C9. For window bits in [8,15], negotiating the generated response
    header gives back the two context takeover flags and the two window
    bits. *)
Theorem permessageNegotiation_genResponseHeader pd :
  8 <= ServerMaxWindowBits pd <= 15 →
  8 <= ClientMaxWindowBits pd <= 15 →
  ∃ pd', permessageNegotiation (genResponseHeader pd) = Some pd'
    ∧ ServerContextTakeover pd' = ServerContextTakeover pd
    ∧ ClientContextTakeover pd' = ClientContextTakeover pd
    ∧ ServerMaxWindowBits pd' = ServerMaxWindowBits pd
    ∧ ClientMaxWindowBits pd' = ClientMaxWindowBits pd.
Proof.
  destruct pd as [en sct cct s c th lv ps]. simpl. intros Hs Hc.
  assert (Es : s = 8 ∨ s = 9 ∨ s = 10 ∨ s = 11 ∨ s = 12 ∨ s = 13 ∨ s = 14 ∨ s = 15)
    by lia.
  assert (Ec : c = 8 ∨ c = 9 ∨ c = 10 ∨ c = 11 ∨ c = 12 ∨ c = 13 ∨ c = 14 ∨ c = 15)
    by lia.
  clear Hs Hc.
  destruct sct, cct;
    repeat (destruct Es as [->|Es]); try subst s;
    repeat (destruct Ec as [->|Ec]); try subst c;
    (eexists; split; [vm_compute; reflexivity | repeat split]).
Qed.

Lemma permessageNegotiation_genResponseHeader_witness :
  8 <= 10 <= 15 ∧ 8 <= 12 <= 15 ∧
  ∃ pd', permessageNegotiation
           (genResponseHeader (mkPermessageDeflate true true false 10 12 512 1 64))
         = Some pd'
    ∧ ServerContextTakeover pd' = true
    ∧ ClientContextTakeover pd' = false
    ∧ ServerMaxWindowBits pd' = 10
    ∧ ClientMaxWindowBits pd' = 12.
Proof.
  split; [lia|]. split; [lia|].
  apply (permessageNegotiation_genResponseHeader
           (mkPermessageDeflate true true false 10 12 512 1 64)); simpl; lia.
Defined.

(** ** Powers of two and masks *)

Lemma mask_pow2 a k :
  0 <= k <= 64 → Z.land a ((2 ^ k - 1) mod 2 ^ 64) = a mod 2 ^ k.
Proof.
  intros Hk.
  assert (0 < 2 ^ k) by (apply Z.pow_pos_nonneg; lia).
  assert (2 ^ k <= 2 ^ 64) by (apply Z.pow_le_mono_r; lia).
  rewrite Z.mod_small by lia.
  replace (2 ^ k - 1) with (Z.ones k) by (rewrite Z.ones_equiv; lia).
  apply Z.land_ones. lia.
Qed.


(** The model of [ToBinaryNumber] is the rounding the spec words: a power
    of two, not below [n], and the least such. *)
Lemma ToBinaryNumber_pow2 n :
  ∃ k, 0 <= k ∧ internal.ToBinaryNumber n = 2 ^ k.
Proof. exists (Z.log2_up n). split; [apply Z.log2_up_nonneg | done]. Qed.

Lemma ToBinaryNumber_ge n : n <= internal.ToBinaryNumber n.
Proof.
  unfold internal.ToBinaryNumber.
  destruct (decide (0 < n)) as [Hn|Hn].
  - apply Z.log2_log2_up_spec. done.
  - pose proof (Z.log2_up_nonneg n).
    assert (0 < 2 ^ Z.log2_up n) by (apply Z.pow_pos_nonneg; lia). lia.
Qed.

Lemma ToBinaryNumber_least n j :
  0 <= j → n <= 2 ^ j → internal.ToBinaryNumber n <= 2 ^ j.
Proof.
  intros Hj Hn. unfold internal.ToBinaryNumber.
  apply Z.pow_le_mono_r; [lia|].
  destruct (decide (0 < n)) as [Hpos|Hpos].
  - by apply Z.log2_up_le_pow2.
  - rewrite Z.log2_up_nonpos by lia. done.
Qed.

(** ** Big-endian words *)

Lemma lor_shiftl_add a b n :
  0 <= n → 0 <= a < 2 ^ n → Z.lor a (Z.shiftl b n) = a + b * 2 ^ n.
Proof.
  intros Hn Ha.
  assert (Hland : Z.land a (Z.shiftl b n) = 0).
  { apply Z.bits_inj'. intros i Hi.
    rewrite Z.land_spec, Z.bits_0.
    destruct (decide (i < n)) as [Hlt|Hge].
    - rewrite Z.shiftl_spec_low by done. apply andb_false_r.
    - rewrite (proj1 (Z.bounded_iff_bits_nonneg n a Hn (proj1 Ha)) (proj2 Ha) i)
        by lia. done. }
  pose proof (Z.add_lor_land a (Z.shiftl b n)) as H.
  rewrite Hland, Z.shiftl_mul_pow2 in H by done.
  rewrite Z.shiftl_mul_pow2 by done. lia.
Qed.

Lemma byte_value_bounded (x : byte) : 0 <= Z.of_N (Byte.to_N x) < 256.
Proof. pose proof (Byte.to_N_bounded x). lia. Qed.

Lemma byte_of_value (x y : byte) :
  Z.of_N (Byte.to_N x) = Z.of_N (Byte.to_N y) → x = y.
Proof.
  intros H. apply N2Z.inj in H.
  pose proof (Byte.of_to_N x) as Hx. rewrite H, Byte.of_to_N in Hx.
  congruence.
Qed.

(** The value of a 4-byte big-endian word. *)
Lemma BigEndian_Uint32_value b0 b1 b2 b3 :
  BigEndian_Uint32 [b0; b1; b2; b3] =
    Some (Z.of_N (Byte.to_N b3) + Z.of_N (Byte.to_N b2) * 2 ^ 8
          + Z.of_N (Byte.to_N b1) * 2 ^ 16 + Z.of_N (Byte.to_N b0) * 2 ^ 24).
Proof.
  unfold BigEndian_Uint32.
  pose proof (byte_value_bounded b0). pose proof (byte_value_bounded b1).
  pose proof (byte_value_bounded b2). pose proof (byte_value_bounded b3).
  rewrite (lor_shiftl_add _ _ 8) by lia.
  rewrite (lor_shiftl_add _ _ 16) by lia.
  rewrite (lor_shiftl_add _ _ 24) by lia.
  done.
Qed.

(** A 4-byte big-endian word is [0x0000FFFF] exactly for the bytes
    [00 00 FF FF]. *)
Lemma BigEndian_Uint32_MaxUint16 b0 b1 b2 b3 :
  BigEndian_Uint32 [b0; b1; b2; b3] = Some MaxUint16
  ↔ [b0; b1; b2; b3] = [Byte.x00; Byte.x00; Byte.xff; Byte.xff].
Proof.
  rewrite BigEndian_Uint32_value. unfold MaxUint16. split.
  - intros [= H].
    pose proof (byte_value_bounded b0). pose proof (byte_value_bounded b1).
    pose proof (byte_value_bounded b2). pose proof (byte_value_bounded b3).
    assert (E0 : Z.of_N (Byte.to_N b0) = Z.of_N (Byte.to_N Byte.x00))
      by (simpl; lia).
    assert (E1 : Z.of_N (Byte.to_N b1) = Z.of_N (Byte.to_N Byte.x00))
      by (simpl; lia).
    assert (E2 : Z.of_N (Byte.to_N b2) = Z.of_N (Byte.to_N Byte.xff))
      by (simpl; lia).
    assert (E3 : Z.of_N (Byte.to_N b3) = Z.of_N (Byte.to_N Byte.xff))
      by (simpl; lia).
    apply byte_of_value in E0, E1, E2, E3. by subst.
  - intros [= -> -> -> ->]. done.
Qed.

(** The test of [Compress] on the last four bytes of [dst], and the
    suffix it recognises. *)
Lemma tail_test_ends_with_tail (dst : list byte) :
  slice.len dst >= 4
  ∧ BigEndian_Uint32 (drop (Z.to_nat (slice.len dst - 4)) dst) = Some MaxUint16
  ↔ ends_with_tail dst.
Proof.
  unfold ends_with_tail, slice.len. split.
  - intros [Hn Ht].
    set (k := Z.to_nat (Z.of_nat (length dst) - 4)) in *.
    assert (Hk : length (drop k dst) = 4%nat) by (rewrite length_drop; lia).
    destruct (drop k dst) as [|b0 [|b1 [|b2 [|b3 [|]]]]] eqn:Hd;
      simpl in Hk; try lia.
    apply BigEndian_Uint32_MaxUint16 in Ht.
    exists (take k dst). rewrite <- Ht, <- Hd, take_drop. done.
  - intros [pre ->]. rewrite length_app. simpl. split; [lia|].
    replace (Z.to_nat (Z.of_nat (length pre + 4) - 4)) with (length pre) by lia.
    rewrite drop_app_length. by apply BigEndian_Uint32_MaxUint16.
Qed.

(** ** deflater *)

Section DeflaterFacts.
Context {flate : Flate}.

(** C2. When the writer does not fail, [Compress] leaves in [dst] what it
    held followed by the compressed and flushed bytes of [src], without
    their last 4 bytes if and only if [dst] then has at least 4 bytes and
    its last 4, read as a big-endian word, are [0x0000FFFF]; and that is
    so exactly when [dst] ends in the bytes [00 00 FF FF]. *)
Theorem deflater_Compress_truncates c src dst dict out1 out2 :
  flate_Write (cpsWriter c) dict src = (out1, None) →
  flate_Flush (cpsWriter c) dict src = (out2, None) →
  let full := dst ++ out1 ++ out2 in
  let n := slice.len full in
  let test := n >= 4 ∧ BigEndian_Uint32 (drop (Z.to_nat (n - 4)) full)
                        = Some MaxUint16 in
  (test ↔ ends_with_tail full)
  ∧ (test → deflater_Compress c src dst dict = (take (Z.to_nat (n - 4)) full, None)
            ∧ full = (deflater_Compress c src dst dict).1
                       ++ [Byte.x00; Byte.x00; Byte.xff; Byte.xff])
  ∧ (¬ test → deflater_Compress c src dst dict = (full, None)).
Proof.
  intros Hw Hf full n test.
  split; [apply tail_test_ends_with_tail|].
  unfold deflater_Compress. rewrite Hw, Hf. rewrite <- !app_assoc.
  fold full. fold n. subst test. clearbody full. split.
  - intros [Hn Ht]. rewrite bool_decide_eq_true_2 by done.
    rewrite bool_decide_eq_true_2 by done. split; [done|]. simpl.
    destruct (proj1 (tail_test_ends_with_tail full) (conj Hn Ht)) as [pre Hpre].
    subst n full. unfold slice.len. rewrite length_app. simpl.
    replace (Z.to_nat (Z.of_nat (length pre + 4) - 4)) with (length pre) by lia.
    by rewrite take_app_length.
  - intros Hnot. case_bool_decide as Hn; [|done].
    case_bool_decide as Ht; [|done]. destruct Hnot. done.
Qed.

(** A failing writer leaves [dst] untruncated and returns its error. *)
Lemma deflater_Compress_error c src dst dict :
  (∀ out err, flate_Write (cpsWriter c) dict src = (out, Some err) →
     deflater_Compress c src dst dict = (dst ++ out, Some err))
  ∧ (∀ out1 out2 err,
       flate_Write (cpsWriter c) dict src = (out1, None) →
       flate_Flush (cpsWriter c) dict src = (out2, Some err) →
       deflater_Compress c src dst dict = (dst ++ out1 ++ out2, Some err)).
Proof.
  unfold deflater_Compress. split.
  - intros out err ->. done.
  - intros out1 out2 err -> ->. by rewrite <- app_assoc.
Qed.

(** The copy of a limited reader whose bytes go over the limit fails. *)
Lemma io_CopyBuffer_over_limit r : ∀ dst n m,
  n + slice.len (reader_bytes r) > m →
  (io_CopyBuffer dst (limitedReader_Read r n m)).2
    = Some internal.CloseMessageTooLarge.
Proof.
  induction r as [p err|p next IH]; intros dst n m; simpl.
  - intros H. rewrite bool_decide_eq_true_2 by done. done.
  - rewrite len_app. intros H.
    destruct (decide (n + slice.len p > m)) as [H1|H1].
    + rewrite bool_decide_eq_true_2 by done. done.
    + rewrite bool_decide_eq_false_2 by done. simpl. apply IH. lia.
Qed.

(** The copy of a limited reader whose bytes stay within the limit is the
    copy of the reader itself. *)
Lemma io_CopyBuffer_within_limit r : ∀ dst n m,
  n + slice.len (reader_bytes r) <= m →
  io_CopyBuffer dst (limitedReader_Read r n m) =
    (dst ++ reader_bytes r,
     if bool_decide (reader_err r = io_EOF) then None else Some (reader_err r)).
Proof.
  induction r as [p err|p next IH]; intros dst n m; simpl.
  - intros H. rewrite bool_decide_eq_false_2 by lia. done.
  - rewrite len_app. intros H. pose proof (len_nonneg (reader_bytes next)).
    rewrite bool_decide_eq_false_2 by lia. simpl.
    rewrite IH by lia. by rewrite app_assoc.
Qed.

(** What [Decompress] returns, by the size of the inflated data. *)
Lemma deflater_Decompress_result c src dict :
  let r := flate_Reset dict (src ++ flateTail) in
  deflater_Decompress c src dict =
    if bool_decide (slice.len (reader_bytes r) > limit c)
    then (set_dpsBuffer c
            (io_CopyBuffer [] (limitedReader_Read r 0 (limit c))).1,
          (None, Some internal.CloseMessageTooLarge))
    else if bool_decide (reader_err r = io_EOF)
         then (set_dpsBuffer c [], (Some (reader_bytes r), None))
         else (set_dpsBuffer c (reader_bytes r), (None, Some (reader_err r))).
Proof.
  intros r. unfold deflater_Decompress, deflater_resetFR, limitReader. simpl.
  fold r. case_bool_decide as Hlim.
  - pose proof (io_CopyBuffer_over_limit r [] 0 (limit c)) as H.
    destruct (io_CopyBuffer [] (limitedReader_Read r 0 (limit c))) as [b e].
    simpl in *. rewrite H by lia. done.
  - rewrite io_CopyBuffer_within_limit by lia. simpl.
    case_bool_decide; done.
Qed.

(** C3. [Decompress] hands the inflate reader, reset with [dict], the
    bytes of [src] followed by the 9 bytes [00 00 FF FF 01 00 00 FF FF];
    when the reader ends the data within the limit, the buffer returned
    holds all the inflated bytes, whatever the staging buffer held
    before. *)
Theorem deflater_Decompress_inflates c src dict :
  let r := flate_Reset dict
             (src ++ [Byte.x00; Byte.x00; Byte.xff; Byte.xff; Byte.x01;
                      Byte.x00; Byte.x00; Byte.xff; Byte.xff]) in
  reader_err r = io_EOF →
  slice.len (reader_bytes r) <= limit c →
  deflater_Decompress c src dict =
    (set_dpsBuffer c [], (Some (reader_bytes r), None)).
Proof.
  intros r Heof Hlim.
  pose proof (deflater_Decompress_result c src dict) as Hres.
  change (flate_Reset dict (src ++ flateTail)) with r in Hres. simpl in Hres.
  rewrite bool_decide_eq_false_2, bool_decide_eq_true_2 in Hres by (done || lia).
  done.
Qed.

(** C4. When the inflated data is longer than the limit, [Decompress]
    returns no buffer and the error [CloseMessageTooLarge], the close
    error with code 1009; when it is within the limit, the limit raises
    no error: the result is the buffer, or the error the inflate reader
    ended with. *)
Theorem deflater_Decompress_limit c src dict :
  let r := flate_Reset dict (src ++ flateTail) in
  internal.CloseMessageTooLarge = StatusCode 1009
  ∧ (slice.len (reader_bytes r) > limit c →
       (deflater_Decompress c src dict).2
         = (None, Some internal.CloseMessageTooLarge))
  ∧ (slice.len (reader_bytes r) <= limit c →
       (deflater_Decompress c src dict).2
         = if bool_decide (reader_err r = io_EOF)
           then (Some (reader_bytes r), None)
           else (None, Some (reader_err r))).
Proof.
  intros r. split; [done|].
  pose proof (deflater_Decompress_result c src dict) as Hres.
  fold r in Hres. simpl in Hres. rewrite Hres. clear Hres. split; intros H.
  - rewrite bool_decide_eq_true_2 by done. done.
  - rewrite bool_decide_eq_false_2 by lia.
    destruct (bool_decide (reader_err r = io_EOF)); done.
Qed.

End DeflaterFacts.

Lemma deflater_Compress_truncates_witness :
  let c := deflater_initialize true
             (mkPermessageDeflate true true true 15 15 512 1 8) 1024 in
  let src := [Byte.x68; Byte.x69] in
  let full := [Byte.x68; Byte.x69; Byte.x00; Byte.x00; Byte.xff; Byte.xff] in
  @flate_Write stored_Flate (cpsWriter c) [] src = (src, None)
  ∧ @flate_Flush stored_Flate (cpsWriter c) [] src
      = ([Byte.x00; Byte.x00; Byte.xff; Byte.xff], None)
  ∧ ends_with_tail full
  ∧ @deflater_Compress stored_Flate c src [] [] = (src, None).
Proof.
  intros c src full.
  destruct (@deflater_Compress_truncates stored_Flate c src [] []
              src [Byte.x00; Byte.x00; Byte.xff; Byte.xff]
              eq_refl eq_refl) as (Hiff & Hcut & _).
  assert (Ht : ends_with_tail full) by (by exists src).
  split; [done|]. split; [done|]. split; [done|].
  apply Hiff in Ht. destruct (Hcut Ht) as [-> _]. done.
Defined.

Lemma deflater_Decompress_inflates_witness :
  let c := mkDeflater 1024 [Byte.x2a] (NewWriter 1) in
  let r := @flate_Reset stored_Flate [] ([Byte.x68; Byte.x69] ++ flateTail) in
  reader_err r = io_EOF
  ∧ slice.len (reader_bytes r) <= limit c
  ∧ @deflater_Decompress stored_Flate c [Byte.x68; Byte.x69] []
    = (set_dpsBuffer c [], (Some ([Byte.x68; Byte.x69] ++ flateTail), None)).
Proof.
  intros c r. split; [done|]. split; [vm_compute; discriminate|].
  apply (@deflater_Decompress_inflates stored_Flate c [Byte.x68; Byte.x69] []);
    [done | vm_compute; discriminate].
Defined.

Lemma deflater_Decompress_limit_witness :
  let small := mkDeflater 4 [] (NewWriter 1) in
  let large := mkDeflater 1024 [] (NewWriter 1) in
  let r := @flate_Reset stored_Flate [] ([Byte.x68; Byte.x69] ++ flateTail) in
  (slice.len (reader_bytes r) > limit small
   ∧ (@deflater_Decompress stored_Flate small [Byte.x68; Byte.x69] []).2
     = (None, Some (StatusCode 1009)))
  ∧ (slice.len (reader_bytes r) <= limit large
     ∧ (@deflater_Decompress stored_Flate large [Byte.x68; Byte.x69] []).2
       = (Some ([Byte.x68; Byte.x69] ++ flateTail), None)).
Proof.
  intros small large r.
  destruct (@deflater_Decompress_limit stored_Flate small [Byte.x68; Byte.x69] [])
    as (_ & Hover & _).
  destruct (@deflater_Decompress_limit stored_Flate large [Byte.x68; Byte.x69] [])
    as (_ & _ & Hwithin).
  assert (H1 : slice.len (reader_bytes r) > limit small) by (vm_compute; done).
  assert (H2 : slice.len (reader_bytes r) <= limit large)
    by (vm_compute; discriminate).
  split; (split; [done|]).
  - apply (Hover H1).
  - apply (Hwithin H2).
Defined.

(** ** deflaterPool *)

Lemma initialize_loop_spec rounds options limit : ∀ pool h,
  deflaterPool.initialize_loop rounds options limit pool h
  = (pool ++ seq (length h) rounds,
     h ++ replicate rounds (deflater_initialize true options limit)).
Proof.
  induction rounds as [|rounds IH]; intros pool h; simpl.
  - by rewrite !app_nil_r.
  - rewrite IH, length_app, <- !app_assoc. simpl.
    by rewrite Nat.add_1_r.
Qed.

(** What [initialize] builds on the zero value: [PoolSize] new deflaters,
    at the positions after those of the heap, and no rounding. *)
Lemma deflaterPool_initialize_spec options limit h :
  0 <= PoolSize options < 2 ^ 63 →
  deflaterPool.initialize deflaterPool.zero options limit h
  = (deflaterPool.mk 0 (PoolSize options)
       (seq (length h) (Z.to_nat (PoolSize options))),
     h ++ replicate (Z.to_nat (PoolSize options))
            (deflater_initialize true options limit)).
Proof.
  intros Hp. unfold deflaterPool.initialize.
  rewrite initialize_loop_spec. simpl.
  by rewrite Z.mod_small by lia.
Qed.






(** ** ConcurrentMap *)

Section ConcurrentMapFacts.
Context {K : Type} `{Countable K} {V : Type} (hash : K → Z).

Abbreviation t := (@ConcurrentMap.t K _ _ V).
Abbreviation NewConcurrentMap := (@ConcurrentMap.NewConcurrentMap K _ _ V).
Implicit Types c : t.

Lemma NewConcurrentMap_requested size :
  Forall (λ n, 0 <= n <= 2 ^ 63) size →
  NewConcurrentMap size =
    Some (@ConcurrentMap.mk K _ _ V
            (internal.ToBinaryNumber (ConcurrentMap.requested size))
            (replicate
               (Z.to_nat (internal.ToBinaryNumber (ConcurrentMap.requested size)))
               ∅)).
Proof.
  intros Hsize. unfold ConcurrentMap.NewConcurrentMap, ConcurrentMap.requested.
  destruct size as [|n [|cap size]]; simpl; try done.
  - apply Forall_cons_1 in Hsize as [Hn _]. unfold internal.SelectValue.
    repeat case_bool_decide; try lia; done.
  - apply Forall_cons_1 in Hsize as [Hn _]. unfold internal.SelectValue.
    repeat case_bool_decide; try lia; done.
Qed.

Lemma requested_bound size :
  Forall (λ n, 0 <= n <= 2 ^ 63) size →
  0 < ConcurrentMap.requested size <= 2 ^ 63.
Proof.
  intros Hsize. unfold ConcurrentMap.requested.
  destruct size as [|n size]; [lia|].
  apply Forall_cons_1 in Hsize as [Hn _]. case_bool_decide; lia.
Qed.

Lemma NewConcurrentMap_is_wf size c :
  Forall (λ n, 0 <= n <= 2 ^ 63) size →
  NewConcurrentMap size = Some c → ConcurrentMap.wf c.
Proof.
  intros Hsize Hnew. rewrite NewConcurrentMap_requested in Hnew by done.
  injection Hnew as <-. exists (Z.log2_up (ConcurrentMap.requested size)).
  simpl. split; [|split; [done | by rewrite length_replicate]].
  split; [apply Z.log2_up_nonneg|].
  pose proof (requested_bound size Hsize).
  transitivity 63; [|lia]. apply Z.log2_up_le_pow2; lia.
Qed.

Lemma GetSharding_index_mod c key :
  ConcurrentMap.wf c →
  ConcurrentMap.GetSharding_index hash c key = hash key mod ConcurrentMap.num c
  ∧ 0 <= ConcurrentMap.GetSharding_index hash c key < ConcurrentMap.num c.
Proof.
  intros (k & Hk & Hnum & Hlen). unfold ConcurrentMap.GetSharding_index.
  rewrite Hnum, mask_pow2 by done. split; [done|].
  apply Z.mod_pos_bound. apply Z.pow_pos_nonneg; lia.
Qed.

Lemma GetSharding_Some c key :
  ConcurrentMap.wf c → is_Some (ConcurrentMap.GetSharding hash c key).
Proof.
  intros Hwf. destruct (GetSharding_index_mod c key Hwf) as [_ Hi].
  destruct Hwf as (k & Hk & Hnum & Hlen).
  unfold ConcurrentMap.GetSharding. apply lookup_lt_is_Some. lia.
Qed.

Lemma set_sharding_wf c key b :
  ConcurrentMap.wf c → ConcurrentMap.wf (ConcurrentMap.set_sharding hash c key b).
Proof.
  intros (k & Hk & Hnum & Hlen). exists k. simpl.
  rewrite length_insert. done.
Qed.

Lemma reachable_wf size c :
  ConcurrentMap.reachable hash size c → ConcurrentMap.wf c.
Proof.
  induction 1 as [c Hsize Hnew|c key value c' _ IH Hs|c key c' _ IH Hd].
  - by eapply NewConcurrentMap_is_wf.
  - unfold ConcurrentMap.Store in Hs.
    destruct (ConcurrentMap.GetSharding hash c key); simplify_eq/=.
    by apply set_sharding_wf.
  - unfold ConcurrentMap.Delete in Hd.
    destruct (ConcurrentMap.GetSharding hash c key); simplify_eq/=.
    by apply set_sharding_wf.
Qed.

Lemma reachable_num size c :
  ConcurrentMap.reachable hash size c →
  ConcurrentMap.num c = internal.ToBinaryNumber (ConcurrentMap.requested size).
Proof.
  induction 1 as [c Hsize Hnew|c key value c' _ IH Hs|c key c' _ IH Hd].
  - rewrite NewConcurrentMap_requested in Hnew by done. by injection Hnew as <-.
  - unfold ConcurrentMap.Store in Hs.
    destruct (ConcurrentMap.GetSharding hash c key); simplify_eq/=. done.
  - unfold ConcurrentMap.Delete in Hd.
    destruct (ConcurrentMap.GetSharding hash c key); simplify_eq/=. done.
Qed.

(** Reading a key after its shard was replaced by [b], and reading
    another key whose value [b] keeps. *)
Lemma Load_set_sharding c key b0 b key' :
  ConcurrentMap.wf c →
  ConcurrentMap.GetSharding hash c key = Some b0 →
  (key' ≠ key → b !! key' = b0 !! key') →
  ConcurrentMap.Load hash (ConcurrentMap.set_sharding hash c key b) key' =
    if decide (key' = key) then Some (b !! key)
    else ConcurrentMap.Load hash c key'.
Proof.
  intros Hwf Hb0 Hother.
  destruct (GetSharding_index_mod c key Hwf) as [_ Hi].
  pose proof Hwf as (k & Hk & Hnum & Hlen).
  unfold ConcurrentMap.Load, ConcurrentMap.GetSharding in *.
  change (ConcurrentMap.GetSharding_index hash
            (ConcurrentMap.set_sharding hash c key b) key')
    with (ConcurrentMap.GetSharding_index hash c key').
  simpl. case_decide as Hkey.
  - subst key'. rewrite list_lookup_insert_eq by lia. done.
  - destruct (decide (Z.to_nat (ConcurrentMap.GetSharding_index hash c key)
                      = Z.to_nat (ConcurrentMap.GetSharding_index hash c key')))
      as [Heq|Hne].
    + rewrite <- Heq. rewrite list_lookup_insert_eq by lia.
      rewrite Hb0. simpl. unfold ConcurrentMap.Map_Load. by rewrite Hother.
    + rewrite list_lookup_insert_ne by done. done.
Qed.

(** C7. [NewConcurrentMap] makes a map whose shard count is the count
    asked for (16 when none or zero is given) rounded up to a power of
    two, with that many shards; in this map and in every map made from it
    by [Store] and [Delete] the count is the same and [GetSharding] takes
    a key to the shard at index [hash(key) & (num - 1)], which is
    [hash(key) mod num]. *)
Theorem NewConcurrentMap_sharding size :
  Forall (λ n, 0 <= n <= 2 ^ 63) size →
  ∃ c, NewConcurrentMap size = Some c
    ∧ ConcurrentMap.num c = internal.ToBinaryNumber (ConcurrentMap.requested size)
    ∧ (∃ k, 0 <= k ∧ ConcurrentMap.num c = 2 ^ k)
    ∧ ConcurrentMap.requested size <= ConcurrentMap.num c
    ∧ (∀ j, 0 <= j → ConcurrentMap.requested size <= 2 ^ j →
            ConcurrentMap.num c <= 2 ^ j)
    ∧ slice.len (ConcurrentMap.shardings c) = ConcurrentMap.num c
    ∧ ∀ c', ConcurrentMap.reachable hash size c' →
        ConcurrentMap.num c' = ConcurrentMap.num c
        ∧ ∀ key,
            ConcurrentMap.GetSharding_index hash c' key
              = Z.land (hash key) (ConcurrentMap.num c' - 1)
            ∧ ConcurrentMap.GetSharding_index hash c' key
              = hash key mod ConcurrentMap.num c'
            ∧ ∃ b, ConcurrentMap.GetSharding hash c' key = Some b
                   ∧ ConcurrentMap.shardings c'
                       !! Z.to_nat (hash key mod ConcurrentMap.num c') = Some b.
Proof.
  intros Hsize. eexists. split; [by apply NewConcurrentMap_requested|]. simpl.
  split; [done|]. split; [apply ToBinaryNumber_pow2|].
  split; [apply ToBinaryNumber_ge|].
  split; [intros j; apply ToBinaryNumber_least|].
  split.
  { unfold slice.len. rewrite length_replicate.
    pose proof (ToBinaryNumber_ge (ConcurrentMap.requested size)).
    pose proof (requested_bound size Hsize). lia. }
  intros c' Hr. split; [by apply reachable_num|]. intros key.
  pose proof (reachable_wf size c' Hr) as Hwf.
  destruct (GetSharding_index_mod c' key Hwf) as [Hmod Hrange].
  destruct (GetSharding_Some c' key Hwf) as [b Hb].
  split.
  { destruct Hwf as (k & Hk & Hnum & _).
    unfold ConcurrentMap.GetSharding_index. f_equal.
    assert (0 < 2 ^ k) by (apply Z.pow_pos_nonneg; lia).
    assert (2 ^ k <= 2 ^ 64) by (apply Z.pow_le_mono_r; lia).
    apply Z.mod_small. lia. }
  split; [done|]. exists b. split; [done|].
  unfold ConcurrentMap.GetSharding in Hb. by rewrite <- Hmod.
Qed.

End ConcurrentMapFacts.

Lemma NewConcurrentMap_sharding_witness :
  Forall (λ n, 0 <= n <= 2 ^ 63) [13]
  ∧ ∃ c, @ConcurrentMap.NewConcurrentMap Z _ _ nat [13] = Some c
         ∧ ConcurrentMap.num c = 16
         ∧ ConcurrentMap.GetSharding_index Z.abs c 35 = 3.
Proof.
  assert (Hsize : Forall (λ n, 0 <= n <= 2 ^ 63) [13])
    by (repeat constructor; lia).
  split; [exact Hsize|].
  destruct (@NewConcurrentMap_sharding Z _ _ nat Z.abs [13] Hsize)
    as (c & Hnew & Hnum & _ & _ & _ & _ & Hroute).
  exists c. split; [exact Hnew|]. split; [rewrite Hnum; reflexivity|].
  destruct (Hroute c (ConcurrentMap.reach_New Z.abs [13] c Hsize Hnew))
    as (_ & Hkey).
  destruct (Hkey 35) as (_ & -> & _). rewrite Hnum. reflexivity.
Defined.

(** ** ConcurrentMap for every comparable key type *)

Section AnyKeyFacts.
Context {K V : Type} (Keq : K → K → bool) (hash : K → Z).

Implicit Types (c : @AnyKey.t K V) (m : list (K * V)).

Lemma AnyKey_NewConcurrentMap_requested size :
  Forall (λ n, 0 <= n <= 2 ^ 63) size →
  AnyKey.NewConcurrentMap size =
    Some (@AnyKey.mk K V
            (internal.ToBinaryNumber (ConcurrentMap.requested size))
            (replicate
               (Z.to_nat (internal.ToBinaryNumber (ConcurrentMap.requested size)))
               [])).
Proof.
  intros Hsize. unfold AnyKey.NewConcurrentMap, ConcurrentMap.requested.
  destruct size as [|n [|cap size]]; simpl; try done.
  - apply Forall_cons_1 in Hsize as [Hn _]. unfold internal.SelectValue.
    repeat case_bool_decide; try lia; done.
  - apply Forall_cons_1 in Hsize as [Hn _]. unfold internal.SelectValue.
    repeat case_bool_decide; try lia; done.
Qed.

Lemma AnyKey_NewConcurrentMap_wf size c :
  Forall (λ n, 0 <= n <= 2 ^ 63) size →
  AnyKey.NewConcurrentMap size = Some c → AnyKey.wf c.
Proof.
  intros Hsize Hnew.
  rewrite AnyKey_NewConcurrentMap_requested in Hnew by done.
  injection Hnew as <-. exists (Z.log2_up (ConcurrentMap.requested size)).
  simpl. split; [|split; [done | by rewrite length_replicate]].
  split; [apply Z.log2_up_nonneg|].
  pose proof (requested_bound size Hsize).
  transitivity 63; [|lia]. apply Z.log2_up_le_pow2; lia.
Qed.

Lemma AnyKey_GetSharding_index_range c key :
  AnyKey.wf c → 0 <= AnyKey.GetSharding_index hash c key < AnyKey.num c.
Proof.
  intros (k & Hk & Hnum & Hlen). unfold AnyKey.GetSharding_index.
  rewrite Hnum, mask_pow2 by done.
  apply Z.mod_pos_bound. apply Z.pow_pos_nonneg; lia.
Qed.

Lemma AnyKey_GetSharding_Some c key :
  AnyKey.wf c → is_Some (AnyKey.GetSharding hash c key).
Proof.
  intros Hwf. pose proof (AnyKey_GetSharding_index_range c key Hwf) as Hi.
  destruct Hwf as (k & Hk & Hnum & Hlen).
  unfold AnyKey.GetSharding. apply lookup_lt_is_Some. lia.
Qed.

Lemma AnyKey_set_sharding_wf c key b :
  AnyKey.wf c → AnyKey.wf (AnyKey.set_sharding hash c key b).
Proof.
  intros (k & Hk & Hnum & Hlen). exists k. simpl.
  rewrite length_insert. done.
Qed.

Lemma AnyKey_reachable_wf size c :
  AnyKey.reachable Keq hash size c → AnyKey.wf c.
Proof.
  induction 1 as [c Hsize Hnew|c key value c' _ IH Hs|c key c' _ IH Hd].
  - by eapply AnyKey_NewConcurrentMap_wf.
  - unfold AnyKey.Store in Hs.
    destruct (AnyKey.GetSharding hash c key); simplify_eq/=.
    by apply AnyKey_set_sharding_wf.
  - unfold AnyKey.Delete in Hd.
    destruct (AnyKey.GetSharding hash c key); simplify_eq/=.
    by apply AnyKey_set_sharding_wf.
Qed.

(** *** One Go map *)

Lemma Map_Load_Store m key value :
  Keq key key = true →
  AnyKey.Map_Load Keq (AnyKey.Map_Store Keq m key value) key = Some value.
Proof.
  intros Hrefl. induction m as [|[k v] m IH]; simpl.
  - by rewrite Hrefl.
  - destruct (Keq k key) eqn:Hk; simpl; by rewrite Hk.
Qed.

Lemma Map_Load_Delete m key :
  AnyKey.Map_Load Keq (AnyKey.Map_Delete Keq m key) key = None.
Proof.
  induction m as [|[k v] m IH]; simpl; [done|].
  destruct (Keq k key) eqn:Hk; simpl; [done|]. by rewrite Hk.
Qed.

Section OtherKeys.
(** [==] is symmetric and transitive on every comparable type. *)
Hypothesis Keq_sym : ∀ a b, Keq a b = true → Keq b a = true.
Hypothesis Keq_trans : ∀ a b d, Keq a b = true → Keq b d = true → Keq a d = true.

Lemma Keq_other k key key' :
  Keq key key' = false → Keq k key = true → Keq k key' = false.
Proof.
  intros Hne Hk. destruct (Keq k key') eqn:Hk'; [|done].
  rewrite (Keq_trans key k key') in Hne; [done| by apply Keq_sym |done].
Qed.

Lemma Map_Load_Store_other m key value key' :
  Keq key key' = false →
  AnyKey.Map_Load Keq (AnyKey.Map_Store Keq m key value) key'
  = AnyKey.Map_Load Keq m key'.
Proof.
  intros Hne. induction m as [|[k v] m IH]; simpl.
  - by rewrite Hne.
  - destruct (Keq k key) eqn:Hk; simpl.
    + by rewrite (Keq_other k key key').
    + by rewrite IH.
Qed.

Lemma Map_Load_Delete_other m key key' :
  Keq key key' = false →
  AnyKey.Map_Load Keq (AnyKey.Map_Delete Keq m key) key'
  = AnyKey.Map_Load Keq m key'.
Proof.
  intros Hne. induction m as [|[k v] m IH]; simpl; [done|].
  destruct (Keq k key) eqn:Hk; simpl.
  - by rewrite (Keq_other k key key').
  - by rewrite IH.
Qed.

(** Reading a key after the shard of [key] was replaced by [b]. *)
Lemma AnyKey_Load_set_sharding c key b0 b key' :
  AnyKey.wf c →
  AnyKey.GetSharding hash c key = Some b0 →
  AnyKey.Map_Load Keq b key' = AnyKey.Map_Load Keq b0 key' →
  AnyKey.Load Keq hash (AnyKey.set_sharding hash c key b) key'
  = AnyKey.Load Keq hash c key'.
Proof.
  intros Hwf Hb0 Hsame.
  pose proof (AnyKey_GetSharding_index_range c key Hwf) as Hi.
  pose proof Hwf as (k & Hk & Hnum & Hlen).
  unfold AnyKey.Load, AnyKey.GetSharding in *.
  change (AnyKey.GetSharding_index hash (AnyKey.set_sharding hash c key b) key')
    with (AnyKey.GetSharding_index hash c key').
  simpl.
  destruct (decide (Z.to_nat (AnyKey.GetSharding_index hash c key)
                    = Z.to_nat (AnyKey.GetSharding_index hash c key')))
    as [Heq|Hne].
  - rewrite <- Heq. rewrite list_lookup_insert_eq by lia.
    rewrite Hb0. simpl. by rewrite Hsame.
  - rewrite list_lookup_insert_ne by done. done.
Qed.

(** C10, as the code has it.  In every map a program can reach: after
    [Store(k, v)], [Load(k)] gives [(v, true)] when [k] equals itself,
    which every key does but one that holds a floating-point NaN; after
    [Delete(k)], [Load(k)] gives [ok = false]; and [Load] of every other
    key, one that does not equal [k], gives what it gave before. *)
Theorem ConcurrentMap_Store_Delete_Load size c :
  AnyKey.reachable Keq hash size c →
  ∀ key value,
    (∃ c', AnyKey.Store Keq hash c key value = Some c'
       ∧ (Keq key key = true →
            AnyKey.Load Keq hash c' key = Some (Some value))
       ∧ ∀ key', Keq key key' = false →
           AnyKey.Load Keq hash c' key' = AnyKey.Load Keq hash c key')
    ∧ (∃ c', AnyKey.Delete Keq hash c key = Some c'
         ∧ AnyKey.Load Keq hash c' key = Some None
         ∧ ∀ key', Keq key key' = false →
             AnyKey.Load Keq hash c' key' = AnyKey.Load Keq hash c key').
Proof.
  intros Hr key value. pose proof (AnyKey_reachable_wf size c Hr) as Hwf.
  pose proof (AnyKey_GetSharding_index_range c key Hwf) as Hi.
  destruct (AnyKey_GetSharding_Some c key Hwf) as [b Hb].
  pose proof Hwf as (k & Hk & Hnum & Hlen).
  assert (Hown : ∀ b', AnyKey.Load Keq hash (AnyKey.set_sharding hash c key b') key
                       = Some (AnyKey.Map_Load Keq b' key)).
  { intros b'. unfold AnyKey.Load, AnyKey.GetSharding.
    change (AnyKey.GetSharding_index hash (AnyKey.set_sharding hash c key b') key)
      with (AnyKey.GetSharding_index hash c key).
    simpl. rewrite list_lookup_insert_eq by lia. done. }
  unfold AnyKey.Store, AnyKey.Delete. rewrite Hb. simpl. split.
  - eexists. split; [done|]. split.
    + intros Hrefl. rewrite Hown. by rewrite Map_Load_Store.
    + intros key' Hne. apply (AnyKey_Load_set_sharding c key b); [done..|].
      by apply Map_Load_Store_other.
  - eexists. split; [done|]. split.
    + rewrite Hown. by rewrite Map_Load_Delete.
    + intros key' Hne. apply (AnyKey_Load_set_sharding c key b); [done..|].
      by apply Map_Load_Delete_other.
Qed.

End OtherKeys.
End AnyKeyFacts.

Lemma float_key_eq_sym a b : float_key_eq a b = true → float_key_eq b a = true.
Proof.
  destruct a, b; simpl; try done.
  rewrite !bool_decide_eq_true. congruence.
Qed.

Lemma float_key_eq_trans a b d :
  float_key_eq a b = true → float_key_eq b d = true → float_key_eq a d = true.
Proof.
  destruct a, b, d; simpl; try done.
  rewrite !bool_decide_eq_true. congruence.
Qed.

Lemma ConcurrentMap_Store_Delete_Load_witness :
  let c := @AnyKey.mk float_key nat 16 (replicate 16 []) in
  AnyKey.reachable float_key_eq float_key_hash [] c
  ∧ (∃ c', AnyKey.Store float_key_eq float_key_hash c (float_num 35) 7%nat
             = Some c'
       ∧ AnyKey.Load float_key_eq float_key_hash c' (float_num 35)
         = Some (Some 7%nat)
       ∧ AnyKey.Load float_key_eq float_key_hash c' float_NaN
         = AnyKey.Load float_key_eq float_key_hash c float_NaN)
  ∧ (∃ c', AnyKey.Delete float_key_eq float_key_hash c (float_num 35) = Some c'
       ∧ AnyKey.Load float_key_eq float_key_hash c' (float_num 35) = Some None).
Proof.
  intros c.
  assert (Hr : AnyKey.reachable float_key_eq float_key_hash [] c)
    by (apply AnyKey.reach_New; [constructor | reflexivity]).
  split; [exact Hr|].
  destruct (ConcurrentMap_Store_Delete_Load float_key_eq float_key_hash
              float_key_eq_sym float_key_eq_trans [] c Hr (float_num 35) 7%nat)
    as [(c1 & Hs & Hl & Ho) (c2 & Hd & Hl2 & _)].
  split.
  - exists c1. split; [exact Hs|]. split; [by apply Hl|]. by apply Ho.
  - exists c2. split; assumption.
Defined.

(** C10 as worded fails for a key that differs from itself: after
    [Store(NaN, 7)], [Load(NaN)] gives [ok = false], and the entry is in
    the map. *)
Lemma ConcurrentMap_NaN_counterexample :
  ∃ c c',
    AnyKey.NewConcurrentMap [] = Some c
    ∧ AnyKey.Store float_key_eq float_key_hash c float_NaN 7%nat = Some c'
    ∧ AnyKey.Load float_key_eq float_key_hash c' float_NaN = Some None
    ∧ AnyKey.Load float_key_eq float_key_hash c' float_NaN ≠ Some (Some 7%nat)
    ∧ AnyKey.Len c' = 1.
Proof.
  eexists _, _. split; [reflexivity|]. split; [reflexivity|].
  split; [reflexivity|]. split; [discriminate | reflexivity].
Qed.

(* ===================================================================== *)
(** * Further properties *)
(* ===================================================================== *)

(** ** The sliding window *)

(** X1. On every enabled window a program can reach, any sequence of
    writes succeeds, changes nothing but [dict], and leaves in it the
    last [size] bytes of what it held followed by all the payloads. *)
Theorem slideWindow_Writes_law c ps :
  slideWindow_reachable c →
  enabled c = true →
  ∃ c', slideWindow_Writes c ps = Some c'
        ∧ enabled c' = true
        ∧ size c' = size c
        ∧ dict c' = slice.last_n (size c) (dict c ++ concat ps).
Proof.
  intros Hr Hen. eexists. split.
  - apply slideWindow_Writes_enabled; [done|].
    by apply slideWindow_reachable_bounded.
  - simpl. done.
Qed.

Lemma slideWindow_Writes_law_witness :
  let c := slideWindow_initialize slideWindow_zero None 2 in
  slideWindow_reachable c
  ∧ enabled c = true
  ∧ ∃ c', slideWindow_Writes c [[Byte.x01; Byte.x02; Byte.x03]; []; [Byte.x04; Byte.x05]]
          = Some c'
          ∧ dict c' = [Byte.x02; Byte.x03; Byte.x04; Byte.x05].
Proof.
  intros c.
  assert (Hr : slideWindow_reachable c)
    by (apply reach_initialize; [lia | apply reach_zero]).
  split; [exact Hr|]. split; [reflexivity|].
  destruct (slideWindow_Writes_law c
              [[Byte.x01; Byte.x02; Byte.x03]; []; [Byte.x04; Byte.x05]]
              Hr eq_refl) as (c' & Hw & _ & _ & Hd).
  exists c'. split; [exact Hw|]. rewrite Hd. reflexivity.
Defined.

(** X2. Until the capacity is reached nothing is dropped: when the bytes
    held and the payloads together fit in [size], the window holds what
    it held followed by all the payloads. *)
Theorem slideWindow_Writes_fit c ps :
  slideWindow_reachable c →
  enabled c = true →
  slice.len (dict c) + slice.len (concat ps) <= size c →
  ∃ c', slideWindow_Writes c ps = Some c'
        ∧ dict c' = dict c ++ concat ps.
Proof.
  intros Hr Hen Hfit. eexists. split.
  - apply slideWindow_Writes_enabled; [done|].
    by apply slideWindow_reachable_bounded.
  - simpl. apply last_n_all. by rewrite len_app.
Qed.

Lemma slideWindow_Writes_fit_witness :
  let c := slideWindow_initialize slideWindow_zero None 3 in
  slideWindow_reachable c
  ∧ enabled c = true
  ∧ slice.len (dict c) + slice.len (concat [[Byte.x01; Byte.x02]; [Byte.x03]])
    <= size c
  ∧ ∃ c', slideWindow_Writes c [[Byte.x01; Byte.x02]; [Byte.x03]] = Some c'
          ∧ dict c' = [Byte.x01; Byte.x02; Byte.x03].
Proof.
  intros c.
  assert (Hr : slideWindow_reachable c)
    by (apply reach_initialize; [lia | apply reach_zero]).
  assert (Hfit : slice.len (dict c)
                 + slice.len (concat [[Byte.x01; Byte.x02]; [Byte.x03]])
                 <= size c) by (vm_compute; discriminate).
  split; [exact Hr|]. split; [reflexivity|]. split; [exact Hfit|].
  destruct (slideWindow_Writes_fit c [[Byte.x01; Byte.x02]; [Byte.x03]]
              Hr eq_refl Hfit) as (c' & Hw & Hd).
  exists c'. split; [exact Hw|]. rewrite Hd. reflexivity.
Defined.

(** X3. Only the bytes count, not how they are cut into calls of
    [Write]: two sequences of payloads with the same concatenation leave
    the same window. *)
Theorem slideWindow_Writes_chunking c ps qs :
  slideWindow_reachable c →
  enabled c = true →
  concat ps = concat qs →
  slideWindow_Writes c ps = slideWindow_Writes c qs
  ∧ is_Some (slideWindow_Writes c ps).
Proof.
  intros Hr Hen Hcat.
  pose proof (slideWindow_reachable_bounded c Hr) as Hb.
  rewrite !slideWindow_Writes_enabled by done. rewrite Hcat. done.
Qed.

Lemma slideWindow_Writes_chunking_witness :
  let c := slideWindow_initialize slideWindow_zero None 1 in
  slideWindow_reachable c
  ∧ enabled c = true
  ∧ slideWindow_Writes c [[Byte.x01; Byte.x02; Byte.x03]]
    = slideWindow_Writes c [[Byte.x01]; [Byte.x02; Byte.x03]].
Proof.
  intros c.
  assert (Hr : slideWindow_reachable c)
    by (apply reach_initialize; [lia | apply reach_zero]).
  split; [exact Hr|]. split; [reflexivity|].
  apply (slideWindow_Writes_chunking c
           [[Byte.x01; Byte.x02; Byte.x03]] [[Byte.x01]; [Byte.x02; Byte.x03]]
           Hr eq_refl eq_refl).
Defined.

(** X4. A window that is not enabled never takes bytes: whatever is
    written, it stays as it is. *)
Theorem slideWindow_Writes_disabled c ps :
  enabled c = false → slideWindow_Writes c ps = Some c.
Proof.
  intros Hen. induction ps as [|p ps IH]; [done|].
  simpl. rewrite slideWindow_Write_disabled by done. simpl. done.
Qed.

Lemma slideWindow_Writes_disabled_witness :
  enabled slideWindow_zero = false
  ∧ slideWindow_Writes slideWindow_zero [[Byte.x01]; [Byte.x02; Byte.x03]]
    = Some slideWindow_zero.
Proof.
  split; [reflexivity|].
  apply (slideWindow_Writes_disabled slideWindow_zero
           [[Byte.x01]; [Byte.x02; Byte.x03]] eq_refl).
Defined.

(** ** Negotiation *)

Lemma foldr_min_elem a x l : x ∈ l → foldr Z.min a l <= x.
Proof.
  induction l as [|y l IH]; [by intros ?%elem_of_nil|].
  intros [->|Hx]%elem_of_cons; simpl; [lia|]. specialize (IH Hx). lia.
Qed.

Lemma foldr_min_subset a l l' :
  (∀ x, x ∈ l → x ∈ l') → foldr Z.min a l' <= foldr Z.min a l.
Proof.
  induction l as [|y l IH]; intros Hsub; simpl.
  - apply foldr_min_le.
  - apply Z.min_glb.
    + apply foldr_min_elem, Hsub. by left.
    + apply IH. intros x Hx. apply Hsub. by right.
Qed.

Lemma foldr_min_same_elements a l l' :
  (∀ x, x ∈ l ↔ x ∈ l') → foldr Z.min a l = foldr Z.min a l'.
Proof.
  intros Hsame. apply Z.le_antisymm; apply foldr_min_subset;
    intros x; apply Hsame.
Qed.

(** The tokens leave the fields that are not negotiated alone. *)
Lemma negotiate_tokens_fixed ss : ∀ o o',
  negotiate_tokens o ss = Some o' →
  Enabled o' = Enabled o ∧ Threshold o' = Threshold o
  ∧ Level o' = Level o ∧ PoolSize o' = PoolSize o.
Proof.
  induction ss as [|s ss IH]; intros o o' Hn; simpl in Hn.
  - by injection Hn as <-.
  - destruct (negotiate_token o s) as [o1|] eqn:Ht; [|done]. simpl in Hn.
    destruct (IH _ _ Hn) as (-> & -> & -> & ->).
    unfold negotiate_token in Ht.
    destruct (strings.SplitN s "=" 2 !! 0%nat) as [key|]; [|done].
    simpl in Ht.
    repeat case_bool_decide;
      try destruct (strings.SplitN s "=" 2 !! 1%nat);
      simplify_eq/=; done.
Qed.

(** The values advertised for a parameter, as numbers, by tokens. *)
Lemma elem_of_advertised key (ss : list string) x :
  x ∈ window_bits_read <$> omap (token_value key) ss
  ↔ ∃ s v, s ∈ ss ∧ token_value key s = Some v ∧ x = window_bits_read v.
Proof.
  rewrite list_elem_of_fmap. split.
  - intros (v & -> & Hv). apply list_elem_of_omap in Hv as (s & Hs & Hv).
    eauto.
  - intros (s & v & Hs & Hv & ->). exists v. split; [done|].
    apply list_elem_of_omap. eauto.
Qed.

(** The result of the negotiation, field by field. *)
Lemma permessageNegotiation_fields str :
  permessageNegotiation str =
    Some (mkPermessageDeflate false
            (bool_decide (internal.ServerNoContextTakeover
                            ∉ token_name <$> internal.Split str ";"))
            (bool_decide (internal.ClientNoContextTakeover
                            ∉ token_name <$> internal.Split str ";"))
            (spec_window_bits
               (window_bits_read
                  <$> advertised internal.ServerMaxWindowBits str))
            (spec_window_bits
               (window_bits_read
                  <$> advertised internal.ClientMaxWindowBits str))
            0 0 0).
Proof.
  unfold permessageNegotiation, advertised, spec_window_bits.
  set (o := mkPermessageDeflate false true true 15 15 0 0 0).
  destruct (negotiate_tokens_spec (internal.Split str ";") o)
    as (o' & E & Hs & Hc & Hst & Hct).
  destruct (negotiate_tokens_fixed _ _ _ E) as (He & Ht & Hl & Hp).
  rewrite E. simpl. destruct o' as [en sct cct s c th lv ps].
  simpl in *. subst. unfold internal.SelectValue.
  unfold set_ServerMaxWindowBits, set_ClientMaxWindowBits. simpl.
  do 2 f_equal; repeat case_bool_decide; lia.
Qed.

(** X5. The result of the negotiation depends on the set of tokens
    only: their order and their repetition make no difference. *)
Theorem permessageNegotiation_token_set str str' :
  (∀ s, s ∈ internal.Split str ";" ↔ s ∈ internal.Split str' ";") →
  permessageNegotiation str = permessageNegotiation str'.
Proof.
  intros Hsame. rewrite !permessageNegotiation_fields.
  assert (Hnames : ∀ x, x ∈ token_name <$> internal.Split str ";"
                        ↔ x ∈ token_name <$> internal.Split str' ";").
  { intros x. rewrite !list_elem_of_fmap.
    split; intros (s & -> & Hs); exists s; (split; [done|]); by apply Hsame. }
  assert (Hadv : ∀ key x,
            x ∈ window_bits_read <$> advertised key str
            ↔ x ∈ window_bits_read <$> advertised key str').
  { intros key x. unfold advertised. rewrite !elem_of_advertised.
    split; intros (s & v & Hs & Hv & ->); exists s, v;
      (split; [by apply Hsame | done]). }
  unfold spec_window_bits.
  rewrite (foldr_min_same_elements 15 _ _ (Hadv internal.ServerMaxWindowBits)).
  rewrite (foldr_min_same_elements 15 _ _ (Hadv internal.ClientMaxWindowBits)).
  do 2 f_equal; apply bool_decide_ext; by rewrite Hnames.
Qed.

Lemma permessageNegotiation_token_set_witness :
  (∀ s, s ∈ internal.Split "server_max_window_bits=10; client_no_context_takeover" ";"
        ↔ s ∈ internal.Split
                "client_no_context_takeover;server_max_window_bits=10 ;client_no_context_takeover" ";")
  ∧ permessageNegotiation "server_max_window_bits=10; client_no_context_takeover"
    = permessageNegotiation
        "client_no_context_takeover;server_max_window_bits=10 ;client_no_context_takeover".
Proof.
  assert (Hsame : ∀ s,
    s ∈ internal.Split "server_max_window_bits=10; client_no_context_takeover" ";"
    ↔ s ∈ internal.Split
            "client_no_context_takeover;server_max_window_bits=10 ;client_no_context_takeover" ";").
  { intros s. vm_compute internal.Split.
    rewrite !elem_of_cons, !elem_of_nil. tauto. }
  split; [exact Hsame|].
  apply (permessageNegotiation_token_set _ _ Hsame).
Defined.

(** X6. More tokens only narrow the result: when every token of one
    header is a token of another, the other negotiates window bits that
    are not larger, and keeps no context takeover the first one gave up. *)
Theorem permessageNegotiation_narrows str str' pd pd' :
  (∀ s, s ∈ internal.Split str ";" → s ∈ internal.Split str' ";") →
  permessageNegotiation str = Some pd →
  permessageNegotiation str' = Some pd' →
  ServerMaxWindowBits pd' <= ServerMaxWindowBits pd
  ∧ ClientMaxWindowBits pd' <= ClientMaxWindowBits pd
  ∧ (ServerContextTakeover pd' = true → ServerContextTakeover pd = true)
  ∧ (ClientContextTakeover pd' = true → ClientContextTakeover pd = true).
Proof.
  intros Hsub. rewrite !permessageNegotiation_fields.
  intros [= <-] [= <-]. simpl.
  assert (Hnames : ∀ x, x ∈ token_name <$> internal.Split str ";"
                        → x ∈ token_name <$> internal.Split str' ";").
  { intros x. rewrite !list_elem_of_fmap.
    intros (s & -> & Hs). exists s. split; [done|]. by apply Hsub. }
  assert (Hadv : ∀ key x,
            x ∈ window_bits_read <$> advertised key str
            → x ∈ window_bits_read <$> advertised key str').
  { intros key x. unfold advertised. rewrite !elem_of_advertised.
    intros (s & v & Hs & Hv & ->). exists s, v. split; [by apply Hsub | done]. }
  unfold spec_window_bits.
  pose proof (foldr_min_subset 15 _ _ (Hadv internal.ServerMaxWindowBits)).
  pose proof (foldr_min_subset 15 _ _ (Hadv internal.ClientMaxWindowBits)).
  split; [lia|]. split; [lia|].
  rewrite !bool_decide_eq_true. split; intros Hnot Hin; apply Hnot, Hnames, Hin.
Qed.

Lemma permessageNegotiation_narrows_witness :
  (∀ s, s ∈ internal.Split "server_max_window_bits=12" ";"
        → s ∈ internal.Split
                "server_max_window_bits=12; server_max_window_bits=9; server_no_context_takeover" ";")
  ∧ ∃ pd pd',
      permessageNegotiation "server_max_window_bits=12" = Some pd
      ∧ permessageNegotiation
          "server_max_window_bits=12; server_max_window_bits=9; server_no_context_takeover"
        = Some pd'
      ∧ ServerMaxWindowBits pd' <= ServerMaxWindowBits pd.
Proof.
  assert (Hsub : ∀ s,
    s ∈ internal.Split "server_max_window_bits=12" ";"
    → s ∈ internal.Split
            "server_max_window_bits=12; server_max_window_bits=9; server_no_context_takeover" ";").
  { intros s. vm_compute internal.Split.
    rewrite !elem_of_cons, !elem_of_nil. tauto. }
  split; [exact Hsub|]. do 2 eexists.
  split; [vm_compute; reflexivity|]. split; [vm_compute; reflexivity|].
  apply (permessageNegotiation_narrows _ _ _ _ Hsub eq_refl eq_refl).
Defined.

(** X7. For window bits in [8,15], negotiating the generated request
    header gives back the two context takeover flags and the two window
    bits: the bare [client_max_window_bits] of a request changes
    nothing. *)
Theorem permessageNegotiation_genRequestHeader pd :
  8 <= ServerMaxWindowBits pd <= 15 →
  8 <= ClientMaxWindowBits pd <= 15 →
  ∃ pd', permessageNegotiation (genRequestHeader pd) = Some pd'
    ∧ ServerContextTakeover pd' = ServerContextTakeover pd
    ∧ ClientContextTakeover pd' = ClientContextTakeover pd
    ∧ ServerMaxWindowBits pd' = ServerMaxWindowBits pd
    ∧ ClientMaxWindowBits pd' = ClientMaxWindowBits pd.
Proof.
  destruct pd as [en sct cct s c th lv ps]. simpl. intros Hs Hc.
  assert (Es : s = 8 ∨ s = 9 ∨ s = 10 ∨ s = 11 ∨ s = 12 ∨ s = 13 ∨ s = 14 ∨ s = 15)
    by lia.
  assert (Ec : c = 8 ∨ c = 9 ∨ c = 10 ∨ c = 11 ∨ c = 12 ∨ c = 13 ∨ c = 14 ∨ c = 15)
    by lia.
  clear Hs Hc.
  destruct sct, cct;
    repeat (destruct Es as [->|Es]); try subst s;
    repeat (destruct Ec as [->|Ec]); try subst c;
    (eexists; split; [vm_compute; reflexivity | repeat split]).
Qed.

Lemma permessageNegotiation_genRequestHeader_witness :
  8 <= 15 <= 15 ∧ 8 <= 15 <= 15 ∧
  genRequestHeader (mkPermessageDeflate true true true 15 15 512 1 64)
  = "permessage-deflate; client_max_window_bits"
  ∧ ∃ pd', permessageNegotiation
             (genRequestHeader (mkPermessageDeflate true true true 15 15 512 1 64))
           = Some pd'
      ∧ ServerContextTakeover pd' = true
      ∧ ClientContextTakeover pd' = true
      ∧ ServerMaxWindowBits pd' = 15
      ∧ ClientMaxWindowBits pd' = 15.
Proof.
  split; [lia|]. split; [lia|]. split; [reflexivity|].
  apply (permessageNegotiation_genRequestHeader
           (mkPermessageDeflate true true true 15 15 512 1 64)); simpl; lia.
Defined.

(** ** limitedReader and deflater *)

Lemma limitedReader_Read_prefix r : ∀ n m,
  reader_bytes (limitedReader_Read r n m) `prefix_of` reader_bytes r.
Proof.
  induction r as [p err|p next IH]; intros n m; simpl.
  - by case_bool_decide.
  - case_bool_decide; simpl; [by apply prefix_app_r|]. apply prefix_app, IH.
Qed.

Lemma limitedReader_Read_within r : ∀ n m,
  n + slice.len (reader_bytes r) <= m → limitedReader_Read r n m = r.
Proof.
  induction r as [p err|p next IH]; intros n m; simpl.
  - intros H. by rewrite bool_decide_eq_false_2 by lia.
  - rewrite len_app. intros H. pose proof (len_nonneg (reader_bytes next)).
    rewrite bool_decide_eq_false_2 by lia. f_equal. apply IH. lia.
Qed.

Lemma limitedReader_Read_over r : ∀ n m,
  n + slice.len (reader_bytes r) > m →
  reader_err (limitedReader_Read r n m) = internal.CloseMessageTooLarge
  ∧ n + slice.len (reader_bytes (limitedReader_Read r n m)) > m.
Proof.
  induction r as [p err|p next IH]; intros n m; simpl.
  - intros H. by rewrite bool_decide_eq_true_2 by lia.
  - rewrite len_app. intros H.
    destruct (decide (n + slice.len p > m)) as [H1|H1].
    + by rewrite bool_decide_eq_true_2 by done.
    + rewrite bool_decide_eq_false_2 by done. simpl. rewrite len_app.
      destruct (IH (n + slice.len p) m) as [He Hn]; [lia|]. split; [done|lia].
Qed.

(** X8. A limited reader serves the reads of the reader it wraps,
    unchanged, when their bytes stay within the limit; otherwise it
    serves a prefix of the bytes, longer than the limit, and ends with
    [CloseMessageTooLarge]. *)
Theorem limitReader_reads r limit :
  reader_bytes (limitReader r limit) `prefix_of` reader_bytes r
  ∧ (slice.len (reader_bytes r) <= limit → limitReader r limit = r)
  ∧ (slice.len (reader_bytes r) > limit →
       reader_err (limitReader r limit) = internal.CloseMessageTooLarge
       ∧ slice.len (reader_bytes (limitReader r limit)) > limit).
Proof.
  unfold limitReader. split; [apply limitedReader_Read_prefix|]. split.
  - intros H. apply limitedReader_Read_within. lia.
  - intros H. destruct (limitedReader_Read_over r 0 limit) as [He Hn]; [lia|].
    split; [done|lia].
Qed.

Lemma limitReader_reads_witness :
  let r := ReadOk [Byte.x01; Byte.x02]
             (ReadOk [Byte.x03; Byte.x04] (ReadErr [Byte.x05] io_EOF)) in
  (slice.len (reader_bytes r) <= 5 ∧ limitReader r 5 = r)
  ∧ (slice.len (reader_bytes r) > 3
     ∧ reader_err (limitReader r 3) = StatusCode 1009
     ∧ slice.len (reader_bytes (limitReader r 3)) > 3).
Proof.
  intros r.
  assert (H5 : slice.len (reader_bytes r) <= 5) by (vm_compute; discriminate).
  assert (H3 : slice.len (reader_bytes r) > 3) by (vm_compute; reflexivity).
  destruct (limitReader_reads r 5) as (_ & Hin & _).
  destruct (limitReader_reads r 3) as (_ & _ & Hover).
  split; [split; [exact H5 | exact (Hin H5)]|].
  split; [exact H3 | exact (Hover H3)].
Defined.

Section MoreDeflaterFacts.
Context {flate : Flate}.

(** X9. [Decompress] returns a buffer only when the inflate reader
    ended its data with [io.EOF]; the buffer then holds all the inflated
    bytes and is no longer than the limit. *)
Theorem deflater_Decompress_buffer c src dict b err :
  (deflater_Decompress c src dict).2 = (Some b, err) →
  let r := flate_Reset dict (src ++ flateTail) in
  err = None
  ∧ reader_err r = io_EOF
  ∧ b = reader_bytes r
  ∧ slice.len b <= limit c.
Proof.
  intros Hres r. rewrite deflater_Decompress_result in Hres. fold r in Hres.
  case_bool_decide as Hlim; [done|].
  case_bool_decide as Heof; [|done].
  simpl in Hres. injection Hres as <- <-. repeat split; [done|lia].
Qed.

(** X10. A call of [Decompress] leaves nothing behind for the next one:
    whatever the first call was given and however it ended, the limit
    and the writer of the deflater are the same afterwards, and a second
    call returns what it returns on the deflater as it was. *)
Theorem deflater_Decompress_twice c src1 dict1 src2 dict2 :
  let c1 := (deflater_Decompress c src1 dict1).1 in
  limit c1 = limit c
  ∧ cpsWriter c1 = cpsWriter c
  ∧ (deflater_Decompress c1 src2 dict2).2 = (deflater_Decompress c src2 dict2).2.
Proof.
  intros c1.
  assert (Hc1 : limit c1 = limit c ∧ cpsWriter c1 = cpsWriter c).
  { unfold c1. rewrite deflater_Decompress_result.
    repeat case_bool_decide; done. }
  destruct Hc1 as [Hl Hw]. split; [done|]. split; [done|].
  clearbody c1.
  rewrite (deflater_Decompress_result c1), (deflater_Decompress_result c).
  simpl. rewrite Hl.
  destruct (bool_decide (_ > _)); [done|].
  destruct (bool_decide (_ = io_EOF)); done.
Qed.

(** X11. When the writer does not fail, [Compress] leaves in [dst] a
    prefix of what it held followed by the bytes written, at most 4 bytes
    shorter; and when at least 4 bytes were written, what [dst] held
    before is kept whole. *)
Theorem deflater_Compress_keeps c src dst dict out1 out2 :
  flate_Write (cpsWriter c) dict src = (out1, None) →
  flate_Flush (cpsWriter c) dict src = (out2, None) →
  let full := dst ++ out1 ++ out2 in
  let res := deflater_Compress c src dst dict in
  res.2 = None
  ∧ res.1 `prefix_of` full
  ∧ slice.len full - 4 <= slice.len res.1
  ∧ (slice.len (out1 ++ out2) >= 4 → dst `prefix_of` res.1).
Proof.
  intros Hw Hf full res. unfold res, deflater_Compress.
  rewrite Hw, Hf, <- !app_assoc. fold full.
  assert (Hfull : slice.len full = slice.len dst + slice.len (out1 ++ out2))
    by (unfold full; by rewrite len_app).
  pose proof (len_nonneg dst) as Hdst. unfold slice.len in *.
  case_bool_decide as Hn; [case_bool_decide as Ht|]; simpl.
  - split; [done|]. split; [apply prefix_take|].
    rewrite length_take. split; [lia|]. intros Hout.
    exists (take (Z.to_nat (Z.of_nat (length (out1 ++ out2)) - 4)) (out1 ++ out2)).
    clear Ht. unfold full in *. rewrite !length_app in *. rewrite take_app.
    rewrite take_ge by lia. do 2 f_equal. lia.
  - split; [done|]. split; [done|]. split; [lia|]. intros _. by exists (out1 ++ out2).
  - split; [done|]. split; [done|]. split; [lia|]. intros _. by exists (out1 ++ out2).
Qed.

End MoreDeflaterFacts.

Lemma deflater_Decompress_buffer_witness :
  let c := mkDeflater 1024 [] (NewWriter 1) in
  (@deflater_Decompress stored_Flate c [Byte.x68; Byte.x69] []).2
    = (Some ([Byte.x68; Byte.x69] ++ flateTail), None)
  ∧ slice.len ([Byte.x68; Byte.x69] ++ flateTail) <= limit c.
Proof.
  intros c.
  assert (Hres : (@deflater_Decompress stored_Flate c [Byte.x68; Byte.x69] []).2
                 = (Some ([Byte.x68; Byte.x69] ++ flateTail), None))
    by reflexivity.
  split; [exact Hres|].
  destruct (@deflater_Decompress_buffer stored_Flate c [Byte.x68; Byte.x69] []
              _ _ Hres) as (_ & _ & _ & Hlen).
  exact Hlen.
Defined.

Lemma deflater_Compress_keeps_witness :
  let c := deflater_initialize true
             (mkPermessageDeflate true true true 15 15 512 1 8) 1024 in
  let src := [Byte.x68; Byte.x69] in
  let dst := [Byte.x00; Byte.x00; Byte.xff; Byte.xff] in
  @flate_Write stored_Flate (cpsWriter c) [] src = (src, None)
  ∧ @flate_Flush stored_Flate (cpsWriter c) [] src
      = ([Byte.x00; Byte.x00; Byte.xff; Byte.xff], None)
  ∧ slice.len (src ++ [Byte.x00; Byte.x00; Byte.xff; Byte.xff]) >= 4
  ∧ dst `prefix_of` (@deflater_Compress stored_Flate c src dst []).1.
Proof.
  intros c src dst.
  destruct (@deflater_Compress_keeps stored_Flate c src dst []
              src [Byte.x00; Byte.x00; Byte.xff; Byte.xff]
              eq_refl eq_refl) as (_ & _ & _ & Hkeep).
  assert (Hout : slice.len (src ++ [Byte.x00; Byte.x00; Byte.xff; Byte.xff]) >= 4)
    by (vm_compute; discriminate).
  split; [reflexivity|]. split; [reflexivity|]. split; [exact Hout|].
  exact (Hkeep Hout).
Defined.

Section CompressThenDecompress.
Context {flate : Flate}.

(** X23. What [Compress] cuts off, [Decompress] puts back: when the
    flushed output of the writer ends in [00 00 FF FF] and [dst] was
    empty, the stream [Decompress] resets the inflate reader on, for the
    bytes [Compress] left, is the whole output of the writer followed by
    the final block [01 00 00 FF FF]. *)
Theorem deflater_Compress_Decompress_stream c src dict out1 out2 :
  flate_Write (cpsWriter c) dict src = (out1, None) →
  flate_Flush (cpsWriter c) dict src = (out2, None) →
  ends_with_tail (out1 ++ out2) →
  let compressed := (deflater_Compress c src [] dict).1 in
  let stream := (out1 ++ out2) ++ [Byte.x01; Byte.x00; Byte.x00; Byte.xff; Byte.xff] in
  compressed ++ flateTail = stream
  ∧ ∀ c' dict',
      (deflater_Decompress c' compressed dict').2
      = let r := flate_Reset dict' stream in
        if bool_decide (slice.len (reader_bytes r) > limit c')
        then (None, Some internal.CloseMessageTooLarge)
        else if bool_decide (reader_err r = io_EOF)
             then (Some (reader_bytes r), None)
             else (None, Some (reader_err r)).
Proof.
  intros Hw Hf Htail compressed stream.
  assert (Hcat : compressed ++ flateTail = stream).
  { unfold compressed, stream, deflater_Compress. rewrite Hw, Hf. simpl.
    apply tail_test_ends_with_tail in Htail as [Hn Ht].
    rewrite bool_decide_eq_true_2 by done.
    rewrite bool_decide_eq_true_2 by done. simpl.
    destruct (proj1 (tail_test_ends_with_tail (out1 ++ out2)) (conj Hn Ht))
      as [pre Hpre].
    rewrite Hpre. unfold slice.len. rewrite length_app. simpl.
    replace (Z.to_nat (Z.of_nat (length pre + 4) - 4)) with (length pre) by lia.
    rewrite take_app_length. unfold flateTail. by rewrite <- app_assoc. }
  split; [done|]. intros c' dict'.
  rewrite deflater_Decompress_result. simpl. rewrite Hcat.
  destruct (bool_decide (_ > _)); [done|].
  destruct (bool_decide (_ = io_EOF)); done.
Qed.

End CompressThenDecompress.

Lemma deflater_Compress_Decompress_stream_witness :
  let c := deflater_initialize true
             (mkPermessageDeflate true true true 15 15 512 1 8) 1024 in
  let src := [Byte.x68; Byte.x69] in
  @flate_Write stored_Flate (cpsWriter c) [] src = (src, None)
  ∧ @flate_Flush stored_Flate (cpsWriter c) [] src
      = ([Byte.x00; Byte.x00; Byte.xff; Byte.xff], None)
  ∧ ends_with_tail (src ++ [Byte.x00; Byte.x00; Byte.xff; Byte.xff])
  ∧ (@deflater_Compress stored_Flate c src [] []).1 ++ flateTail
    = (src ++ [Byte.x00; Byte.x00; Byte.xff; Byte.xff])
        ++ [Byte.x01; Byte.x00; Byte.x00; Byte.xff; Byte.xff].
Proof.
  intros c src.
  assert (Ht : ends_with_tail (src ++ [Byte.x00; Byte.x00; Byte.xff; Byte.xff]))
    by (by exists src).
  split; [reflexivity|]. split; [reflexivity|]. split; [exact Ht|].
  destruct (@deflater_Compress_Decompress_stream stored_Flate c src []
              src [Byte.x00; Byte.x00; Byte.xff; Byte.xff]
              eq_refl eq_refl Ht) as [Hcat _].
  exact Hcat.
Defined.

(** ** deflaterPool *)

Lemma Z_land_bounds a b : 0 <= a → 0 <= b → 0 <= Z.land a b <= b.
Proof.
  intros Ha Hb. rewrite <- (Z2N.id a), <- (Z2N.id b) by done.
  rewrite <- N2Z.inj_land.
  pose proof (N.land_le_r (Z.to_N a) (Z.to_N b)). lia.
Qed.

(** X12. For every pool size from 1 on, a power of two or not, [Select]
    does not panic: it returns a pointer of the pool, to a deflater as
    [initialize] made them, with the limit given, and increments the
    serial. *)
Theorem deflaterPool_Select_total options limit h s :
  1 <= PoolSize options < 2 ^ 63 →
  let c := (deflaterPool.initialize deflaterPool.zero options limit h).1 in
  let h' := (deflaterPool.initialize deflaterPool.zero options limit h).2 in
  ∃ p,
    deflaterPool.Select (deflaterPool.set_serial c s) =
      Some (p, deflaterPool.set_serial c ((s + 1) mod 2 ^ 64))
    ∧ deflaterPool.pool c
        !! Z.to_nat (deflaterPool.Select_index (deflaterPool.set_serial c s))
      = Some p
    ∧ h' !! p = Some (deflater_initialize true options limit)
    ∧ 0 <= deflaterPool.Select_index (deflaterPool.set_serial c s)
        < PoolSize options.
Proof.
  intros Hp c h'. unfold c, h'.
  rewrite deflaterPool_initialize_spec by lia. simpl. clear c h'.
  set (c := deflaterPool.mk 0 (PoolSize options) _).
  assert (Hidx : 0 <= deflaterPool.Select_index (deflaterPool.set_serial c s)
                 < PoolSize options).
  { unfold deflaterPool.Select_index.
    cbn [deflaterPool.serial deflaterPool.num deflaterPool.set_serial c].
    rewrite (Z.mod_small (PoolSize options - 1)) by lia.
    pose proof (Z.mod_pos_bound (s + 1) (2 ^ 64)).
    pose proof (Z_land_bounds ((s + 1) mod 2 ^ 64) (PoolSize options - 1)).
    lia. }
  set (j := deflaterPool.Select_index (deflaterPool.set_serial c s)) in *.
  exists (length h + Z.to_nat j)%nat.
  assert (Hlook : deflaterPool.pool c !! Z.to_nat j
                  = Some (length h + Z.to_nat j)%nat).
  { unfold c. simpl. apply lookup_seq. split; [done|lia]. }
  split; [|split; [done|split; [|done]]].
  - unfold deflaterPool.Select. fold j.
    cbn [deflaterPool.pool deflaterPool.set_serial deflaterPool.serial].
    rewrite Hlook. done.
  - rewrite lookup_app_r by lia. apply lookup_replicate_2. lia.
Qed.

Lemma deflaterPool_Select_total_witness :
  let options := mkPermessageDeflate true true true 15 15 512 1 3 in
  let c := (deflaterPool.initialize deflaterPool.zero options 1024 []).1 in
  let h' := (deflaterPool.initialize deflaterPool.zero options 1024 []).2 in
  1 <= PoolSize options < 2 ^ 63
  ∧ ∃ p,
      deflaterPool.Select (deflaterPool.set_serial c 7) =
        Some (p, deflaterPool.set_serial c 8)
      ∧ h' !! p = Some (deflater_initialize true options 1024).
Proof.
  intros options c h'.
  assert (Hp : 1 <= PoolSize options < 2 ^ 63) by (simpl; lia).
  split; [exact Hp|].
  destruct (deflaterPool_Select_total options 1024 [] 7 Hp)
    as (p & Hs & _ & Hh & _).
  exists p. split; [exact Hs | exact Hh].
Defined.

(** X13. A pool initialised with [PoolSize = 0] holds no deflater, and
    every [Select] on it panics with an index out of range. *)
Theorem deflaterPool_Select_empty options limit h s :
  PoolSize options = 0 →
  let c := (deflaterPool.initialize deflaterPool.zero options limit h).1 in
  deflaterPool.pool c = []
  ∧ deflaterPool.Select (deflaterPool.set_serial c s) = None.
Proof.
  intros Hp c.
  assert (Hpool : deflaterPool.pool c = []).
  { unfold c. rewrite deflaterPool_initialize_spec by lia. simpl.
    by rewrite Hp. }
  split; [done|]. unfold deflaterPool.Select.
  cbn [deflaterPool.pool deflaterPool.set_serial]. rewrite Hpool. done.
Qed.

Lemma deflaterPool_Select_empty_witness :
  let options := mkPermessageDeflate true true true 15 15 512 1 0 in
  PoolSize options = 0
  ∧ deflaterPool.Select
      (deflaterPool.set_serial
         (deflaterPool.initialize deflaterPool.zero options 1024 []).1 0)
    = None.
Proof.
  intros options. split; [reflexivity|].
  destruct (deflaterPool_Select_empty options 1024 [] 0 eq_refl) as [_ Hs].
  exact Hs.
Defined.

(** A mask that is not all ones has a zero bit below its top bit. *)
Lemma mask_zero_bit m :
  0 < m → (∀ k, m + 1 ≠ 2 ^ k) →
  ∃ b, 0 <= b < Z.log2 m ∧ Z.testbit m b = false.
Proof.
  intros Hm Hnot.
  pose proof (Z.log2_nonneg m) as Hk.
  pose proof (Z.log2_spec m Hm) as Hspec.
  set (k := Z.log2 m) in *.
  set (d := Z.ldiff (Z.ones (k + 1)) m).
  assert (Hones : Z.ones (k + 1) = 2 ^ (k + 1) - 1)
    by (rewrite Z.ones_equiv; lia).
  assert (Hd0 : 0 <= d).
  { apply Z.ldiff_nonneg. left. rewrite Hones.
    assert (0 < 2 ^ (k + 1)) by (apply Z.pow_pos_nonneg; lia). lia. }
  assert (Hd : d ≠ 0).
  { intros Hz. apply Z.ldiff_le in Hz; [|lia].
    apply (Hnot (k + 1)). replace (Z.succ k) with (k + 1) in Hspec by lia. lia. }
  assert (Hbit : Z.testbit d (Z.log2 d) = true) by (apply Z.bit_log2; lia).
  pose proof (Z.log2_nonneg d) as Hb.
  unfold d in Hbit at 1. rewrite Z.ldiff_spec in Hbit.
  apply andb_true_iff in Hbit as [Ho Hmb].
  apply negb_true_iff in Hmb.
  apply Z.ones_spec_iff in Ho; [|lia].
  exists (Z.log2 d). split; [|done]. split; [done|].
  destruct (decide (Z.log2 d = k)) as [Heq|]; [|lia].
  rewrite Heq in Hmb. unfold k in Hmb. rewrite Z.bit_log2 in Hmb by done. done.
Qed.

(** X22. In a pool whose size is not a power of two, [Select] never
    returns the deflater at some index of the pool, whatever the
    serial. *)
Theorem deflaterPool_Select_skips options limit h :
  1 <= PoolSize options < 2 ^ 63 →
  (∀ k, PoolSize options ≠ 2 ^ k) →
  let c := (deflaterPool.initialize deflaterPool.zero options limit h).1 in
  ∃ j, 0 <= j < slice.len (deflaterPool.pool c)
       ∧ ∀ s, deflaterPool.Select_index (deflaterPool.set_serial c s) ≠ j.
Proof.
  intros Hp Hnot c. unfold c.
  rewrite deflaterPool_initialize_spec by lia. simpl. clear c.
  assert (Hlen : slice.len (seq (length h) (Z.to_nat (PoolSize options)))
                 = PoolSize options).
  { unfold slice.len. rewrite length_seq. lia. }
  assert (Hm : 0 < PoolSize options - 1).
  { destruct (decide (PoolSize options = 1)) as [H1|]; [|lia].
    destruct (Hnot 0). by rewrite H1. }
  destruct (mask_zero_bit (PoolSize options - 1) Hm) as (b & Hb & Hbit).
  { intros k. replace (PoolSize options - 1 + 1) with (PoolSize options) by lia.
    apply Hnot. }
  pose proof (Z.log2_spec _ Hm) as Hspec.
  assert (2 ^ b < 2 ^ Z.log2 (PoolSize options - 1))
    by (apply Z.pow_lt_mono_r; lia).
  assert (0 < 2 ^ b) by (apply Z.pow_pos_nonneg; lia).
  exists (2 ^ b). rewrite Hlen. split; [lia|]. intros s Hidx.
  unfold deflaterPool.Select_index in Hidx.
  cbn [deflaterPool.serial deflaterPool.num deflaterPool.set_serial] in Hidx.
  rewrite (Z.mod_small (PoolSize options - 1)) in Hidx by lia.
  assert (Ht : Z.testbit (2 ^ b) b = true) by (apply Z.pow2_bits_true; lia).
  rewrite <- Hidx, Z.land_spec, Hbit, andb_false_r in Ht. done.
Qed.

Lemma deflaterPool_Select_skips_witness :
  let options := mkPermessageDeflate true true true 15 15 512 1 6 in
  let c := (deflaterPool.initialize deflaterPool.zero options 1024 []).1 in
  1 <= PoolSize options < 2 ^ 63
  ∧ (∀ k, PoolSize options ≠ 2 ^ k)
  ∧ ∃ j, 0 <= j < slice.len (deflaterPool.pool c)
         ∧ ∀ s, deflaterPool.Select_index (deflaterPool.set_serial c s) ≠ j.
Proof.
  intros options c.
  assert (Hp : 1 <= PoolSize options < 2 ^ 63) by (simpl; lia).
  assert (Hnot : ∀ k, PoolSize options ≠ 2 ^ k).
  { simpl. intros k Hk.
    destruct (decide (k < 0)) as [Hneg|Hpos].
    - rewrite Z.pow_neg_r in Hk by done. done.
    - destruct (decide (k <= 2)) as [Hle|Hgt].
      + assert (Hcases : k = 0 ∨ k = 1 ∨ k = 2) by lia.
        destruct Hcases as [Hc|[Hc|Hc]]; subst k; done.
      + assert (2 ^ 3 <= 2 ^ k) by (apply Z.pow_le_mono_r; lia). lia. }
  split; [exact Hp|]. split; [exact Hnot|].
  exact (deflaterPool_Select_skips options 1024 [] Hp Hnot).
Defined.

(** ** ConcurrentMap as one map *)

Section ShardFacts.
Context {K : Type} `{Countable K} {V : Type}.
Implicit Types l : list (gmap K V).

(** Lists of shards in which the keys of the shard at position [i] are
    the keys that [r] sends to [off + i]. *)
Lemma union_list_lookup_routed l (r : K → nat) : ∀ off j b key,
  (∀ i b' k, l !! i = Some b' → is_Some (b' !! k) → r k = (off + i)%nat) →
  l !! j = Some b → r key = (off + j)%nat →
  (⋃ l) !! key = b !! key.
Proof.
  induction l as [|b0 l IH]; intros off j b key Hr Hj Hkey; [done|].
  simpl. destruct j as [|j]; simpl in Hj.
  - injection Hj as ->. destruct (b !! key) as [x|] eqn:Hb.
    + by apply lookup_union_Some_l.
    + rewrite lookup_union_r by done.
      apply lookup_union_list_None_2, list.Forall_forall. intros m Hm.
      apply list_elem_of_lookup in Hm as [i Hi].
      destruct (m !! key) eqn:Hmk; [|done].
      specialize (Hr (S i) m key Hi). rewrite Hmk in Hr.
      specialize (Hr (mk_is_Some _ _ eq_refl)). lia.
  - assert (b0 !! key = None) as Hb0.
    { destruct (b0 !! key) eqn:Hb0; [|done].
      specialize (Hr 0%nat b0 key eq_refl). rewrite Hb0 in Hr.
      specialize (Hr (mk_is_Some _ _ eq_refl)). lia. }
    rewrite lookup_union_r by done.
    apply (IH (S off) j); [|done|lia].
    intros i b' k Hi Hk. specialize (Hr (S i) b' k Hi Hk). lia.
Qed.

Lemma union_list_disjoint_routed b0 l (r : K → nat) off :
  (∀ i b' k, (b0 :: l) !! i = Some b' → is_Some (b' !! k) →
             r k = (off + i)%nat) →
  b0 ##ₘ ⋃ l.
Proof.
  intros Hr. apply map_disjoint_spec. intros k x y Hx Hy.
  apply lookup_union_list_Some_1 in Hy as (m & Hm & Hy).
  apply list_elem_of_lookup in Hm as [i Hi].
  pose proof (Hr 0%nat b0 k eq_refl (mk_is_Some _ _ Hx)).
  pose proof (Hr (S i) m k Hi (mk_is_Some _ _ Hy)). lia.
Qed.

Lemma routed_tail b0 l (r : K → nat) off :
  (∀ i b' k, (b0 :: l) !! i = Some b' → is_Some (b' !! k) →
             r k = (off + i)%nat) →
  ∀ i b' k, l !! i = Some b' → is_Some (b' !! k) → r k = (S off + i)%nat.
Proof. intros Hr i b' k Hi Hk. specialize (Hr (S i) b' k Hi Hk). lia. Qed.

Lemma foldl_Map_Len_routed l (r : K → nat) : ∀ off a,
  (∀ i b' k, l !! i = Some b' → is_Some (b' !! k) → r k = (off + i)%nat) →
  foldl (λ length b, length + ConcurrentMap.Map_Len b) a l
    = a + Z.of_nat (base.size (⋃ l)).
Proof.
  induction l as [|b0 l IH]; intros off a Hr; simpl.
  - rewrite map_size_empty. lia.
  - rewrite (IH (S off)) by (by eapply routed_tail).
    rewrite map_size_disj_union by (by eapply union_list_disjoint_routed).
    unfold ConcurrentMap.Map_Len. lia.
Qed.

Lemma map_to_list_disj_union (m1 m2 : gmap K V) :
  m1 ##ₘ m2 → map_to_list (m1 ∪ m2) ≡ₚ map_to_list m1 ++ map_to_list m2.
Proof.
  intros Hdisj. apply NoDup_Permutation.
  - apply NoDup_map_to_list.
  - apply list.NoDup_app. split; [apply NoDup_map_to_list|].
    split; [|apply NoDup_map_to_list].
    intros [k x] H1 H2. apply elem_of_map_to_list in H1, H2.
    by eapply (map_disjoint_spec m1 m2).
  - intros [k x]. rewrite elem_of_app, !elem_of_map_to_list.
    rewrite lookup_union_Some by done. done.
Qed.

Lemma Range_order_routed l (r : K → nat) :
  ∀ off (order : nat → gmap K V → list (K * V)),
  (∀ i m, order i m ≡ₚ map_to_list m) →
  (∀ i b' k, l !! i = Some b' → is_Some (b' !! k) → r k = (off + i)%nat) →
  concat (imap order l) ≡ₚ map_to_list (⋃ l).
Proof.
  induction l as [|b0 l IH]; intros off order Hord Hr; simpl.
  - by rewrite map_to_list_empty.
  - rewrite map_to_list_disj_union by (by eapply union_list_disjoint_routed).
    rewrite Hord. apply Permutation_app_head.
    apply (IH (S off)); [intros i m; apply Hord | by eapply routed_tail].
Qed.

End ShardFacts.

Section MoreConcurrentMapFacts.
Context {K : Type} `{Countable K} {V : Type} (hash : K → Z).

Abbreviation cmap := (@ConcurrentMap.t K _ _ V).
Implicit Types c : cmap.

Lemma routed_shards c :
  ConcurrentMap.routed hash c →
  ∀ i b' k, ConcurrentMap.shardings c !! i = Some b' → is_Some (b' !! k) →
            Z.to_nat (ConcurrentMap.GetSharding_index hash c k) = (0 + i)%nat.
Proof. intros Hr i b' k Hi Hk. by apply (Hr i b' k). Qed.

Lemma set_sharding_routed c key b0 b :
  ConcurrentMap.wf c →
  ConcurrentMap.routed hash c →
  ConcurrentMap.GetSharding hash c key = Some b0 →
  (∀ k, is_Some (b !! k) → k = key ∨ is_Some (b0 !! k)) →
  ConcurrentMap.routed hash (ConcurrentMap.set_sharding hash c key b).
Proof.
  intros Hwf Hr Hb0 Hb i b' k Hi Hk.
  change (ConcurrentMap.GetSharding_index hash
            (ConcurrentMap.set_sharding hash c key b) k)
    with (ConcurrentMap.GetSharding_index hash c k).
  simpl in Hi. apply list_lookup_insert_Some in Hi as [(<- & <- & _)|[Hne Hi]].
  - destruct (Hb k Hk) as [->|Hk0]; [done|].
    by apply (Hr _ b0 k Hb0).
  - by apply (Hr i b' k).
Qed.

(** Every key a shard holds is routed to that shard, in every map a
    program can reach. *)
Lemma reachable_routed size c :
  ConcurrentMap.reachable hash size c → ConcurrentMap.routed hash c.
Proof.
  induction 1 as [c Hsize Hnew|c key value c' Hr IH Hs|c key c' Hr IH Hd].
  - rewrite NewConcurrentMap_requested in Hnew by done. injection Hnew as <-.
    intros i b k Hi Hk. simpl in Hi.
    apply lookup_replicate in Hi as [-> _].
    rewrite lookup_empty in Hk. by destruct Hk.
  - pose proof (reachable_wf hash size c Hr) as Hwf.
    unfold ConcurrentMap.Store in Hs.
    destruct (ConcurrentMap.GetSharding hash c key) as [b0|] eqn:Hb0;
      simplify_eq/=.
    apply (set_sharding_routed c key b0); [done..|].
    intros k Hk. unfold ConcurrentMap.Map_Store in Hk.
    destruct (decide (k = key)) as [->|Hne]; [by left|].
    rewrite lookup_insert_ne in Hk by done. by right.
  - pose proof (reachable_wf hash size c Hr) as Hwf.
    unfold ConcurrentMap.Delete in Hd.
    destruct (ConcurrentMap.GetSharding hash c key) as [b0|] eqn:Hb0;
      simplify_eq/=.
    apply (set_sharding_routed c key b0); [done..|].
    intros k Hk. unfold ConcurrentMap.Map_Delete in Hk.
    destruct (decide (k = key)) as [->|Hne].
    + rewrite lookup_delete_eq in Hk. by destruct Hk.
    + rewrite lookup_delete_ne in Hk by done. by right.
Qed.

Lemma Load_flatten c key :
  ConcurrentMap.wf c → ConcurrentMap.routed hash c →
  ConcurrentMap.Load hash c key = Some (ConcurrentMap.flatten c !! key).
Proof.
  intros Hwf Hr. destruct (GetSharding_Some hash c key Hwf) as [b Hb].
  unfold ConcurrentMap.Load. rewrite Hb. simpl. f_equal.
  unfold ConcurrentMap.Map_Load, ConcurrentMap.flatten. symmetry.
  eapply (union_list_lookup_routed _
            (λ k, Z.to_nat (ConcurrentMap.GetSharding_index hash c k)) 0%nat);
    [by apply routed_shards | exact Hb | done].
Qed.

Lemma flatten_set_sharding size c key b0 b :
  ConcurrentMap.reachable hash size c →
  ConcurrentMap.GetSharding hash c key = Some b0 →
  (∀ k, k ≠ key → b !! k = b0 !! k) →
  (∀ k, is_Some (b !! k) → k = key ∨ is_Some (b0 !! k)) →
  ∀ k, ConcurrentMap.flatten (ConcurrentMap.set_sharding hash c key b) !! k
       = if decide (k = key) then b !! key
         else ConcurrentMap.flatten c !! k.
Proof.
  intros Hreach Hb0 Hother Hkeys k.
  pose proof (reachable_wf hash size c Hreach) as Hwf.
  pose proof (reachable_routed size c Hreach) as Hr.
  pose proof (Load_flatten c k Hwf Hr) as Hold.
  pose proof (Load_flatten (ConcurrentMap.set_sharding hash c key b) k
                (set_sharding_wf hash c key b Hwf)
                (set_sharding_routed c key b0 b Hwf Hr Hb0 Hkeys)) as Hnew.
  rewrite (Load_set_sharding hash c key b0 b k Hwf Hb0) in Hnew
    by (intros; by apply Hother).
  case_decide; [by injection Hnew as <-|].
  rewrite Hold in Hnew. by injection Hnew as <-.
Qed.

Lemma flatten_Store size c key value :
  ConcurrentMap.reachable hash size c →
  ∃ c', ConcurrentMap.Store hash c key value = Some c'
        ∧ ConcurrentMap.flatten c' = <[key := value]> (ConcurrentMap.flatten c).
Proof.
  intros Hreach. pose proof (reachable_wf hash size c Hreach) as Hwf.
  destruct (GetSharding_Some hash c key Hwf) as [b0 Hb0].
  unfold ConcurrentMap.Store. rewrite Hb0. simpl. eexists. split; [done|].
  apply map_eq. intros k.
  rewrite (flatten_set_sharding size c key b0); [|done..| |].
  2:{ intros k' Hk'. unfold ConcurrentMap.Map_Store.
      by rewrite lookup_insert_ne. }
  2:{ intros k' Hk'. unfold ConcurrentMap.Map_Store in Hk'.
      destruct (decide (k' = key)) as [->|]; [by left|].
      rewrite lookup_insert_ne in Hk' by done. by right. }
  unfold ConcurrentMap.Map_Store. case_decide as Hk.
  - subst k. by rewrite !lookup_insert_eq.
  - by rewrite lookup_insert_ne.
Qed.

Lemma flatten_Delete size c key :
  ConcurrentMap.reachable hash size c →
  ∃ c', ConcurrentMap.Delete hash c key = Some c'
        ∧ ConcurrentMap.flatten c' = delete key (ConcurrentMap.flatten c).
Proof.
  intros Hreach. pose proof (reachable_wf hash size c Hreach) as Hwf.
  destruct (GetSharding_Some hash c key Hwf) as [b0 Hb0].
  unfold ConcurrentMap.Delete. rewrite Hb0. simpl. eexists. split; [done|].
  apply map_eq. intros k.
  rewrite (flatten_set_sharding size c key b0); [|done..| |].
  2:{ intros k' Hk'. unfold ConcurrentMap.Map_Delete.
      by rewrite lookup_delete_ne. }
  2:{ intros k' Hk'. unfold ConcurrentMap.Map_Delete in Hk'.
      destruct (decide (k' = key)) as [->|]; [by left|].
      rewrite lookup_delete_ne in Hk' by done. by right. }
  unfold ConcurrentMap.Map_Delete. case_decide as Hk.
  - subst k. by rewrite !lookup_delete_eq.
  - by rewrite lookup_delete_ne.
Qed.

Lemma Len_flatten c :
  ConcurrentMap.routed hash c →
  ConcurrentMap.Len c = Z.of_nat (base.size (ConcurrentMap.flatten c)).
Proof.
  intros Hr. unfold ConcurrentMap.Len, ConcurrentMap.flatten.
  rewrite (foldl_Map_Len_routed _
             (λ k, Z.to_nat (ConcurrentMap.GetSharding_index hash c k)) 0%nat)
    by (by apply routed_shards).
  lia.
Qed.

End MoreConcurrentMapFacts.

Section RangeFacts.
Context {K : Type} `{Countable K} {V : Type} (hash : K → Z).

Abbreviation cmap' := (@ConcurrentMap.t K _ _ V).
Implicit Types c : cmap'.

Lemma Range_entries_cb_cons {St : Type} k v (l : list (K * V))
    (f : K → V → St → bool * St) b0 s :
  ConcurrentMap.Range_entries ((k, v) :: l) (ConcurrentMap.Range_cb f) (b0, s)
  = if (f k v s).1
    then ConcurrentMap.Range_entries l (ConcurrentMap.Range_cb f)
           (true, (f k v s).2)
    else (false, (f k v s).2).
Proof.
  cbn [ConcurrentMap.Range_entries]. unfold ConcurrentMap.Range_cb at 1.
  simpl. by destruct (f k v s) as [[] s1].
Qed.

(** One shard ranged over through the closure [cb]: the state is the one
    [f] itself leaves, and [next] tells whether the entries after the
    shard are still to be visited. *)
Lemma Range_cb_app {St : Type} (l rest : list (K * V))
    (f : K → V → St → bool * St) : ∀ s,
  (ConcurrentMap.Range_entries l (ConcurrentMap.Range_cb f) (true, s)).2
    = ConcurrentMap.Range_entries l f s
  ∧ ConcurrentMap.Range_entries (l ++ rest) f s
    = if (ConcurrentMap.Range_entries l (ConcurrentMap.Range_cb f) (true, s)).1
      then ConcurrentMap.Range_entries rest f
             (ConcurrentMap.Range_entries l (ConcurrentMap.Range_cb f) (true, s)).2
      else (ConcurrentMap.Range_entries l (ConcurrentMap.Range_cb f) (true, s)).2.
Proof.
  induction l as [|[k v] l IH]; intros s; [done|].
  rewrite Range_entries_cb_cons. cbn [ConcurrentMap.Range_entries app].
  destruct (f k v s) as [[] s1]; simpl; [apply IH | done].
Qed.

Lemma Range_loop_stopped {St : Type} order c (f : K → V → St → bool * St)
    rounds i s :
  ConcurrentMap.Range_loop order c f rounds i (false, s) = Some (false, s).
Proof. destruct rounds; simpl; [done|]. by rewrite andb_false_r. Qed.

Lemma Range_loop_entries {St : Type} order c (f : K → V → St → bool * St) :
  length (ConcurrentMap.shardings c) = Z.to_nat (ConcurrentMap.num c) →
  ∀ rounds i s,
    0 <= i → Z.of_nat rounds + i = ConcurrentMap.num c →
    ∃ st, ConcurrentMap.Range_loop order c f rounds i (true, s) = Some st
          ∧ st.2 = ConcurrentMap.Range_entries
                     (concat (drop (Z.to_nat i)
                                (imap order (ConcurrentMap.shardings c)))) f s.
Proof.
  intros Hlen. induction rounds as [|rounds IH]; intros i s Hi Hrounds.
  - simpl. eexists. split; [done|]. simpl.
    rewrite drop_ge by (rewrite length_imap; lia). done.
  - simpl. rewrite bool_decide_eq_true_2 by lia. simpl.
    destruct (lookup_lt_is_Some_2 (ConcurrentMap.shardings c) (Z.to_nat i))
      as [b Hb]; [lia|].
    rewrite Hb. simpl.
    assert (Hdrop : drop (Z.to_nat i) (imap order (ConcurrentMap.shardings c))
                    = order (Z.to_nat i) b
                      :: drop (Z.to_nat (i + 1))
                           (imap order (ConcurrentMap.shardings c))).
    { replace (Z.to_nat (i + 1)) with (S (Z.to_nat i)) by lia.
      apply drop_S. by rewrite list_lookup_imap, Hb. }
    rewrite Hdrop. simpl. unfold ConcurrentMap.Map_Range.
    destruct (Range_cb_app (order (Z.to_nat i) b)
                (concat (drop (Z.to_nat (i + 1))
                           (imap order (ConcurrentMap.shardings c)))) f s)
      as [Hst Happ].
    destruct (ConcurrentMap.Range_entries (order (Z.to_nat i) b)
                (ConcurrentMap.Range_cb f) (true, s)) as [next s1].
    simpl in Hst, Happ. rewrite Happ. destruct next.
    + apply IH; lia.
    + rewrite Range_loop_stopped. by eexists.
Qed.

Lemma Range_entries_through size c order {St : Type}
    (f : K → V → St → bool * St) s :
  ConcurrentMap.reachable hash size c →
  ConcurrentMap.Range order c f s
    = Some (ConcurrentMap.Range_entries (ConcurrentMap.Range_order order c) f s).
Proof.
  intros Hreach. destruct (reachable_wf hash size c Hreach) as (k & Hk & Hnum & Hlen).
  unfold ConcurrentMap.Range, ConcurrentMap.Range_order.
  assert (0 < 2 ^ k) by (apply Z.pow_pos_nonneg; lia).
  destruct (Range_loop_entries order c f Hlen
              (Z.to_nat (ConcurrentMap.num c)) 0 s) as (st & -> & Hst);
    [lia..|].
  simpl. by rewrite Hst.
Qed.

Lemma Range_order_flatten size c order :
  ConcurrentMap.reachable hash size c →
  (∀ i m, order i m ≡ₚ map_to_list m) →
  ConcurrentMap.Range_order order c ≡ₚ map_to_list (ConcurrentMap.flatten c).
Proof.
  intros Hreach Hord. unfold ConcurrentMap.Range_order, ConcurrentMap.flatten.
  apply (Range_order_routed _
           (λ k, Z.to_nat (ConcurrentMap.GetSharding_index hash c k)) 0%nat);
    [done|]. apply routed_shards. by eapply reachable_routed.
Qed.

Lemma Range_entries_collect (l : list (K * V)) : ∀ acc,
  ConcurrentMap.Range_entries l (λ k v acc, (true, acc ++ [(k, v)])) acc
    = acc ++ l.
Proof.
  induction l as [|[k v] l IH]; intros acc; simpl; [by rewrite app_nil_r|].
  rewrite IH, <- app_assoc. done.
Qed.

Lemma Range_entries_count (l : list (K * V)) n : ∀ cnt,
  cnt < n →
  ConcurrentMap.Range_entries l
    (λ _ _ cnt, (bool_decide (cnt + 1 < n), cnt + 1)) cnt
    = Z.min n (cnt + slice.len l).
Proof.
  induction l as [|[k v] l IH]; intros cnt Hcnt; simpl.
  - unfold slice.len. simpl. lia.
  - pose proof (len_nonneg l) as Hl. unfold slice.len in *. simpl length.
    case_bool_decide as Hn.
    + rewrite IH by lia. lia.
    + lia.
Qed.

End RangeFacts.

Section ConcurrentMapAsOneMap.
Context {K : Type} `{Countable K} {V : Type} (hash : K → Z).

Abbreviation cmap'' := (@ConcurrentMap.t K _ _ V).
Implicit Types c : cmap''.

(** With keys whose [==] is the identity, [Load] finds exactly what the
    shards hold: it is the lookup in the union of the shards. *)
Lemma gmap_Load_any_shard size c key :
  ConcurrentMap.reachable hash size c →
  ConcurrentMap.Load hash c key = Some (ConcurrentMap.flatten c !! key)
  ∧ ∀ v, ConcurrentMap.Load hash c key = Some (Some v)
         ↔ ∃ i b, ConcurrentMap.shardings c !! i = Some b ∧ b !! key = Some v.
Proof.
  intros Hreach. pose proof (reachable_wf hash size c Hreach) as Hwf.
  pose proof (reachable_routed hash size c Hreach) as Hr.
  split; [by apply Load_flatten|]. intros v.
  destruct (GetSharding_Some hash c key Hwf) as [b Hb].
  unfold ConcurrentMap.Load. rewrite Hb. simpl.
  unfold ConcurrentMap.Map_Load. split.
  - intros [= Hv]. unfold ConcurrentMap.GetSharding in Hb. eauto.
  - intros (i & b' & Hi & Hv).
    pose proof (Hr i b' key Hi (mk_is_Some _ _ Hv)) as Hidx.
    unfold ConcurrentMap.GetSharding in Hb. rewrite Hidx, Hi in Hb.
    injection Hb as <-. by rewrite Hv.
Qed.

(** X15. On the union of the shards, [Store] is the assignment
    [m[key] = value] and [Delete] is [delete(m, key)] of one Go map, and
    neither panics. *)
Theorem ConcurrentMap_Store_Delete_flatten size c key value :
  ConcurrentMap.reachable hash size c →
  (∃ c', ConcurrentMap.Store hash c key value = Some c'
         ∧ ConcurrentMap.flatten c'
           = <[key := value]> (ConcurrentMap.flatten c))
  ∧ (∃ c', ConcurrentMap.Delete hash c key = Some c'
           ∧ ConcurrentMap.flatten c' = delete key (ConcurrentMap.flatten c)).
Proof.
  intros Hreach. split; [by eapply flatten_Store | by eapply flatten_Delete].
Qed.

(** With keys whose [==] is the identity, [Len] is the number of keys
    [Load] finds: the number of entries of the union of the shards. *)
Lemma gmap_Len_entries size c :
  ConcurrentMap.reachable hash size c →
  ConcurrentMap.Len c = Z.of_nat (base.size (ConcurrentMap.flatten c))
  ∧ ∀ l : list K,
      NoDup l →
      (∀ key, key ∈ l ↔ ∃ v, ConcurrentMap.Load hash c key = Some (Some v)) →
      ConcurrentMap.Len c = slice.len l.
Proof.
  intros Hreach. pose proof (reachable_wf hash size c Hreach) as Hwf.
  pose proof (reachable_routed hash size c Hreach) as Hr.
  rewrite (Len_flatten hash c Hr). split; [done|]. intros l Hnd Hl.
  unfold slice.len. f_equal.
  rewrite <- length_map_to_list, <- (length_fmap fst).
  apply Permutation_length, NoDup_Permutation;
    [apply NoDup_fst_map_to_list | done |].
  intros key. rewrite Hl, list_elem_of_fmap. split.
  - intros ([k v] & -> & Hkv%elem_of_map_to_list). exists v. simpl.
    by rewrite (Load_flatten hash c k Hwf Hr), Hkv.
  - intros [v Hv]. rewrite (Load_flatten hash c key Hwf Hr) in Hv.
    injection Hv as Hv. exists (key, v). split; [done|].
    by apply elem_of_map_to_list.
Qed.

(** X17. [Len] counts keys: [Store] adds one when the key was not
    there and none when it was, [Delete] takes one off when the key was
    there and none when it was not. *)
Theorem ConcurrentMap_Len_Store_Delete size c key value :
  ConcurrentMap.reachable hash size c →
  let found := match ConcurrentMap.Load hash c key with
               | Some (Some _) => true
               | _ => false
               end in
  (∃ c', ConcurrentMap.Store hash c key value = Some c'
         ∧ ConcurrentMap.Len c'
           = if found then ConcurrentMap.Len c else ConcurrentMap.Len c + 1)
  ∧ (∃ c', ConcurrentMap.Delete hash c key = Some c'
           ∧ ConcurrentMap.Len c'
             = if found then ConcurrentMap.Len c - 1 else ConcurrentMap.Len c).
Proof.
  intros Hreach found. pose proof (reachable_wf hash size c Hreach) as Hwf.
  pose proof (reachable_routed hash size c Hreach) as Hr.
  destruct (flatten_Store hash size c key value Hreach) as (c1 & Hs & Hf1).
  destruct (flatten_Delete hash size c key Hreach) as (c2 & Hd & Hf2).
  pose proof (reachable_routed hash size c1
                (ConcurrentMap.reach_Store hash size c key value c1 Hreach Hs))
    as Hr1.
  pose proof (reachable_routed hash size c2
                (ConcurrentMap.reach_Delete hash size c key c2 Hreach Hd))
    as Hr2.
  rewrite Hs, Hd.
  assert (Hfound : found = bool_decide (is_Some (ConcurrentMap.flatten c !! key))).
  { unfold found. rewrite (Load_flatten hash c key Hwf Hr).
    destruct (ConcurrentMap.flatten c !! key) as [v|].
    - by rewrite bool_decide_eq_true_2.
    - rewrite bool_decide_eq_false_2; [done|]. by intros [? ?]. }
  rewrite Hfound.
  split; eexists; (split; [done|]);
    rewrite (Len_flatten hash _ Hr1) || rewrite (Len_flatten hash _ Hr2);
    rewrite (Len_flatten hash c Hr), ?Hf1, ?Hf2; case_bool_decide as Hk.
  - by rewrite map_size_insert_Some.
  - rewrite map_size_insert_None; [lia|].
    by apply eq_None_not_Some.
  - rewrite map_size_delete_Some by done.
    destruct Hk as [v Hv].
    assert (base.size (ConcurrentMap.flatten c) ≠ 0%nat); [|lia].
    intros Hz%map_size_empty_inv. by rewrite Hz, lookup_empty in Hv.
  - rewrite map_size_delete_None; [done|]. by apply eq_None_not_Some.
Qed.

(** X18. A new map is empty: no key is found, [Len] is 0 and [Range]
    does not call its function. *)
Theorem NewConcurrentMap_empty size :
  Forall (λ n, 0 <= n <= 2 ^ 63) size →
  ∃ c, @ConcurrentMap.NewConcurrentMap K _ _ V size = Some c
    ∧ (∀ key, ConcurrentMap.Load hash c key = Some None)
    ∧ ConcurrentMap.Len c = 0
    ∧ ∀ order, (∀ i m, order i m ≡ₚ map_to_list m) →
        ∀ (St : Type) (f : K → V → St → bool * St) s,
          ConcurrentMap.Range order c f s = Some s.
Proof.
  intros Hsize.
  pose proof (@NewConcurrentMap_requested K _ _ V size Hsize) as Hnew.
  eexists. split; [exact Hnew|].
  set (c := ConcurrentMap.mk _ _) in *.
  assert (Hreach : ConcurrentMap.reachable hash size c)
    by (by apply ConcurrentMap.reach_New).
  pose proof (reachable_wf hash size c Hreach) as Hwf.
  pose proof (reachable_routed hash size c Hreach) as Hr.
  assert (Hempty : ConcurrentMap.flatten c = ∅).
  { apply map_eq. intros k. rewrite lookup_empty.
    apply lookup_union_list_None_2, list.Forall_forall.
    intros m Hm. apply elem_of_replicate in Hm as [-> _]. done. }
  split; [|split].
  - intros key. by rewrite (Load_flatten hash c key Hwf Hr), Hempty.
  - by rewrite (Len_flatten hash c Hr), Hempty.
  - intros order Hord St f s.
    rewrite (Range_entries_through hash size c order f s Hreach).
    pose proof (Range_order_flatten hash size c order Hreach Hord) as Hp.
    rewrite Hempty, map_to_list_empty in Hp.
    apply Permutation_nil_r in Hp. by rewrite Hp.
Qed.

(** X19. [Range] over the shards is a range over one Go map: in every
    run it goes through the entries of the union of the shards, each
    once, in some order, calling the function until it returns false. *)
Theorem ConcurrentMap_Range_one_map size c order :
  ConcurrentMap.reachable hash size c →
  (∀ i m, order i m ≡ₚ map_to_list m) →
  ConcurrentMap.Range_order order c ≡ₚ map_to_list (ConcurrentMap.flatten c)
  ∧ ∀ (St : Type) (f : K → V → St → bool * St) s,
      ConcurrentMap.Range order c f s
      = Some (ConcurrentMap.Range_entries
                (ConcurrentMap.Range_order order c) f s).
Proof.
  intros Hreach Hord. split; [by eapply Range_order_flatten|].
  intros St f s. by eapply Range_entries_through.
Qed.

(** With keys whose [==] is the identity, a function that always
    returns true is called by [Range] exactly once for every key [Load]
    finds, with the value [Load] gives, and for nothing else. *)
Lemma gmap_Range_visits_once size c order :
  ConcurrentMap.reachable hash size c →
  (∀ i m, order i m ≡ₚ map_to_list m) →
  ∃ visited,
    ConcurrentMap.Range order c (λ k v acc, (true, acc ++ [(k, v)])) []
      = Some visited
    ∧ NoDup visited.*1
    ∧ ∀ k v, (k, v) ∈ visited ↔ ConcurrentMap.Load hash c k = Some (Some v).
Proof.
  intros Hreach Hord. pose proof (reachable_wf hash size c Hreach) as Hwf.
  pose proof (reachable_routed hash size c Hreach) as Hr.
  pose proof (Range_order_flatten hash size c order Hreach Hord) as Hp.
  exists (ConcurrentMap.Range_order order c).
  rewrite (Range_entries_through hash size c order _ [] Hreach).
  rewrite Range_entries_collect. split; [done|]. split.
  - rewrite Hp. apply NoDup_fst_map_to_list.
  - intros k v. rewrite Hp, elem_of_map_to_list.
    rewrite (Load_flatten hash c k Hwf Hr). split; [by intros ->|by intros [=]].
Qed.

(** X21. [Range] stops at the first false: a function that returns
    false at its [n]-th call is called [n] times when the map has at
    least [n] entries, and once per entry otherwise. *)
Theorem ConcurrentMap_Range_stops size c order n :
  ConcurrentMap.reachable hash size c →
  (∀ i m, order i m ≡ₚ map_to_list m) →
  1 <= n →
  ConcurrentMap.Range order c
    (λ _ _ calls, (bool_decide (calls + 1 < n), calls + 1)) 0
  = Some (Z.min n (ConcurrentMap.Len c)).
Proof.
  intros Hreach Hord Hn.
  pose proof (reachable_routed hash size c Hreach) as Hr.
  pose proof (Range_order_flatten hash size c order Hreach Hord) as Hp.
  rewrite (Range_entries_through hash size c order _ 0 Hreach).
  rewrite Range_entries_count by lia. do 2 f_equal.
  rewrite (Len_flatten hash c Hr). unfold slice.len.
  rewrite Hp, length_map_to_list. lia.
Qed.

End ConcurrentMapAsOneMap.


Lemma ConcurrentMap_Store_Delete_flatten_witness :
  let c := @ConcurrentMap.mk Z _ _ nat 16 (replicate 16 ∅) in
  ConcurrentMap.reachable Z.abs [] c
  ∧ ∃ c', ConcurrentMap.Store Z.abs c 35 7%nat = Some c'
          ∧ ConcurrentMap.flatten c' = <[35 := 7%nat]> (ConcurrentMap.flatten c).
Proof.
  intros c.
  assert (Hr : ConcurrentMap.reachable Z.abs [] c)
    by (apply ConcurrentMap.reach_New; [constructor | reflexivity]).
  split; [exact Hr|].
  destruct (@ConcurrentMap_Store_Delete_flatten Z _ _ nat Z.abs [] c 35 7%nat Hr)
    as [Hs _].
  exact Hs.
Defined.


Lemma ConcurrentMap_Len_Store_Delete_witness :
  let c := @ConcurrentMap.mk Z _ _ nat 16 (replicate 16 ∅) in
  ConcurrentMap.reachable Z.abs [] c
  ∧ (∃ c', ConcurrentMap.Store Z.abs c 35 7%nat = Some c'
           ∧ ConcurrentMap.Len c' = ConcurrentMap.Len c + 1)
  ∧ (∃ c', ConcurrentMap.Delete Z.abs c 35 = Some c'
           ∧ ConcurrentMap.Len c' = ConcurrentMap.Len c).
Proof.
  intros c.
  assert (Hr : ConcurrentMap.reachable Z.abs [] c)
    by (apply ConcurrentMap.reach_New; [constructor | reflexivity]).
  split; [exact Hr|].
  exact (@ConcurrentMap_Len_Store_Delete Z _ _ nat Z.abs [] c 35 7%nat Hr).
Defined.

Lemma NewConcurrentMap_empty_witness :
  Forall (λ n, 0 <= n <= 2 ^ 63) [4]
  ∧ ∃ c, @ConcurrentMap.NewConcurrentMap Z _ _ nat [4] = Some c
         ∧ ConcurrentMap.Load Z.abs c 35 = Some None
         ∧ ConcurrentMap.Len c = 0.
Proof.
  assert (Hsize : Forall (λ n, 0 <= n <= 2 ^ 63) [4])
    by (repeat constructor; lia).
  split; [exact Hsize|].
  destruct (@NewConcurrentMap_empty Z _ _ nat Z.abs [4] Hsize)
    as (c & Hnew & Hload & Hlen & _).
  exists c. split; [exact Hnew|]. split; [apply Hload | exact Hlen].
Defined.

Lemma ConcurrentMap_Range_one_map_witness :
  let c := @ConcurrentMap.mk Z _ _ nat 16 (<[3%nat := {[35 := 7%nat]}]> (replicate 16 ∅)) in
  let order := λ (_ : nat) (m : gmap Z nat), map_to_list m in
  ConcurrentMap.reachable Z.abs [] c
  ∧ (∀ i m, order i m ≡ₚ map_to_list m)
  ∧ ConcurrentMap.Range order c (λ k v sum, (true, sum + k + Z.of_nat v)) 0
    = Some 42.
Proof.
  intros c order.
  assert (Hr : ConcurrentMap.reachable Z.abs [] c).
  { apply (ConcurrentMap.reach_Store Z.abs []
             (ConcurrentMap.mk 16 (replicate 16 ∅)) 35 7%nat);
      [apply ConcurrentMap.reach_New; [constructor | reflexivity] | reflexivity]. }
  assert (Hord : ∀ i m, order i m ≡ₚ map_to_list m) by (intros; reflexivity).
  split; [exact Hr|]. split; [exact Hord|].
  destruct (@ConcurrentMap_Range_one_map Z _ _ nat Z.abs [] c order Hr Hord)
    as [_ Hrange].
  rewrite Hrange. reflexivity.
Defined.


Lemma ConcurrentMap_Range_stops_witness :
  let c := @ConcurrentMap.mk Z _ _ nat 16 (<[3%nat := {[35 := 7%nat]}]> (replicate 16 ∅)) in
  let order := λ (_ : nat) (m : gmap Z nat), map_to_list m in
  ConcurrentMap.reachable Z.abs [] c
  ∧ (∀ i m, order i m ≡ₚ map_to_list m)
  ∧ 1 <= 5
  ∧ ConcurrentMap.Range order c
      (λ _ _ calls, (bool_decide (calls + 1 < 5), calls + 1)) 0
    = Some (Z.min 5 (ConcurrentMap.Len c)).
Proof.
  intros c order.
  assert (Hr : ConcurrentMap.reachable Z.abs [] c).
  { apply (ConcurrentMap.reach_Store Z.abs []
             (ConcurrentMap.mk 16 (replicate 16 ∅)) 35 7%nat);
      [apply ConcurrentMap.reach_New; [constructor | reflexivity] | reflexivity]. }
  assert (Hord : ∀ i m, order i m ≡ₚ map_to_list m) by (intros; reflexivity).
  split; [exact Hr|]. split; [exact Hord|]. split; [lia|].
  exact (@ConcurrentMap_Range_stops Z _ _ nat Z.abs [] c order 5 Hr Hord
           ltac:(lia)).
Defined.

(** ** Generated headers, for all window bits *)

(** *** Tokens in a joined header *)

Lemma list_ascii_of_string_app (a b : string) :
  String.list_ascii_of_string (a +:+ b)
    = String.list_ascii_of_string a ++ String.list_ascii_of_string b.
Proof.
  induction a as [|c a IH]; simpl; [done|]. by rewrite IH.
Qed.

Lemma token_text_app a b :
  token_text a = true → token_text b = true → token_text (a +:+ b) = true.
Proof.
  unfold token_text. rewrite !andb_true_iff, list_ascii_of_string_app.
  rewrite forallb_app. intros [Ha Hna] [Hb Hnb]. rewrite Ha, Hb.
  split; [done|]. destruct a; [done|]. done.
Qed.

Lemma token_byte_spec c :
  token_byte c = true →
  strings.space1 c = false
  ∧ c ≠ ";"%char
  ∧ (∀ c2, strings.space2 c c2 = false)
  ∧ (∀ c2, strings.space2 c2 c = false)
  ∧ (∀ c2 c3, strings.space3 c c2 c3 = false)
  ∧ (∀ c3 c2, strings.space3 c3 c2 c = false).
Proof.
  unfold token_byte. rewrite !andb_true_iff, !negb_true_iff.
  intros [[Hc Hs] He]. apply N.ltb_lt in Hc. apply Ascii.eqb_neq in He.
  split; [done|]. split; [done|].
  assert (Hne : ∀ n, (128 <= n)%N → (strings.code c =? n)%N = false)
    by (intros n Hn; apply N.eqb_neq; lia).
  assert (Hle : ∀ n, (128 <= n)%N → (n <=? strings.code c)%N = false)
    by (intros n Hn; apply N.leb_gt; lia).
  unfold strings.space2, strings.space3.
  repeat split; intros;
    rewrite ?Hne, ?Hle by lia;
    rewrite ?andb_false_r, ?andb_false_l, ?orb_false_r; done.
Qed.

Lemma TrimLeftSpace_token c l :
  token_byte c = true → strings.TrimLeftSpace (c :: l) = c :: l.
Proof.
  intros Hc. destruct (token_byte_spec c Hc) as (H1 & _ & H2 & _ & H3 & _).
  destruct l as [|c2 [|c3 l]]; simpl; rewrite ?H1, ?H2, ?H3; done.
Qed.

Lemma TrimRightSpace_rev_token c l :
  token_byte c = true → strings.TrimRightSpace_rev (c :: l) = c :: l.
Proof.
  intros Hc. destruct (token_byte_spec c Hc) as (H1 & _ & _ & H2 & _ & H3).
  destruct l as [|c2 [|c3 l]]; simpl; rewrite ?H1, ?H2, ?H3; done.
Qed.

(** A token text has no white space to trim. *)
Lemma TrimSpace_token_text t :
  token_text t = true → strings.TrimSpace t = t.
Proof.
  unfold token_text, strings.TrimSpace. rewrite andb_true_iff.
  intros [Hb _]. rewrite <- (String.string_of_list_ascii_of_string t) at 2.
  f_equal. revert Hb. generalize (String.list_ascii_of_string t) as l.
  intros l Hb. destruct l as [|c l]; [done|].
  rewrite TrimLeftSpace_token by (simpl in Hb; by apply andb_true_iff in Hb as [? _]).
  destruct (rev (c :: l)) as [|d m] eqn:Hrev.
  { apply (f_equal length) in Hrev. rewrite length_rev in Hrev. done. }
  assert (Hd : token_byte d = true).
  { rewrite forallb_forall in Hb. apply Hb, in_rev. rewrite Hrev. by left. }
  rewrite TrimRightSpace_rev_token by done.
  rewrite <- Hrev. apply rev_involutive.
Qed.

(** The space that [Join] puts after each [;] is trimmed. *)
Lemma TrimSpace_space t :
  strings.TrimSpace (String " " t) = strings.TrimSpace t.
Proof. done. Qed.

Lemma Split_nonempty s sep : strings.Split s sep ≠ [].
Proof.
  destruct s as [|c s]; simpl; [done|].
  destruct (Ascii.eqb c sep); [done|]. by destruct (strings.Split s sep).
Qed.

Lemma Split_token_bytes t r :
  forallb token_byte (String.list_ascii_of_string t) = true →
  strings.Split (t +:+ r) ";"
    = match strings.Split r ";" with
      | x :: xs => (t +:+ x) :: xs
      | [] => [t]
      end.
Proof.
  induction t as [|c t IH]; simpl.
  - intros _. change ("" +:+ r) with r.
    destruct (strings.Split r ";") eqn:E; [|done].
    by destruct (Split_nonempty r ";").
  - rewrite andb_true_iff. intros [Hc Ht].
    destruct (token_byte_spec c Hc) as (_ & Hsep & _).
    apply Ascii.eqb_neq in Hsep. rewrite Hsep, IH by done.
    destruct (strings.Split r ";") eqn:E; [|done].
    by destruct (Split_nonempty r ";").
Qed.

Lemma string_app_nil_r (t : string) : t +:+ "" = t.
Proof.
  induction t as [|c t IH]; [done|].
  change (String c t +:+ "") with (String c (t +:+ "")). by rewrite IH.
Qed.

(** [internal.Split] gives back the tokens that [Join] put together. *)
Lemma internal_Split_Join (ts : list string) :
  Forall (λ t, token_text t = true) ts →
  internal.Split (strings.Join ts "; ") ";" = ts.
Proof.
  unfold internal.Split, strings.Join.
  destruct ts as [|t ts]; [done|]. revert t.
  induction ts as [|t' ts IH]; intros t Ht.
  - apply list.Forall_cons in Ht as [Ht _]. simpl.
    pose proof Ht as Hb. unfold token_text in Hb.
    apply andb_true_iff in Hb as [Hb Hne].
    rewrite <- (string_app_nil_r t) at 1.
    rewrite Split_token_bytes by done. simpl. rewrite string_app_nil_r.
    rewrite TrimSpace_token_text by done.
    rewrite filter_cons_True, filter_nil; [done|].
    intros ->. done.
  - apply list.Forall_cons in Ht as [Ht Hts].
    pose proof Ht as Hb. unfold token_text in Hb.
    apply andb_true_iff in Hb as [Hb Hne].
    specialize (IH t' Hts).
    change (String.concat "; " (t :: t' :: ts))
      with (t +:+ String ";" (String " " (String.concat "; " (t' :: ts)))).
    rewrite Split_token_bytes by done.
    cbn [strings.Split]. rewrite Ascii.eqb_refl.
    change (Ascii.eqb " " ";") with false. cbv iota.
    destruct (strings.Split (String.concat "; " (t' :: ts)) ";")
      as [|x xs] eqn:Hsp; [done|].
    rewrite string_app_nil_r. rewrite !fmap_cons, TrimSpace_space.
    rewrite !fmap_cons in IH.
    rewrite TrimSpace_token_text by done.
    rewrite filter_cons_True by (intros ->; done).
    f_equal. exact IH.
Qed.

(** The negotiation of a header joined from token texts, read off the
    tokens. *)
Lemma permessageNegotiation_Join (ts : list string) :
  Forall (λ t, token_text t = true) ts →
  permessageNegotiation (strings.Join ts "; ") =
    Some (mkPermessageDeflate false
            (bool_decide (internal.ServerNoContextTakeover ∉ token_name <$> ts))
            (bool_decide (internal.ClientNoContextTakeover ∉ token_name <$> ts))
            (spec_window_bits
               (window_bits_read
                  <$> omap (token_value internal.ServerMaxWindowBits) ts))
            (spec_window_bits
               (window_bits_read
                  <$> omap (token_value internal.ClientMaxWindowBits) ts))
            0 0 0).
Proof.
  intros Hts. rewrite permessageNegotiation_fields. unfold advertised.
  by rewrite internal_Split_Join.
Qed.

Lemma window_bits_read_Itoa x :
  - 2 ^ 63 <= x < 2 ^ 63 →
  spec_window_bits [window_bits_read (strconv.Itoa x)] = negotiated_bits x.
Proof.
  intros Hx. unfold window_bits_read, spec_window_bits, negotiated_bits.
  rewrite Atoi_Itoa by done. simpl. case_bool_decide; lia.
Qed.

Lemma token_server_bits v :
  let t := internal.ServerMaxWindowBits +:+ internal.EQ +:+ v in
  token_name t = internal.ServerMaxWindowBits
  ∧ token_value internal.ServerMaxWindowBits t = Some v
  ∧ token_value internal.ClientMaxWindowBits t = None.
Proof. done. Qed.

Lemma token_client_bits v :
  let t := internal.ClientMaxWindowBits +:+ internal.EQ +:+ v in
  token_name t = internal.ClientMaxWindowBits
  ∧ token_value internal.ServerMaxWindowBits t = None
  ∧ token_value internal.ClientMaxWindowBits t = Some v.
Proof. done. Qed.

Lemma token_text_bits key x :
  token_text key = true →
  token_text (key +:+ internal.EQ +:+ strconv.Itoa x) = true.
Proof.
  intros Hk. apply token_text_app; [done|].
  apply token_text_app; [done|]. apply Itoa_token_text.
Qed.

(** The cases of a generated header: the flags and whether each of the
    window bits is 15. *)
Ltac generated_header_cases s c Hrs Hrc H15 :=
  cbv zeta;
  cbn [ServerContextTakeover ClientContextTakeover
       ServerMaxWindowBits ClientMaxWindowBits];
  repeat match goal with
         | |- context [negb ?b] => is_var b; destruct b
         end;
  repeat case_bool_decide;
  (rewrite permessageNegotiation_Join
     by (simpl; repeat constructor;
         first [reflexivity | by apply token_text_bits]));
  simpl;
  change ("" +:+ strconv.Itoa s) with (strconv.Itoa s);
  change ("" +:+ strconv.Itoa c) with (strconv.Itoa c);
  rewrite ?Hrs, ?Hrc;
  repeat match goal with
         | H : ¬ _ ≠ _ |- _ => apply dec_stable in H
         end;
  subst; rewrite ?H15; done.

Lemma genResponseHeader_negotiated en sct cct s c th lv ps :
  - 2 ^ 63 <= s < 2 ^ 63 →
  - 2 ^ 63 <= c < 2 ^ 63 →
  permessageNegotiation
    (genResponseHeader (mkPermessageDeflate en sct cct s c th lv ps))
  = Some (mkPermessageDeflate false sct cct
            (negotiated_bits s) (negotiated_bits c) 0 0 0).
Proof.
  intros Hs Hc.
  pose proof (window_bits_read_Itoa s Hs) as Hrs.
  pose proof (window_bits_read_Itoa c Hc) as Hrc.
  assert (H15 : negotiated_bits 15 = 15) by done.
  unfold genResponseHeader. generated_header_cases s c Hrs Hrc H15.
Qed.

Lemma genRequestHeader_negotiated en sct cct s c th lv ps :
  - 2 ^ 63 <= s < 2 ^ 63 →
  - 2 ^ 63 <= c < 2 ^ 63 →
  permessageNegotiation
    (genRequestHeader (mkPermessageDeflate en sct cct s c th lv ps))
  = Some (mkPermessageDeflate false sct cct
            (negotiated_bits s) (negotiated_bits c) 0 0 0).
Proof.
  intros Hs Hc.
  pose proof (window_bits_read_Itoa s Hs) as Hrs.
  pose proof (window_bits_read_Itoa c Hc) as Hrc.
  assert (H15 : negotiated_bits 15 = 15) by done.
  unfold genRequestHeader. generated_header_cases s c Hrs Hrc H15.
Qed.

Lemma negotiated_bits_fixed x : 8 <= x <= 15 → negotiated_bits x = x.
Proof. intros Hx. unfold negotiated_bits. case_bool_decide; lia. Qed.

Lemma spec_window_bits_range values : 8 <= spec_window_bits values <= 15.
Proof.
  unfold spec_window_bits. pose proof (foldr_min_le 15 values). lia.
Qed.

(** X24. For all window bits an [int] can hold, the negotiation of a
    generated header, response or request, does not panic and gives back
    the two context takeover flags; it gives 15 for window bits 0, and
    otherwise the window bits brought into [8,15]. *)
Theorem permessageNegotiation_generated_header pd :
  - 2 ^ 63 <= ServerMaxWindowBits pd < 2 ^ 63 →
  - 2 ^ 63 <= ClientMaxWindowBits pd < 2 ^ 63 →
  let pd' :=
    mkPermessageDeflate false
      (ServerContextTakeover pd) (ClientContextTakeover pd)
      (negotiated_bits (ServerMaxWindowBits pd))
      (negotiated_bits (ClientMaxWindowBits pd)) 0 0 0 in
  permessageNegotiation (genResponseHeader pd) = Some pd'
  ∧ permessageNegotiation (genRequestHeader pd) = Some pd'.
Proof.
  destruct pd as [en sct cct s c th lv ps]. simpl. intros Hs Hc. split.
  - by apply genResponseHeader_negotiated.
  - by apply genRequestHeader_negotiated.
Qed.

Lemma permessageNegotiation_generated_header_witness :
  let pd := mkPermessageDeflate true false true 0 7 512 1 64 in
  let pd' := mkPermessageDeflate false false true 15 8 0 0 0 in
  - 2 ^ 63 <= ServerMaxWindowBits pd < 2 ^ 63
  ∧ - 2 ^ 63 <= ClientMaxWindowBits pd < 2 ^ 63
  ∧ permessageNegotiation (genResponseHeader pd) = Some pd'
  ∧ permessageNegotiation (genRequestHeader pd) = Some pd'.
Proof.
  intros pd pd'.
  assert (Hs : - 2 ^ 63 <= ServerMaxWindowBits pd < 2 ^ 63) by (simpl; lia).
  assert (Hc : - 2 ^ 63 <= ClientMaxWindowBits pd < 2 ^ 63) by (simpl; lia).
  split; [exact Hs|]. split; [exact Hc|].
  exact (permessageNegotiation_generated_header pd Hs Hc).
Defined.

(** X25. What a negotiation gives is stable: the header generated from
    the result of the negotiation of any header, as a response or as a
    request, negotiates to that same result. *)
Theorem permessageNegotiation_stable str pd :
  permessageNegotiation str = Some pd →
  permessageNegotiation (genResponseHeader pd) = Some pd
  ∧ permessageNegotiation (genRequestHeader pd) = Some pd.
Proof.
  rewrite permessageNegotiation_fields. intros [= <-].
  set (vs := window_bits_read <$> advertised internal.ServerMaxWindowBits str).
  set (vc := window_bits_read <$> advertised internal.ClientMaxWindowBits str).
  pose proof (spec_window_bits_range vs) as Hs.
  pose proof (spec_window_bits_range vc) as Hc.
  rewrite <- (negotiated_bits_fixed _ Hs) at 2 4.
  rewrite <- (negotiated_bits_fixed _ Hc) at 2 4.
  split.
  - apply genResponseHeader_negotiated; lia.
  - apply genRequestHeader_negotiated; lia.
Qed.

Lemma permessageNegotiation_stable_witness :
  let str := "permessage-deflate; client_no_context_takeover; server_max_window_bits=3"%string in
  let pd := mkPermessageDeflate false true false 8 15 0 0 0 in
  permessageNegotiation str = Some pd
  ∧ permessageNegotiation (genResponseHeader pd) = Some pd
  ∧ permessageNegotiation (genRequestHeader pd) = Some pd.
Proof.
  intros str pd.
  assert (Hn : permessageNegotiation str = Some pd) by reflexivity.
  split; [exact Hn|].
  exact (permessageNegotiation_stable str pd Hn).
Defined.

(** ** The two session storages *)

Section SessionStorages.
Context {V : Type} (hash : string → Z).

Lemma NewConcurrentMap_flatten size c :
  Forall (λ n, 0 <= n <= 2 ^ 63) size →
  @ConcurrentMap.NewConcurrentMap string _ _ V size = Some c →
  ConcurrentMap.flatten c = ∅.
Proof.
  intros Hsize Hnew.
  rewrite (@NewConcurrentMap_requested string _ _ V size Hsize) in Hnew.
  injection Hnew as <-. apply map_eq. intros k. rewrite lookup_empty.
  apply lookup_union_list_None_2, list.Forall_forall.
  intros m Hm. apply elem_of_replicate in Hm as [-> _]. done.
Qed.

(** A [ConcurrentMap] follows a [smap] through every sequence of calls:
    the union of its shards stays the Go map of the [smap]. *)
Lemma ConcurrentMap_calls_flatten size (calls : list (SessionStorage_call V)) :
  ∀ c m,
    ConcurrentMap.reachable hash size c →
    ConcurrentMap.flatten c = smap.data m →
    ∃ c', ConcurrentMap_calls hash c calls = Some c'
          ∧ ConcurrentMap.reachable hash size c'
          ∧ ConcurrentMap.flatten c' = smap.data (smap_calls m calls).
Proof.
  induction calls as [|[key value|key] calls IH]; intros c m Hreach Hflat.
  - by exists c.
  - destruct (flatten_Store hash size c key value Hreach) as (c1 & Hst & Hf).
    destruct (IH c1 (smap.Store m key value)) as (c' & Hc' & Hr' & Hf').
    + by eapply ConcurrentMap.reach_Store.
    + by rewrite Hf, Hflat.
    + exists c'. simpl. rewrite Hst. done.
  - destruct (flatten_Delete hash size c key Hreach) as (c1 & Hst & Hf).
    destruct (IH c1 (smap.Delete m key)) as (c' & Hc' & Hr' & Hf').
    + by eapply ConcurrentMap.reach_Delete.
    + by rewrite Hf, Hflat.
    + exists c'. simpl. rewrite Hst. done.
Qed.

(** X26. A [ConcurrentMap] with string keys serves as the session
    storage that [smap] is: after the same calls of [Store] and [Delete]
    on a new map of each kind, whatever the hasher and the number of
    shards, [Len] and every [Load] give the same, and a [Range] over the
    one goes through the entries of a [Range] over the other, in some
    order. *)
Theorem ConcurrentMap_as_smap size (calls : list (SessionStorage_call V)) :
  Forall (λ n, 0 <= n <= 2 ^ 63) size →
  let m := smap_calls smap.newSmap calls in
  ∃ c0 c,
    ConcurrentMap.NewConcurrentMap size = Some c0
    ∧ ConcurrentMap_calls hash c0 calls = Some c
    ∧ ConcurrentMap.Len c = smap.Len m
    ∧ (∀ key, ConcurrentMap.Load hash c key = Some (smap.Load m key))
    ∧ ∀ order order',
        (∀ i b, order i b ≡ₚ map_to_list b) →
        (∀ b, order' b ≡ₚ map_to_list b) →
        ∃ visited,
          ConcurrentMap.Range order c (λ k v acc, (true, acc ++ [(k, v)])) []
            = Some visited
          ∧ visited
            ≡ₚ smap.Range order' m (λ k v acc, (true, acc ++ [(k, v)])) [].
Proof.
  intros Hsize m.
  pose proof (@NewConcurrentMap_requested string _ _ V size Hsize) as Hnew.
  set (c0 := ConcurrentMap.mk _ _) in Hnew.
  assert (Hr0 : ConcurrentMap.reachable hash size c0)
    by (by apply ConcurrentMap.reach_New).
  destruct (ConcurrentMap_calls_flatten size calls c0 smap.newSmap Hr0)
    as (c & Hc & Hreach & Hflat).
  { by apply (NewConcurrentMap_flatten size). }
  exists c0, c. split; [exact Hnew|]. split; [exact Hc|].
  fold m in Hflat.
  pose proof (reachable_wf hash size c Hreach) as Hwf.
  pose proof (reachable_routed hash size c Hreach) as Hrt.
  split; [|split].
  - by rewrite (Len_flatten hash c Hrt), Hflat.
  - intros key. by rewrite (Load_flatten hash c key Hwf Hrt), Hflat.
  - intros order order' Hord Hord'. eexists. split.
    + apply (Range_entries_through hash size c order _ [] Hreach).
    + unfold smap.Range. rewrite !Range_entries_collect. simpl.
      rewrite (Range_order_flatten hash size c order Hreach Hord), Hflat.
      by rewrite Hord'.
Qed.

End SessionStorages.

Lemma ConcurrentMap_as_smap_witness :
  let hash := λ key : string, Z.of_nat (String.length key) in
  let calls := [call_Store "a" 1%nat; call_Store "bc" 2%nat; call_Delete "a"] in
  Forall (λ n, 0 <= n <= 2 ^ 63) [4]
  ∧ ∃ c0 c,
      ConcurrentMap.NewConcurrentMap [4] = Some c0
      ∧ ConcurrentMap_calls hash c0 calls = Some c
      ∧ ConcurrentMap.Len c = 1
      ∧ ConcurrentMap.Load hash c "bc" = Some (Some 2%nat)
      ∧ ConcurrentMap.Load hash c "a" = Some None.
Proof.
  intros hash calls.
  assert (Hsize : Forall (λ n, 0 <= n <= 2 ^ 63) [4])
    by (repeat constructor; lia).
  split; [exact Hsize|].
  destruct (@ConcurrentMap_as_smap nat hash [4] calls Hsize)
    as (c0 & c & Hnew & Hc & Hlen & Hload & _).
  exists c0, c. split; [exact Hnew|]. split; [exact Hc|].
  split; [|split].
  - rewrite Hlen. vm_compute. reflexivity.
  - rewrite Hload. vm_compute. reflexivity.
  - rewrite Hload. vm_compute. reflexivity.
Defined.

(** ** ConcurrentMap with keys whose [==] is the identity

    For such a key type the map of [Module AnyKey] and the map of
    [Module ConcurrentMap] are the same map: [AnyKey.as_gmap] takes the
    one to the other through every operation. *)

Section IdentityKeys.
Context {K : Type} `{Countable K} {V : Type}.
Context (Keq : K → K → bool) (hash : K → Z).
Hypothesis Keq_identity : ∀ a b, Keq a b = true ↔ a = b.

Implicit Types (c : @AnyKey.t K V) (m : list (K * V)).

Lemma Keq_decide a b : Keq a b = bool_decide (a = b).
Proof.
  apply eq_true_iff_eq. rewrite bool_decide_eq_true. apply Keq_identity.
Qed.

Lemma Map_Load_list_to_map m key :
  AnyKey.Map_Load Keq m key = (list_to_map m : gmap K V) !! key.
Proof.
  induction m as [|[k v] m IH]; simpl; [done|].
  rewrite Keq_decide. case_bool_decide as Hk.
  - subst k. by rewrite lookup_insert_eq.
  - by rewrite lookup_insert_ne.
Qed.

Lemma list_to_map_Map_Store m key value :
  (list_to_map (AnyKey.Map_Store Keq m key value) : gmap K V)
  = <[key := value]> (list_to_map m).
Proof.
  induction m as [|[k v] m IH]; simpl; [done|].
  rewrite Keq_decide. case_bool_decide as Hk; simpl.
  - subst k. by rewrite insert_insert_eq.
  - rewrite IH. by apply insert_insert_ne.
Qed.

Lemma list_to_map_Map_Delete m key :
  (list_to_map (AnyKey.Map_Delete Keq m key) : gmap K V)
  = delete key (list_to_map m).
Proof.
  induction m as [|[k v] m IH]; simpl; [by rewrite delete_empty|].
  rewrite Keq_decide. case_bool_decide as Hk; simpl.
  - subst k. by rewrite IH, delete_insert_eq.
  - rewrite IH. by rewrite delete_insert_ne.
Qed.

Lemma Map_Store_keys m key value x :
  x ∈ (AnyKey.Map_Store Keq m key value).*1 → x ∈ m.*1 ∨ x = key.
Proof.
  induction m as [|[k v] m IH]; simpl.
  - intros ->%list_elem_of_singleton. by right.
  - destruct (Keq k key); simpl; [by left|].
    rewrite !elem_of_cons. intros [->|Hx]; [by left; left|].
    destruct (IH Hx); [left; by right | by right].
Qed.

Lemma Map_Delete_keys m key x :
  x ∈ (AnyKey.Map_Delete Keq m key).*1 → x ∈ m.*1.
Proof.
  induction m as [|[k v] m IH]; simpl; [done|].
  destruct (Keq k key); simpl; rewrite !elem_of_cons; [by right; apply IH|].
  intros [->|Hx]; [by left | right; by apply IH].
Qed.

Lemma Map_Store_NoDup m key value :
  NoDup m.*1 → NoDup (AnyKey.Map_Store Keq m key value).*1.
Proof.
  induction m as [|[k v] m IH]; simpl.
  - intros _. apply NoDup_singleton.
  - intros [Hk Hm]%list.NoDup_cons. destruct (Keq k key) eqn:Hkey; simpl.
    + by apply list.NoDup_cons.
    + apply list.NoDup_cons. split; [|by apply IH].
      intros [Hin| ->]%Map_Store_keys; [done|].
      rewrite Keq_decide, bool_decide_eq_true_2 in Hkey; done.
Qed.

Lemma Map_Delete_NoDup m key :
  NoDup m.*1 → NoDup (AnyKey.Map_Delete Keq m key).*1.
Proof.
  induction m as [|[k v] m IH]; simpl; [done|].
  intros [Hk Hm]%list.NoDup_cons. destruct (Keq k key); simpl; [by apply IH|].
  apply list.NoDup_cons. split; [|by apply IH].
  intros Hin%Map_Delete_keys. done.
Qed.

(** *** The map through the operations *)

Lemma as_gmap_NewConcurrentMap size c :
  AnyKey.NewConcurrentMap size = Some c →
  ConcurrentMap.NewConcurrentMap size = Some (AnyKey.as_gmap c)
  ∧ Forall (λ m, NoDup m.*1) (AnyKey.shardings c).
Proof.
  unfold AnyKey.NewConcurrentMap, ConcurrentMap.NewConcurrentMap.
  destruct ((size ++ [0; 0]) !! 0%nat) as [n|]; simpl; [|done].
  destruct ((size ++ [0; 0]) !! 1%nat) as [cap|]; simpl; [|done].
  intros [= <-]. unfold AnyKey.as_gmap. simpl. split.
  - by rewrite fmap_replicate.
  - apply Forall_replicate. apply NoDup_nil_2.
Qed.

Lemma as_gmap_GetSharding c key :
  ConcurrentMap.GetSharding hash (AnyKey.as_gmap c) key
  = list_to_map <$> AnyKey.GetSharding hash c key.
Proof.
  unfold ConcurrentMap.GetSharding, AnyKey.GetSharding, AnyKey.as_gmap.
  simpl. by rewrite list_lookup_fmap.
Qed.

Lemma as_gmap_Load c key :
  ConcurrentMap.Load hash (AnyKey.as_gmap c) key = AnyKey.Load Keq hash c key.
Proof.
  unfold ConcurrentMap.Load, AnyKey.Load. rewrite as_gmap_GetSharding.
  destruct (AnyKey.GetSharding hash c key) as [b|]; simpl; [|done].
  unfold ConcurrentMap.Map_Load. by rewrite Map_Load_list_to_map.
Qed.

Lemma as_gmap_Store c key value c' :
  AnyKey.Store Keq hash c key value = Some c' →
  ConcurrentMap.Store hash (AnyKey.as_gmap c) key value
  = Some (AnyKey.as_gmap c').
Proof.
  unfold ConcurrentMap.Store, AnyKey.Store. rewrite as_gmap_GetSharding.
  destruct (AnyKey.GetSharding hash c key) as [b|]; simpl; [|done].
  intros [= <-]. f_equal.
  unfold ConcurrentMap.set_sharding, AnyKey.as_gmap, AnyKey.set_sharding.
  simpl. f_equal. rewrite list_fmap_insert.
  unfold ConcurrentMap.Map_Store. by rewrite list_to_map_Map_Store.
Qed.

Lemma as_gmap_Delete c key c' :
  AnyKey.Delete Keq hash c key = Some c' →
  ConcurrentMap.Delete hash (AnyKey.as_gmap c) key = Some (AnyKey.as_gmap c').
Proof.
  unfold ConcurrentMap.Delete, AnyKey.Delete. rewrite as_gmap_GetSharding.
  destruct (AnyKey.GetSharding hash c key) as [b|]; simpl; [|done].
  intros [= <-]. f_equal.
  unfold ConcurrentMap.set_sharding, AnyKey.as_gmap, AnyKey.set_sharding.
  simpl. f_equal. rewrite list_fmap_insert.
  unfold ConcurrentMap.Map_Delete. by rewrite list_to_map_Map_Delete.
Qed.

Lemma as_gmap_reachable size c :
  AnyKey.reachable Keq hash size c →
  ConcurrentMap.reachable hash size (AnyKey.as_gmap c)
  ∧ Forall (λ m, NoDup m.*1) (AnyKey.shardings c).
Proof.
  induction 1 as [c Hsize Hnew|c key value c' _ [IH Hnd] Hs|c key c' _ [IH Hnd] Hd].
  - destruct (as_gmap_NewConcurrentMap size c Hnew) as [Hg Hnd].
    split; [by apply ConcurrentMap.reach_New | done].
  - split; [by eapply ConcurrentMap.reach_Store, as_gmap_Store|].
    unfold AnyKey.Store in Hs.
    destruct (AnyKey.GetSharding hash c key) as [b|] eqn:Hb; simplify_eq/=.
    apply Forall_insert; [done|]. apply Map_Store_NoDup.
    unfold AnyKey.GetSharding in Hb.
    by eapply (Forall_lookup_1 _ _ _ _ Hnd).
  - split; [by eapply ConcurrentMap.reach_Delete, as_gmap_Delete|].
    unfold AnyKey.Delete in Hd.
    destruct (AnyKey.GetSharding hash c key) as [b|] eqn:Hb; simplify_eq/=.
    apply Forall_insert; [done|]. apply Map_Delete_NoDup.
    unfold AnyKey.GetSharding in Hb.
    by eapply (Forall_lookup_1 _ _ _ _ Hnd).
Qed.

Lemma as_gmap_Len c :
  Forall (λ m, NoDup m.*1) (AnyKey.shardings c) →
  ConcurrentMap.Len (AnyKey.as_gmap c) = AnyKey.Len c.
Proof.
  unfold ConcurrentMap.Len, AnyKey.Len, AnyKey.as_gmap. simpl.
  generalize 0. induction (AnyKey.shardings c) as [|m ms IH]; intros a Hnd;
    simpl; [done|].
  apply list.Forall_cons in Hnd as [Hm Hms]. rewrite IH by done.
  do 2 f_equal. unfold ConcurrentMap.Map_Len, AnyKey.Map_Len.
  by rewrite map_size_list_to_map.
Qed.

Lemma as_gmap_flatten c :
  ConcurrentMap.flatten (AnyKey.as_gmap c)
  = list_to_map (concat (AnyKey.shardings c)).
Proof.
  unfold ConcurrentMap.flatten, AnyKey.as_gmap. simpl.
  induction (AnyKey.shardings c) as [|m ms IH]; [done|].
  rewrite fmap_cons.
  change (list_to_map m ∪ ⋃ (list_to_map <$> ms)
          = (list_to_map (m ++ concat ms) : gmap K V)).
  by rewrite list_to_map_app, IH.
Qed.

(** The entries of the shards are the entries of the union of the
    shards, each once. *)
Lemma as_gmap_entries size c :
  AnyKey.reachable Keq hash size c →
  concat (AnyKey.shardings c)
  ≡ₚ map_to_list (ConcurrentMap.flatten (AnyKey.as_gmap c)).
Proof.
  intros Hreach.
  destruct (as_gmap_reachable size c Hreach) as [Hg Hnd].
  rewrite <- (Range_order_flatten hash size (AnyKey.as_gmap c)
                (λ (_ : nat) (m : gmap K V), map_to_list m) Hg) by done.
  unfold ConcurrentMap.Range_order, AnyKey.as_gmap. simpl.
  induction (AnyKey.shardings c) as [|m ms IH]; simpl; [done|].
  apply list.Forall_cons in Hnd as [Hm Hms].
  rewrite map_to_list_to_map by done. f_equiv. by apply IH.
Qed.

(** *** [Range] over the shards *)

Lemma AnyKey_Range_loop_stopped {St : Type} order c
    (f : K → V → St → bool * St) rounds i s :
  AnyKey.Range_loop order c f rounds i (false, s) = Some (false, s).
Proof. destruct rounds; simpl; [done|]. by rewrite andb_false_r. Qed.

Lemma AnyKey_Range_loop_entries {St : Type} order c
    (f : K → V → St → bool * St) :
  length (AnyKey.shardings c) = Z.to_nat (AnyKey.num c) →
  ∀ rounds i s,
    0 <= i → Z.of_nat rounds + i = AnyKey.num c →
    ∃ st, AnyKey.Range_loop order c f rounds i (true, s) = Some st
          ∧ st.2 = ConcurrentMap.Range_entries
                     (concat (drop (Z.to_nat i)
                                (imap order (AnyKey.shardings c)))) f s.
Proof.
  intros Hlen. induction rounds as [|rounds IH]; intros i s Hi Hrounds.
  - simpl. eexists. split; [done|]. simpl.
    rewrite drop_ge by (rewrite length_imap; lia). done.
  - simpl. rewrite bool_decide_eq_true_2 by lia. simpl.
    destruct (lookup_lt_is_Some_2 (AnyKey.shardings c) (Z.to_nat i))
      as [b Hb]; [lia|].
    rewrite Hb. simpl.
    assert (Hdrop : drop (Z.to_nat i) (imap order (AnyKey.shardings c))
                    = order (Z.to_nat i) b
                      :: drop (Z.to_nat (i + 1))
                           (imap order (AnyKey.shardings c))).
    { replace (Z.to_nat (i + 1)) with (S (Z.to_nat i)) by lia.
      apply drop_S. by rewrite list_lookup_imap, Hb. }
    rewrite Hdrop. simpl. unfold AnyKey.Map_Range.
    destruct (Range_cb_app (order (Z.to_nat i) b)
                (concat (drop (Z.to_nat (i + 1))
                           (imap order (AnyKey.shardings c)))) f s)
      as [Hst Happ].
    destruct (ConcurrentMap.Range_entries (order (Z.to_nat i) b)
                (ConcurrentMap.Range_cb f) (true, s)) as [next s1].
    simpl in Hst, Happ. rewrite Happ. destruct next.
    + apply IH; lia.
    + rewrite AnyKey_Range_loop_stopped. by eexists.
Qed.

Lemma AnyKey_Range_entries size c order {St : Type}
    (f : K → V → St → bool * St) s :
  AnyKey.reachable Keq hash size c →
  AnyKey.Range order c f s
  = Some (ConcurrentMap.Range_entries
            (concat (imap order (AnyKey.shardings c))) f s).
Proof.
  intros Hreach.
  destruct (AnyKey_reachable_wf Keq hash size c Hreach) as (k & Hk & Hnum & Hlen).
  unfold AnyKey.Range.
  assert (0 < 2 ^ k) by (apply Z.pow_pos_nonneg; lia).
  destruct (AnyKey_Range_loop_entries order c f Hlen
              (Z.to_nat (AnyKey.num c)) 0 s) as (st & -> & Hst);
    [lia..|].
  simpl. by rewrite Hst.
Qed.

Lemma concat_imap_Permutation (order : nat → list (K * V) → list (K * V))
    (ms : list (list (K * V))) :
  (∀ i m, order i m ≡ₚ m) → concat (imap order ms) ≡ₚ concat ms.
Proof.
  revert order. induction ms as [|m ms IH]; intros order Hord; simpl; [done|].
  rewrite Hord. f_equiv. apply IH. intros i m'. apply Hord.
Qed.

(** X14. With keys whose [==] is the identity, in every map a program
    can reach, [Load] finds exactly what the shards hold: a key is found,
    with a value, if and only if some shard, whichever, holds it with
    that value; so [Load] is the lookup among the entries of all the
    shards. *)
Theorem ConcurrentMap_Load_any_shard size c key :
  AnyKey.reachable Keq hash size c →
  AnyKey.Load Keq hash c key
  = Some (AnyKey.Map_Load Keq (concat (AnyKey.shardings c)) key)
  ∧ ∀ v, AnyKey.Load Keq hash c key = Some (Some v)
         ↔ ∃ i b, AnyKey.shardings c !! i = Some b
                  ∧ AnyKey.Map_Load Keq b key = Some v.
Proof.
  intros Hreach.
  destruct (as_gmap_reachable size c Hreach) as [Hg Hnd].
  destruct (gmap_Load_any_shard hash size (AnyKey.as_gmap c) key Hg)
    as [Hload Hshard].
  rewrite as_gmap_Load in Hload, Hshard.
  split.
  - rewrite Hload, as_gmap_flatten. by rewrite Map_Load_list_to_map.
  - intros v. rewrite Hshard. unfold AnyKey.as_gmap. simpl. split.
    + intros (i & b & Hi & Hv). rewrite list_lookup_fmap in Hi.
      destruct (AnyKey.shardings c !! i) as [m|] eqn:Hm; simplify_eq/=.
      exists i, m. split; [done|]. by rewrite Map_Load_list_to_map.
    + intros (i & m & Hi & Hv). exists i, (list_to_map m).
      rewrite list_lookup_fmap, Hi. split; [done|].
      by rewrite <- Map_Load_list_to_map.
Qed.

(** X16. With keys whose [==] is the identity, [Len] is the number of
    keys [Load] finds; it is the number of entries of all the shards. *)
Theorem ConcurrentMap_Len_entries size c :
  AnyKey.reachable Keq hash size c →
  AnyKey.Len c = slice.len (concat (AnyKey.shardings c))
  ∧ ∀ l : list K,
      NoDup l →
      (∀ key, key ∈ l ↔ ∃ v, AnyKey.Load Keq hash c key = Some (Some v)) →
      AnyKey.Len c = slice.len l.
Proof.
  intros Hreach.
  destruct (as_gmap_reachable size c Hreach) as [Hg Hnd].
  destruct (gmap_Len_entries hash size (AnyKey.as_gmap c) Hg) as [Hlen Hkeys].
  rewrite (as_gmap_Len c Hnd) in Hlen, Hkeys. split.
  - rewrite Hlen, <- length_map_to_list. unfold slice.len. f_equal.
    symmetry. apply Permutation_length. by eapply as_gmap_entries.
  - intros l Hl Hfound. apply Hkeys; [done|]. intros key.
    rewrite as_gmap_Load. apply Hfound.
Qed.

(** X20. With keys whose [==] is the identity, a function that always
    returns true is called by [Range] exactly once for every key [Load]
    finds, with the value [Load] gives, and for nothing else. *)
Theorem ConcurrentMap_Range_visits_once size c order :
  AnyKey.reachable Keq hash size c →
  (∀ i m, order i m ≡ₚ m) →
  ∃ visited,
    AnyKey.Range order c (λ k v acc, (true, acc ++ [(k, v)])) []
      = Some visited
    ∧ NoDup visited.*1
    ∧ ∀ k v, (k, v) ∈ visited ↔ AnyKey.Load Keq hash c k = Some (Some v).
Proof.
  intros Hreach Hord.
  destruct (as_gmap_reachable size c Hreach) as [Hg Hnd].
  pose proof (reachable_wf hash size _ Hg) as Hwf.
  pose proof (reachable_routed hash size _ Hg) as Hr.
  exists (concat (imap order (AnyKey.shardings c))).
  rewrite (AnyKey_Range_entries size c order _ [] Hreach).
  rewrite Range_entries_collect. split; [done|].
  assert (Hp : concat (imap order (AnyKey.shardings c))
               ≡ₚ map_to_list (ConcurrentMap.flatten (AnyKey.as_gmap c))).
  { rewrite concat_imap_Permutation by done. by eapply as_gmap_entries. }
  split.
  - rewrite Hp. apply NoDup_fst_map_to_list.
  - intros k v. rewrite Hp, elem_of_map_to_list.
    rewrite <- as_gmap_Load.
    rewrite (Load_flatten hash _ k Hwf Hr).
    split; [by intros ->|by intros [=]].
Qed.

End IdentityKeys.

Lemma ConcurrentMap_Load_any_shard_witness :
  let c := @AnyKey.mk Z nat 16 (<[3%nat := [(35, 7%nat)]]> (replicate 16 [])) in
  (∀ a b, Z.eqb a b = true ↔ a = b)
  ∧ AnyKey.reachable Z.eqb Z.abs [] c
  ∧ AnyKey.Load Z.eqb Z.abs c 35
    = Some (AnyKey.Map_Load Z.eqb (concat (AnyKey.shardings c)) 35)
  ∧ AnyKey.Load Z.eqb Z.abs c 35 = Some (Some 7%nat).
Proof.
  intros c.
  assert (Hr : AnyKey.reachable Z.eqb Z.abs [] c).
  { apply (AnyKey.reach_Store Z.eqb Z.abs []
             (AnyKey.mk 16 (replicate 16 [])) 35 7%nat);
      [apply AnyKey.reach_New; [constructor | reflexivity] | reflexivity]. }
  split; [exact Z.eqb_eq|]. split; [exact Hr|].
  destruct (ConcurrentMap_Load_any_shard Z.eqb Z.abs Z.eqb_eq [] c 35 Hr)
    as [Hload _].
  split; [exact Hload|]. rewrite Hload. reflexivity.
Defined.

Lemma ConcurrentMap_Len_entries_witness :
  let c := @AnyKey.mk Z nat 16 (<[3%nat := [(35, 7%nat)]]> (replicate 16 [])) in
  (∀ a b, Z.eqb a b = true ↔ a = b)
  ∧ AnyKey.reachable Z.eqb Z.abs [] c
  ∧ AnyKey.Len c = slice.len (concat (AnyKey.shardings c))
  ∧ AnyKey.Len c = 1.
Proof.
  intros c.
  assert (Hr : AnyKey.reachable Z.eqb Z.abs [] c).
  { apply (AnyKey.reach_Store Z.eqb Z.abs []
             (AnyKey.mk 16 (replicate 16 [])) 35 7%nat);
      [apply AnyKey.reach_New; [constructor | reflexivity] | reflexivity]. }
  split; [exact Z.eqb_eq|]. split; [exact Hr|].
  destruct (ConcurrentMap_Len_entries Z.eqb Z.abs Z.eqb_eq [] c Hr)
    as [Hlen _].
  split; [exact Hlen|]. rewrite Hlen. reflexivity.
Defined.

Lemma ConcurrentMap_Range_visits_once_witness :
  let c := @AnyKey.mk Z nat 16 (<[3%nat := [(35, 7%nat)]]> (replicate 16 [])) in
  let order := λ (_ : nat) (m : list (Z * nat)), m in
  (∀ a b, Z.eqb a b = true ↔ a = b)
  ∧ AnyKey.reachable Z.eqb Z.abs [] c
  ∧ (∀ i m, order i m ≡ₚ m)
  ∧ ∃ visited,
      AnyKey.Range order c (λ k v acc, (true, acc ++ [(k, v)])) []
        = Some visited
      ∧ NoDup visited.*1.
Proof.
  intros c order.
  assert (Hr : AnyKey.reachable Z.eqb Z.abs [] c).
  { apply (AnyKey.reach_Store Z.eqb Z.abs []
             (AnyKey.mk 16 (replicate 16 [])) 35 7%nat);
      [apply AnyKey.reach_New; [constructor | reflexivity] | reflexivity]. }
  assert (Hord : ∀ i m, order i m ≡ₚ m) by (intros; reflexivity).
  split; [exact Z.eqb_eq|]. split; [exact Hr|]. split; [exact Hord|].
  destruct (ConcurrentMap_Range_visits_once Z.eqb Z.abs Z.eqb_eq [] c order
              Hr Hord) as (visited & Hrange & Hnd & _).
  exists visited. split; [exact Hrange | exact Hnd].
Defined.
